(** * Symbol-to-speech rewriting (tts_app/preprocessors/symbols.py)

    A shallow embedding of [SymbolConverter]: its phrase tables, the
    language selection of [process], and the three rewriting passes.
    Python strings are lists of code points; the regular expressions of
    the module are kept as syntax trees and run by a backtracking matcher
    that follows the search order of Python's [re] module.

    The text extraction of the DOC reader (tts_app/readers/doc_reader.py)
    is embedded with the same strings and the same matcher. *)

From Stdlib Require Import ZArith List Ascii String Bool Lia.
From stdpp Require Import base option list gmap strings.

Local Open Scope Z_scope.

(** ** Python strings *)

(** A Python [str] is a sequence of Unicode code points. *)
Abbreviation str := (list Z).

Definition byte_of (a : ascii) : Z := Z.of_N (N_of_ascii a).

(** Source literals are written as Rocq strings in UTF-8 and decoded to
    code points. *)
Fixpoint utf8_decode (bs : list Z) : str :=
  match bs with
  | [] => []
  | b0 :: r0 =>
      if b0 <? 128 then b0 :: utf8_decode r0
      else if b0 <? 224 then
        match r0 with
        | b1 :: r1 => ((b0 - 192) * 64 + (b1 - 128)) :: utf8_decode r1
        | [] => []
        end
      else if b0 <? 240 then
        match r0 with
        | b1 :: b2 :: r2 =>
            ((b0 - 224) * 4096 + (b1 - 128) * 64 + (b2 - 128)) :: utf8_decode r2
        | _ => []
        end
      else
        match r0 with
        | b1 :: b2 :: b3 :: r3 =>
            ((b0 - 240) * 262144 + (b1 - 128) * 4096 + (b2 - 128) * 64 + (b3 - 128))
              :: utf8_decode r3
        | _ => []
        end
  end.

Definition u (s : string) : str :=
  utf8_decode (map byte_of (list_ascii_of_string s)).

(** [str.replace(old, new)]: every non-overlapping occurrence of [old],
    found left to right, is replaced by [new]. [skip] counts the characters
    of the occurrence just replaced that are still to be passed over. *)
Fixpoint starts_with (p s : str) : bool :=
  match p, s with
  | [], _ => true
  | a :: p', b :: s' => (a =? b) && starts_with p' s'
  | _ :: _, [] => false
  end.

Fixpoint replace_scan (old new s : str) (skip : nat) : str :=
  match s with
  | [] => []
  | c :: s' =>
      match skip with
      | S n => replace_scan old new s' n
      | O =>
          if starts_with old s
          then (new ++ replace_scan old new s' (length old - 1))%list
          else c :: replace_scan old new s' 0
      end
  end.

(** With an empty [old] Python puts [new] before every character and at
    the end. *)
Fixpoint replace_empty (new s : str) : str :=
  match s with
  | [] => new
  | c :: s' => (new ++ c :: replace_empty new s')%list
  end.

Definition str_replace (old new s : str) : str :=
  match old with
  | [] => replace_empty new s
  | _ :: _ => replace_scan old new s 0
  end.

(** ** Regular expressions *)

Inductive cclass := Digit | Word | Space.

(** The syntax of the patterns of this module. [Rep lo hi r] is a greedy
    repetition ([*] is [Rep 0 None], [+] is [Rep 1 None], [?] is
    [Rep 0 (Some 1)], [{m,n}] is [Rep m (Some n)]); [Grp n r] is the n-th
    capturing group; a non-capturing group is its body. *)
Inductive regex :=
| Lit (c : Z)
| Set_ (cs : str)
| Cls (k : cclass)
| Bol
| Seq (r1 r2 : regex)
| Alt (r1 r2 : regex)
| Rep (lo : nat) (hi : option nat) (r : regex)
| Grp (n : nat) (r : regex)
| Ahead (r : regex)
| Behind (r : regex).

Definition Star := Rep 0 None.
Definition Plus := Rep 1 None.
Definition Opt := Rep 0 (Some 1%nat).

(** A position in the subject: the text before it (last character first),
    the text after it, and the groups captured so far, latest first. *)
Record mstate := MState {
  before : str;
  after : str;
  groups : list (nat * str)
}.

Definition advance (st : mstate) : mstate :=
  match after st with
  | c :: a => MState (c :: before st) a (groups st)
  | [] => st
  end.

(** The text between two positions of one subject. *)
Definition span (st0 st1 : mstate) : str :=
  rev (take (length (before st1) - length (before st0)) (before st1)).

Definition set_group (n : nat) (s : str) (st : mstate) : mstate :=
  MState (before st) (after st) ((n, s) :: groups st).

Fixpoint assoc (n : nat) (l : list (nat * str)) : option str :=
  match l with
  | [] => None
  | (m, s) :: l' => if Nat.eqb m n then Some s else assoc n l'
  end.

(** [match.group(n)]: [None] when the group took no part in the match. *)
Definition group (m : mstate) (n : nat) : option str := assoc n (groups m).

(** Width of a fixed-width pattern (what a lookbehind steps back). *)
Fixpoint width (r : regex) : nat :=
  match r with
  | Lit _ | Set_ _ | Cls _ => 1
  | Bol | Ahead _ | Behind _ => 0
  | Seq r1 r2 => width r1 + width r2
  | Alt r1 _ => width r1
  | Rep lo _ r1 => lo * width r1
  | Grp _ r1 => width r1
  end.

Fixpoint rewind (w : nat) (st : mstate) : mstate :=
  match w with
  | O => st
  | S w' =>
      match before st with
      | c :: b => rewind w' (MState b (c :: after st) (groups st))
      | [] => st
      end
  end.

Definition cont := mstate -> option mstate.

(** Greedy repetition: one more iteration is tried first, and the
    continuation only when that fails and [lo] iterations are done. An
    iteration has to consume text; every repeated body of this module does. *)
Fixpoint rep_loop (body : mstate -> cont -> option mstate)
    (fuel lo : nat) (hi : option nat) (st : mstate) (k : cont) : option mstate :=
  let more :=
    match fuel with
    | O => None
    | S f =>
        match hi with
        | Some O => None
        | _ =>
            body st (fun st1 =>
              if (length (after st1) <? length (after st))%nat
              then rep_loop body f (pred lo) (pred <$> hi) st1 k
              else None)
        end
    end in
  match more with
  | Some res => Some res
  | None => if Nat.eqb lo 0 then k st else None
  end.

(** Python's whitespace test ([str.isspace], used by [\s]). *)
Definition is_space (c : Z) : bool :=
  (9 <=? c) && (c <=? 13) || (28 <=? c) && (c <=? 32)
  || (c =? 133) || (c =? 160) || (c =? 5760)
  || (8192 <=? c) && (c <=? 8202)
  || (c =? 8232) || (c =? 8233) || (c =? 8239) || (c =? 8287) || (c =? 12288).

Definition ascii_digit (c : Z) : bool := (48 <=? c) && (c <=? 57).

Definition ascii_word (c : Z) : bool :=
  ascii_digit c || (65 <=? c) && (c <=? 90) || (97 <=? c) && (c <=? 122)
  || (c =? 95).

(** The Cyrillic letters U+0400 to U+045F (the alphabet of the Russian
    phrase table). *)
Definition cyrillic (c : Z) : bool := (1024 <=? c) && (c <=? 1119).

(** The non-ASCII symbols this module names: the pound, yen, euro and ruble
    signs, the five bullet glyphs and the two arrows. None is a digit or a
    word character. *)
Definition module_symbol (c : Z) : bool :=
  existsb (Z.eqb c) [163; 165; 8364; 8381; 8226; 9702; 9642; 9656; 9658; 8594; 8592].

(** A character database that knows no digits or letters beyond the ones
    fixed below; used to run the converter on concrete texts. *)
Definition no_more : Z -> bool := fun _ => false.

Section Converter.

(** The Unicode character database beyond ASCII, the Cyrillic letters,
    whitespace and the symbols above: which code points are decimal digits
    (the class \d) and which are letters or other numerics (which, with the
    digits and the underscore, make the class \w). *)
Variable uni_digit : Z -> bool.
Variable uni_word : Z -> bool.

(** [tts_app.utils.language_detection.detect_primary_language]. *)
Variable detect_primary_language : str -> string.

Definition is_digit (c : Z) : bool :=
  if c <? 128 then ascii_digit c
  else if cyrillic c || is_space c || module_symbol c then false
  else uni_digit c.

Definition is_word (c : Z) : bool :=
  if c <? 128 then ascii_word c
  else if cyrillic c then true
  else if is_space c || module_symbol c then false
  else uni_digit c || uni_word c.

Definition in_class (k : cclass) (c : Z) : bool :=
  match k with
  | Digit => is_digit c
  | Word => is_word c
  | Space => is_space c
  end.

Definition eat (p : Z -> bool) (st : mstate) (k : cont) : option mstate :=
  match after st with
  | c :: _ => if p c then k (advance st) else None
  | [] => None
  end.

(** The backtracking matcher: [rmatch r st k] matches [r] at [st] and
    hands the position reached to [k]; when [k] fails the next way of
    matching [r] is tried, in the order of the [re] module. *)
Fixpoint rmatch (r : regex) (st : mstate) (k : cont) {struct r} : option mstate :=
  match r with
  | Lit c => eat (Z.eqb c) st k
  | Set_ cs => eat (fun x => existsb (Z.eqb x) cs) st k
  | Cls cl => eat (in_class cl) st k
  | Bol => match before st with [] => k st | _ :: _ => None end
  | Seq r1 r2 => rmatch r1 st (fun st1 => rmatch r2 st1 k)
  | Alt r1 r2 =>
      match rmatch r1 st k with
      | Some res => Some res
      | None => rmatch r2 st k
      end
  | Rep lo hi r1 => rep_loop (rmatch r1) (length (after st)) lo hi st k
  | Grp n r1 => rmatch r1 st (fun st1 => k (set_group n (span st st1) st1))
  | Ahead r1 =>
      match rmatch r1 st Some with
      | Some _ => k st
      | None => None
      end
  | Behind r1 =>
      if (length (before st) <? width r1)%nat then None
      else
        match rmatch r1 (rewind (width r1) st)
                (fun st1 =>
                   if Nat.eqb (length (after st1)) (length (after st))
                   then Some st1 else None) with
        | Some _ => k st
        | None => None
        end
  end.

(** A match starting exactly at the position [(bef, s)]; group 0 is the
    whole match. *)
Definition match_here (r : regex) (bef s : str) : option mstate :=
  let st0 := MState bef s [] in
  rmatch r st0 (fun st1 => Some (set_group 0 (span st0 st1) st1)).

Definition match_len (bef : str) (m : mstate) : nat :=
  (length (before m) - length bef)%nat.

(** [re.sub(pattern, repl, s)]: the subject is scanned left to right; at
    each position not inside the previous match the pattern is tried, a
    match is replaced by [repl] of the match object and the scan goes on
    after it; other characters are copied. (After an empty match the
    character at that position is copied; no pattern of this module
    matches the empty string.) *)
Fixpoint sub_scan (r : regex) (repl : mstate -> str)
    (bef s : str) (skip : nat) : str :=
  match s with
  | [] =>
      match skip with
      | O => match match_here r bef [] with
             | Some m => repl m
             | None => []
             end
      | S _ => []
      end
  | c :: s' =>
      match skip with
      | S n => sub_scan r repl (c :: bef) s' n
      | O =>
          match match_here r bef s with
          | Some m =>
              match match_len bef m with
              | O => (repl m ++ c :: sub_scan r repl (c :: bef) s' 0)%list
              | S n => (repl m ++ sub_scan r repl (c :: bef) s' n)%list
              end
          | None => c :: sub_scan r repl (c :: bef) s' 0
          end
      end
  end.

Definition re_sub (r : regex) (repl : mstate -> str) (s : str) : str :=
  sub_scan r repl [] s 0.

(** ** The converter *)

Infix ";;;" := Seq (at level 60, right associativity).

(** A group in an f-string: [None] is printed as the word None. *)
Definition fmt (g : option str) : str :=
  match g with
  | Some s => s
  | None => u "None"
  end.

(** [x or ""] *)
Definition or_empty (g : option str) : str :=
  match g with
  | Some s => s
  | None => []
  end.

Definition SYMBOL_MAP_EN : gmap string str :=
  list_to_map [
    ("equals"%string, u " equals ");
    ("plus"%string, u " plus ");
    ("minus"%string, u " minus ");
    ("times"%string, u " times ");
    ("divided_by"%string, u " divided by ");
    ("percent"%string, u " percent");
    ("less_than"%string, u " less than ");
    ("greater_than"%string, u " greater than ");
    ("less_or_equal"%string, u " less than or equal to ");
    ("greater_or_equal"%string, u " greater than or equal to ");
    ("not_equal"%string, u " not equal to ");
    ("arrow"%string, u " arrow ");
    ("dollars"%string, u " dollars");
    ("euros"%string, u " euros");
    ("pounds"%string, u " pounds");
    ("yen"%string, u " yen");
    ("rubles"%string, u " rubles");
    ("at"%string, u " at ");
    ("and"%string, u " and ");
    ("number"%string, u " number ");
    ("point"%string, u "Point ")
  ].

Definition SYMBOL_MAP_RU : gmap string str :=
  list_to_map [
    ("equals"%string, u " равно ");
    ("plus"%string, u " плюс ");
    ("minus"%string, u " минус ");
    ("times"%string, u " умножить на ");
    ("divided_by"%string, u " делить на ");
    ("percent"%string, u " процентов");
    ("less_than"%string, u " меньше ");
    ("greater_than"%string, u " больше ");
    ("less_or_equal"%string, u " меньше или равно ");
    ("greater_or_equal"%string, u " больше или равно ");
    ("not_equal"%string, u " не равно ");
    ("arrow"%string, u " стрелка ");
    ("dollars"%string, u " долларов");
    ("euros"%string, u " евро");
    ("pounds"%string, u " фунтов");
    ("yen"%string, u " иен");
    ("rubles"%string, u " рублей");
    ("at"%string, u " собака ");
    ("and"%string, u " и ");
    ("number"%string, u " номер ");
    ("point"%string, u "Пункт ")
  ].

Definition LANGUAGE_MAPS : gmap string (gmap string str) :=
  list_to_map [
    ("ru"%string, SYMBOL_MAP_RU);
    ("en"%string, SYMBOL_MAP_EN)
  ].

(** The instance state: the table selected by the last [process]. *)
Record SymbolConverter := { _current_map : gmap string str }.

(** [ProcessingContext]: only its [language] is read. *)
Record ProcessingContext := { language : option string }.

Definition __init__ : SymbolConverter := {| _current_map := SYMBOL_MAP_EN |}.

(** Truth value of an [Optional[str]]: [None] and the empty string are
    false. *)
Definition truthy (l : option string) : bool :=
  match l with
  | Some (String _ _) => true
  | _ => false
  end.

Definition _get_symbol_map (lang : option string) : gmap string str :=
  match lang with
  | Some l =>
      if truthy lang then
        match LANGUAGE_MAPS !! l with
        | Some m => m
        | None => SYMBOL_MAP_EN
        end
      else SYMBOL_MAP_EN
  | None => SYMBOL_MAP_EN
  end.

Definition _detect_text_language (text : str) : string :=
  detect_primary_language text.

(** The list-marker pattern. Group 1 is "(^|\n)", group 2 is "(\d{1,3})",
    group 3 is "([.\)])", and group 4 is a group around "\s*". *)
Definition numbered_point_re : regex :=
  Grp 1 (Alt Bol (Lit 10)) ;;; Grp 2 (Rep 1 (Some 3%nat) (Cls Digit)) ;;;
  Grp 3 (Set_ (u ".)")) ;;; Grp 4 (Star (Cls Space)).

Definition replace_numbered_point (point_word : str) (m : mstate) : str :=
  let leading := or_empty (group m 1) in
  let number := group m 2 in
  let separator := group m 3 in
  let trailing := or_empty (group m 4) in
  if decide (separator = Some (u "."))
  then leading ++ point_word ++ fmt number ++ u "." ++ trailing
  else leading ++ fmt number ++ u "." ++ trailing.

Definition _convert_numbered_lists (self : SymbolConverter) (text : str) : str :=
  let result := text in
  let point_word := default (u "Point ") (_current_map self !! "point"%string) in
  let result := re_sub numbered_point_re (replace_numbered_point point_word) result in
  result.

(** The pattern "(\w+)\s*=\s*(\w+)". *)
Definition equals_re : regex :=
  Grp 1 (Plus (Cls Word)) ;;; Star (Cls Space) ;;; Lit 61 ;;; Star (Cls Space) ;;;
  Grp 2 (Plus (Cls Word)).

(** The pattern "(?<=\s)=(?=\s)". *)
Definition standalone_equals_re : regex :=
  Behind (Cls Space) ;;; Lit 61 ;;; Ahead (Cls Space).

(** The pattern "(\d+)\s*\+\s*(\d+)". *)
Definition plus_re : regex :=
  Grp 1 (Plus (Cls Digit)) ;;; Star (Cls Space) ;;; Lit 43 ;;; Star (Cls Space) ;;;
  Grp 2 (Plus (Cls Digit)).

(** The pattern "(\d+)%". *)
Definition percent_re : regex := Grp 1 (Plus (Cls Digit)) ;;; Lit 37.

Definition replace_equals (equals_word : str) (m : mstate) : str :=
  fmt (group m 1) ++ equals_word ++ fmt (group m 2).

Definition replace_plus (plus_word : str) (m : mstate) : str :=
  fmt (group m 1) ++ plus_word ++ fmt (group m 2).

Definition replace_percent (percent_word : str) (m : mstate) : str :=
  fmt (group m 1) ++ percent_word.

(** The math pass. The step for the standalone equals sign hands its
    phrase to [re.sub] as a string; it is put in as it is, which is what
    [re.sub] does with a string without a backslash, and no phrase of the
    built-in tables holds one. The other steps use callbacks, whose results
    are always put in as they are. *)
Definition _convert_math_expressions (self : SymbolConverter) (text : str) : str :=
  let result := text in
  let equals_word := default (u " equals ") (_current_map self !! "equals"%string) in
  let plus_word := default (u " plus ") (_current_map self !! "plus"%string) in
  let percent_word := default (u " percent") (_current_map self !! "percent"%string) in
  let greater_or_equal :=
    default (u " greater than or equal to ")
      (_current_map self !! "greater_or_equal"%string) in
  let less_or_equal :=
    default (u " less than or equal to ")
      (_current_map self !! "less_or_equal"%string) in
  let not_equal := default (u " not equal to ") (_current_map self !! "not_equal"%string) in
  let result := str_replace (u ">=") greater_or_equal result in
  let result := str_replace (u "<=") less_or_equal result in
  let result := str_replace (u "!=") not_equal result in
  let result := str_replace (u "==") equals_word result in
  let result := re_sub equals_re (replace_equals equals_word) result in
  let result := re_sub standalone_equals_re (fun _ => equals_word) result in
  let result := re_sub plus_re (replace_plus plus_word) result in
  let result := re_sub percent_re (replace_percent percent_word) result in
  result.

(** The pattern "<symbol>(\d+(?:\.\d{2})?)" for one currency symbol. *)
Definition currency_re (symbol : Z) : regex :=
  Lit symbol ;;;
  Grp 1 (Plus (Cls Digit) ;;; Opt (Lit 46 ;;; Rep 2 (Some 2%nat) (Cls Digit))).

Definition dollar_sign : Z := 36.
Definition euro_sign : Z := 8364.
Definition pound_sign : Z := 163.
Definition ruble_sign : Z := 8381.

(** The pattern "(^|\n)\s*[•◦▪▸►]\s*". *)
Definition bullet_re : regex :=
  Grp 1 (Alt Bol (Lit 10)) ;;; Star (Cls Space) ;;; Set_ (u "•◦▪▸►") ;;;
  Star (Cls Space).

(** The pattern "\s+&\s+". *)
Definition ampersand_re : regex :=
  Plus (Cls Space) ;;; Lit 38 ;;; Plus (Cls Space).

(** The pattern "#(\d+)". *)
Definition number_re : regex := Lit 35 ;;; Grp 1 (Plus (Cls Digit)).

(** The four currency callbacks differ only in the phrase. *)
Definition replace_currency (word : str) (m : mstate) : str :=
  fmt (group m 1) ++ word.

Definition replace_dollars := replace_currency.
Definition replace_euros := replace_currency.
Definition replace_pounds := replace_currency.
Definition replace_rubles := replace_currency.

Definition replace_number (number_word : str) (m : mstate) : str :=
  number_word ++ fmt (group m 1).

(** The template "\1". *)
Definition template_group1 (m : mstate) : str := default [] (group m 1).

(** The standalone pass. The ampersand step hands its phrase to [re.sub]
    as a string, put in as it is as in the math pass; the bullet step uses
    the template above. *)
Definition _convert_standalone_symbols (self : SymbolConverter) (text : str) : str :=
  let result := text in
  let dollars_word := default (u " dollars") (_current_map self !! "dollars"%string) in
  let euros_word := default (u " euros") (_current_map self !! "euros"%string) in
  let pounds_word := default (u " pounds") (_current_map self !! "pounds"%string) in
  let rubles_word := default (u " rubles") (_current_map self !! "rubles"%string) in
  let and_word := default (u " and ") (_current_map self !! "and"%string) in
  let number_word := default (u " number ") (_current_map self !! "number"%string) in
  let arrow_word := default (u " arrow ") (_current_map self !! "arrow"%string) in
  let result := re_sub (currency_re dollar_sign) (replace_dollars dollars_word) result in
  let result := re_sub (currency_re euro_sign) (replace_euros euros_word) result in
  let result := re_sub (currency_re pound_sign) (replace_pounds pounds_word) result in
  let result := re_sub (currency_re ruble_sign) (replace_rubles rubles_word) result in
  let result := re_sub bullet_re template_group1 result in
  let result := re_sub ampersand_re (fun _ => and_word) result in
  let result := re_sub number_re (replace_number number_word) result in
  let result := str_replace (u "→") arrow_word result in
  let result := str_replace (u "←") arrow_word result in
  let result := str_replace (u "->") arrow_word result in
  let result := str_replace (u "<-") arrow_word result in
  result.

(** The pattern "  +". *)
Definition spaces_re : regex := Lit 32 ;;; Plus (Lit 32).

(** [process] returns the rewritten text and leaves the selected table in
    the instance. *)
Definition process (self : SymbolConverter) (text : str) (context : ProcessingContext)
    : str * SymbolConverter :=
  let lang := language context in
  let lang := if negb (truthy lang) then Some (_detect_text_language text) else lang in
  let self := {| _current_map := _get_symbol_map lang |} in
  let result := text in
  let result := _convert_numbered_lists self result in
  let result := _convert_math_expressions self result in
  let result := _convert_standalone_symbols self result in
  let result := re_sub spaces_re (fun _ => u " ") result in
  (result, self).

(** The operation the specification calls [transform]: [process] on a
    fresh converter with the hint as the context language. *)
Definition transform (text : str) (language_hint : option string) : str :=
  fst (process __init__ text {| language := language_hint |}).

(** ** Declarative reading of the patterns *)

(** The length of the longest prefix of [s] made of [p]-characters. *)
Fixpoint munch (p : Z -> bool) (s : str) : nat :=
  match s with
  | c :: s' => if p c then S (munch p s') else O
  | [] => O
  end.

(** Greedy repetition of one character class, by recursion on the text. *)
Fixpoint rep_cls (p : Z -> bool) (lo : nat) (hi : option nat)
    (b a : str) (g : list (nat * str)) (k : cont) : option mstate :=
  let here := if Nat.eqb lo 0 then k (MState b a g) else None in
  match a with
  | c :: a' =>
      match hi with
      | Some O => here
      | _ =>
          if p c then
            match rep_cls p (pred lo) (pred <$> hi) (c :: b) a' g k with
            | Some res => Some res
            | None => here
            end
          else here
      end
  | [] => here
  end.

(** [matches r b w a g g']: with [b] before it, [r] can consume [w] and
    leave [a], taking the groups from [g] to [g']. Lookarounds are not
    constrained: the relation bounds what a match can be. *)
Inductive matches : regex -> str -> str -> str ->
    list (nat * str) -> list (nat * str) -> Prop :=
| m_lit c b a g : matches (Lit c) b [c] a g g
| m_set cs x b a g :
    existsb (Z.eqb x) cs = true -> matches (Set_ cs) b [x] a g g
| m_cls cl x b a g : in_class cl x = true -> matches (Cls cl) b [x] a g g
| m_bol a g : matches Bol [] [] a g g
| m_seq r1 r2 b w1 w2 a g g1 g2 :
    matches r1 b w1 (w2 ++ a) g g1 ->
    matches r2 (rev w1 ++ b) w2 a g1 g2 ->
    matches (Seq r1 r2) b (w1 ++ w2) a g g2
| m_alt_l r1 r2 b w a g g1 : matches r1 b w a g g1 -> matches (Alt r1 r2) b w a g g1
| m_alt_r r1 r2 b w a g g1 : matches r2 b w a g g1 -> matches (Alt r1 r2) b w a g g1
| m_rep_stop hi r b a g : matches (Rep 0 hi r) b [] a g g
| m_rep_more lo hi r b w1 w2 a g g1 g2 :
    matches r b w1 (w2 ++ a) g g1 ->
    matches (Rep (pred lo) (pred <$> hi) r) (rev w1 ++ b) w2 a g1 g2 ->
    matches (Rep lo hi r) b (w1 ++ w2) a g g2
| m_grp n r b w a g g1 : matches r b w a g g1 -> matches (Grp n r) b w a g ((n, w) :: g1)
| m_ahead r b a g : matches (Ahead r) b [] a g g
| m_behind r b a g : matches (Behind r) b [] a g g.

(** A continuation-style matcher is sound when each of its results comes
    from a declarative match followed by the continuation. *)
Definition sound (r : regex) (f : mstate -> cont -> option mstate) : Prop :=
  forall b a g k res,
    f (MState b a g) k = Some res ->
    exists w a' g', a = (w ++ a')%list /\ matches r b w a' g g' /\
                    k (MState (rev w ++ b) a' g') = Some res.

(** The four characters no rule of the converter names: the asterisk, the
    slash, the at sign and the yen sign. *)
Definition special (c : Z) : bool :=
  (c =? 42) || (c =? 47) || (c =? 64) || (c =? 165).

(** The part of [process] after the table is chosen: the three passes and
    the clean-up of spaces, for a converter whose table is [self]'s. *)
Definition passes (self : SymbolConverter) (text : str) : str :=
  re_sub spaces_re (fun _ => u " ")
    (_convert_standalone_symbols self
       (_convert_math_expressions self
          (_convert_numbered_lists self text))).

(** A table none of whose phrases holds one of the four characters. *)
Definition clean_table (m : gmap string str) : Prop :=
  forall key v, m !! key = Some v -> List.filter special v = [].

(** [n] repetitions respect the upper bound [hi]. *)
Definition within (hi : option nat) (n : nat) : bool :=
  match hi with
  | None => true
  | Some h => (n <=? h)%nat
  end.

(** Does [s] hold two spaces in a row? *)
Fixpoint double_space (s : str) : bool :=
  match s with
  | a :: s' =>
      match s' with
      | b :: _ => (a =? 32) && (b =? 32) || double_space s'
      | [] => false
      end
  | [] => false
  end.

(** *** The currency rule, read directly *)



(** *** The list-marker rule, read directly *)

(** A list marker at the start of [s]: one to three digits, then a period
    or a closing parenthesis, then whitespace. The result is the digits,
    the separator and the whitespace. *)
Definition marker (s : str) : option (str * Z * str) :=
  let n := munch is_digit s in
  if (1 <=? n)%nat && (n <=? 3)%nat then
    match drop n s with
    | sep :: rest =>
        if existsb (Z.eqb sep) (u ".)")
        then Some (take n s, sep, take (munch is_space rest) rest)
        else None
    | [] => None
    end
  else None.

(** A marker where a line starts: at the start of the text, or after a
    newline, which is then the leading part of the match. *)
Definition marker_here (at_start : bool) (s : str) : option (str * str * Z * str) :=
  match (if at_start then marker s else None) with
  | Some (ds, sep, ws) => Some ([], ds, sep, ws)
  | None =>
      match s with
      | c :: s' =>
          if c =? 10 then
            match marker s' with
            | Some (ds, sep, ws) => Some ([c], ds, sep, ws)
            | None => None
            end
          else None
      | [] => None
      end
  end.

(** One left-to-right pass: a marker becomes its leading newline, the point
    word when the separator is a period, the digits, a period and the
    whitespace; the scan goes on after that whitespace. *)
Fixpoint numbered_rule (point_word : str) (at_start : bool) (s : str) (skip : nat) : str :=
  match s with
  | [] => []
  | c :: s' =>
      match skip with
      | S n => numbered_rule point_word false s' n
      | O =>
          match marker_here at_start s with
          | Some (leading, ds, sep, ws) =>
              (leading ++ (if sep =? 46 then point_word else []) ++ ds ++ u "." ++ ws
                 ++ numbered_rule point_word false s'
                      (length leading + length ds + length ws))%list
          | None => c :: numbered_rule point_word false s' 0
          end
      end
  end.

(** A match [res] found with [bef] before it is the one [marker_here]
    describes. *)
Definition marker_found (bef : str) (e : option (str * str * Z * str))
    (res : option mstate) : Prop :=
  match e, res with
  | None, None => True
  | Some (leading, ds, sep, ws), Some m =>
      match_len bef m = S (length leading + length ds + length ws) /\
      group m 1 = Some leading /\ group m 2 = Some ds /\
      group m 3 = Some [sep] /\ group m 4 = Some ws
  | _, _ => False
  end.

Definition is_nil (s : str) : bool :=
  match s with
  | [] => true
  | _ :: _ => false
  end.

(** *** The bullet rule, read directly *)

(** A bullet at the start of [s]: whitespace, one of the five glyphs,
    whitespace. The result is the whitespace before, the glyph and the
    whitespace after. *)
Definition bullet (s : str) : option (str * Z * str) :=
  let n := munch is_space s in
  match drop n s with
  | c :: rest =>
      if existsb (Z.eqb c) (u "•◦▪▸►")
      then Some (take n s, c, take (munch is_space rest) rest)
      else None
  | [] => None
  end.

(** A bullet where a line starts: at the start of the text, or after a
    newline, which is then the leading part of the match. *)
Definition bullet_here (at_start : bool) (s : str) : option (str * str * Z * str) :=
  match (if at_start then bullet s else None) with
  | Some (ws1, c, ws2) => Some ([], ws1, c, ws2)
  | None =>
      match s with
      | c :: s' =>
          if c =? 10 then
            match bullet s' with
            | Some (ws1, g, ws2) => Some ([c], ws1, g, ws2)
            | None => None
            end
          else None
      | [] => None
      end
  end.

(** One left-to-right pass: of a bullet only the leading newline is kept,
    and the scan goes on after the whitespace behind the glyph. *)
Fixpoint bullet_rule (at_start : bool) (s : str) (skip : nat) : str :=
  match s with
  | [] => []
  | c :: s' =>
      match skip with
      | S n => bullet_rule false s' n
      | O =>
          match bullet_here at_start s with
          | Some (leading, ws1, _, ws2) =>
              (leading ++ bullet_rule false s'
                            (length leading + length ws1 + length ws2))%list
          | None => c :: bullet_rule false s' 0
          end
      end
  end.

Definition bullet_found (bef : str) (e : option (str * str * Z * str))
    (res : option mstate) : Prop :=
  match e, res with
  | None, None => True
  | Some (leading, ws1, _, ws2), Some m =>
      match_len bef m = S (length leading + length ws1 + length ws2) /\
      group m 1 = Some leading
  | _, _ => False
  end.

(** *** The number-sign rule, read directly *)

(** One left-to-right pass: a number sign directly followed by digits
    becomes [word] and the digits; everything else is copied. *)
Fixpoint number_rule (word : str) (s : str) (skip : nat) : str :=
  match s with
  | [] => []
  | c :: s' =>
      match skip with
      | S n => number_rule word s' n
      | O =>
          if (c =? 35) && (1 <=? munch is_digit s')%nat
          then (word ++ take (munch is_digit s') s'
                  ++ number_rule word s' (munch is_digit s'))%list
          else c :: number_rule word s' 0
      end
  end.

(** *** The equation rule, read directly *)

(** An equation at the start of [s]: a run of word characters, optional
    whitespace, the equals sign, optional whitespace, a run of word
    characters. The result is the two operands and the length of the
    whole. *)
Definition equation (s : str) : option (str * str * nat) :=
  let n1 := munch is_word s in
  let s1 := drop n1 s in
  let n2 := munch is_space s1 in
  match drop n2 s1 with
  | c :: s3 =>
      let n3 := munch is_space s3 in
      let s4 := drop n3 s3 in
      let n4 := munch is_word s4 in
      if (c =? 61) && (1 <=? n1)%nat && (1 <=? n4)%nat
      then Some (take n1 s, take n4 s4, (n1 + n2 + 1 + n3 + n4)%nat)
      else None
  | [] => None
  end.

(** One left-to-right pass: an equation becomes its left operand, [word]
    and its right operand, and the scan goes on after the right operand. *)
Fixpoint equals_rule (word : str) (s : str) (skip : nat) : str :=
  match s with
  | [] => []
  | c :: s' =>
      match skip with
      | S n => equals_rule word s' n
      | O =>
          match equation s with
          | Some (l, r, len) => (l ++ word ++ r ++ equals_rule word s' (len - 1))%list
          | None => c :: equals_rule word s' 0
          end
      end
  end.

(** A match [res] found at a position with [bef] before it is the one
    [equation] describes. *)
Definition equation_found (bef : str) (e : option (str * str * nat))
    (res : option mstate) : Prop :=
  match e, res with
  | None, None => True
  | Some (l, r, len), Some m =>
      match_len bef m = len /\ (1 <= len)%nat /\
      group m 1 = Some l /\ group m 2 = Some r
  | _, _ => False
  end.

(** Does [p] occur in [s]? *)
Fixpoint occurs (p s : str) : bool :=
  starts_with p s ||
  match s with
  | _ :: s' => occurs p s'
  | [] => false
  end.

(** The table the language rule of the specification would select: the
    hint when it is non-empty and in the registry, otherwise the oracle's
    answer for the text, with English when the registry does not know it. *)
Definition claimed_table (hint : option string) (text : str) : gmap string str :=
  match hint with
  | Some h =>
      match LANGUAGE_MAPS !! h with
      | Some m => if truthy hint then m else
                    default SYMBOL_MAP_EN (LANGUAGE_MAPS !! detect_primary_language text)
      | None => default SYMBOL_MAP_EN (LANGUAGE_MAPS !! detect_primary_language text)
      end
  | None => default SYMBOL_MAP_EN (LANGUAGE_MAPS !! detect_primary_language text)
  end.

(** Does [s] start with a character of the class [p]? *)
Definition starts_in (p : Z -> bool) (s : str) : bool :=
  match s with
  | c :: _ => p c
  | [] => false
  end.


(** Wherever the scan for [old] copies a character of [s], the pair
    [a], [b] does not start there. *)
Fixpoint safe (old : str) (a b : Z) (s : str) : Prop :=
  (starts_with old s = false -> starts_with [a; b] s = false) /\
  match s with
  | _ :: s' => safe old a b s'
  | [] => True
  end.

(** A non-empty phrase that holds none of the characters of the two-character
    comparison operators. *)
Definition operator_free (w : str) : bool :=
  match w with
  | [] => false
  | _ :: _ => forallb (fun x => negb (existsb (Z.eqb x) (u "><!="))) w
  end.

(** The patterns [process] substitutes with, in the order of their use. *)
Definition module_patterns : list regex :=
  [ numbered_point_re; equals_re; standalone_equals_re; plus_re; percent_re;
    currency_re dollar_sign; currency_re euro_sign; currency_re pound_sign;
    currency_re ruble_sign; bullet_re; ampersand_re; number_re; spaces_re ].

(** The symbol keys of the phrase tables. *)
Definition symbol_keys : list string :=
  [ "equals"; "plus"; "minus"; "times"; "divided_by"; "percent"; "less_than";
    "greater_than"; "less_or_equal"; "greater_or_equal"; "not_equal"; "arrow";
    "dollars"; "euros"; "pounds"; "yen"; "rubles"; "at"; "and"; "number";
    "point" ]%string.

(** [key] has a non-empty phrase in the table [m]. *)
Definition has_phrase (m : gmap string str) (key : string) : bool :=
  match m !! key with
  | Some (_ :: _) => true
  | _ => false
  end.

(** *** The clean-up of spaces, read directly *)

(** One left-to-right pass: a space that directly follows a space is
    dropped; everything else is copied. [after_space] tells whether the
    previous character is a space. *)
Fixpoint spaces_rule (after_space : bool) (s : str) : str :=
  match s with
  | [] => []
  | c :: s' =>
      if (c =? 32) && after_space then spaces_rule true s'
      else c :: spaces_rule (c =? 32) s'
  end.

(** *** The percent rule, read directly *)

(** One left-to-right pass: a percent sign that directly follows a digit
    becomes [word]; everything else is copied. [after_digit] tells whether
    the previous character is a digit. *)
Fixpoint percent_rule (word : str) (after_digit : bool) (s : str) : str :=
  match s with
  | [] => []
  | c :: s' =>
      ((if (c =? 37) && after_digit then word else [c])
         ++ percent_rule word (is_digit c) s')%list
  end.

(** *** The rule for a standalone equals sign, read directly *)

(** One left-to-right pass: an equals sign with a whitespace character
    directly before it and directly after it becomes [word]; everything else
    is copied. [after_space] tells whether the previous character is
    whitespace. *)
Fixpoint standalone_rule (word : str) (after_space : bool) (s : str) : str :=
  match s with
  | [] => []
  | c :: s' =>
      ((if (c =? 61) && after_space && starts_in is_space s' then word else [c])
         ++ standalone_rule word (is_space c) s')%list
  end.

(** *** The ampersand rule, read directly *)

(** An ampersand group at the start of [s]: a non-empty run of whitespace,
    the ampersand, a non-empty run of whitespace. The result is the length
    of the group. *)
Definition ampersand (s : str) : option nat :=
  let n1 := munch is_space s in
  match drop n1 s with
  | c :: rest =>
      let n2 := munch is_space rest in
      if (c =? 38) && (1 <=? n1)%nat && (1 <=? n2)%nat
      then Some (n1 + 1 + n2)%nat
      else None
  | [] => None
  end.

(** One left-to-right pass: an ampersand group becomes [word], and the scan
    goes on after the whitespace behind the ampersand. *)
Fixpoint ampersand_rule (word : str) (s : str) (skip : nat) : str :=
  match s with
  | [] => []
  | c :: s' =>
      match skip with
      | S n => ampersand_rule word s' n
      | O =>
          match ampersand s with
          | Some len => (word ++ ampersand_rule word s' (len - 1))%list
          | None => c :: ampersand_rule word s' 0
          end
      end
  end.

(** *** The plus rule, read directly *)

(** A sum at the start of [s]: a run of digits, optional whitespace, the
    plus sign, optional whitespace, a run of digits. The result is the two
    operands and the length of the whole. *)
Definition addition (s : str) : option (str * str * nat) :=
  let n1 := munch is_digit s in
  let s1 := drop n1 s in
  let n2 := munch is_space s1 in
  match drop n2 s1 with
  | c :: s3 =>
      let n3 := munch is_space s3 in
      let s4 := drop n3 s3 in
      let n4 := munch is_digit s4 in
      if (c =? 43) && (1 <=? n1)%nat && (1 <=? n4)%nat
      then Some (take n1 s, take n4 s4, (n1 + n2 + 1 + n3 + n4)%nat)
      else None
  | [] => None
  end.

(** One left-to-right pass: a sum becomes its left operand, [word] and its
    right operand, and the scan goes on after the right operand. *)
Fixpoint plus_rule (word : str) (s : str) (skip : nat) : str :=
  match s with
  | [] => []
  | c :: s' =>
      match skip with
      | S n => plus_rule word s' n
      | O =>
          match addition s with
          | Some (l, r, len) => (l ++ word ++ r ++ plus_rule word s' (len - 1))%list
          | None => c :: plus_rule word s' 0
          end
      end
  end.

(** A match [res] found at a position with [bef] before it is the one
    [addition] describes. *)
Definition addition_found (bef : str) (e : option (str * str * nat))
    (res : option mstate) : Prop :=
  match e, res with
  | None, None => True
  | Some (l, r, len), Some m =>
      match_len bef m = len /\ (1 <= len)%nat /\
      group m 1 = Some l /\ group m 2 = Some r
  | _, _ => False
  end.

(** A match [res] found at a position with [bef] before it is the one
    [ampersand] describes. *)
Definition ampersand_found (bef : str) (e : option nat) (res : option mstate) : Prop :=
  match e, res with
  | None, None => True
  | Some len, Some m => match_len bef m = len /\ (1 <= len)%nat
  | _, _ => False
  end.

(** *** Texts no rule applies to *)

(** The characters one of which every rule other than the list rule and the
    clean-up of spaces needs: the equals, plus, percent and number signs,
    the ampersand, the four currency signs, the five bullet glyphs and the
    two arrow glyphs. *)
Definition trigger (c : Z) : bool :=
  existsb (Z.eqb c) (u "=+%#&$€£₽•◦▪▸►→←").

(** Does some line of [s] begin with a digit? [at_start] tells whether [s]
    begins the text. Lines are separated by the newline only, as in the
    list pattern. *)
Fixpoint line_digit (at_start : bool) (s : str) : bool :=
  match s with
  | [] => false
  | c :: s' =>
      (at_start && is_digit c) ||
      ((c =? 10) && starts_in is_digit s') || line_digit false s'
  end.

(** A text without trigger characters, ASCII arrows, lines that begin with
    a digit, and runs of spaces. *)
Definition plain (s : str) : bool :=
  forallb (fun c => negb (trigger c)) s
  && negb (occurs (u "->") s) && negb (occurs (u "<-") s)
  && negb (line_digit true s) && negb (double_space s).

(** Does a character of the class [pa] stand directly before one of the
    class [pb] in [s]? *)
Fixpoint adjacent (pa pb : Z -> bool) (s : str) : bool :=
  match s with
  | a :: s' => pa a && starts_in pb s' || adjacent pa pb s'
  | [] => false
  end.

(** A replacement string without a backslash. [re.sub] reads a replacement
    given as a string as a template and expands its backslash escapes; a
    string without a backslash stands for itself, which is how the steps
    for the standalone equals sign and for the ampersand hand over their
    phrases. *)
Definition literal (w : str) : bool := negb (existsb (Z.eqb 92) w).

(** [re.search]: does the pattern match somewhere in [s]? [bef] holds the
    characters before [s], last first. *)
Fixpoint search_from (r : regex) (bef s : str) : bool :=
  match match_here r bef s with
  | Some _ => true
  | None =>
      match s with
      | c :: s' => search_from r (c :: bef) s'
      | [] => false
      end
  end.

Definition re_search (r : regex) (s : str) : bool := search_from r [] s.

(** A non-empty phrase without digits, percent signs and number signs. *)
Definition wordy (w : str) : bool :=
  match w with
  | [] => false
  | _ :: _ => forallb (fun x => negb (is_digit x || (37 =? x) || (35 =? x))) w
  end.


(** ** The DOC reader (tts_app/readers/doc_reader.py) *)

(** A [bytes] object is a sequence of integers from 0 to 255; [chr] of one
    of them is the code point of the same number. *)
Abbreviation bytes := (list Z).

(** What the reader uses of an [olefile.OleFileIO] object: which streams
    exist, the streams [listdir] gives, and the content of a stream, [None]
    when opening or reading it raises. A stream is named by a string, for
    the literal names of the source and for the entries of [listdir]
    alike. *)
Record OleFileIO := {
  exists_ : string -> bool;
  openstream : string -> option bytes;
  listdir : list string
}.

(** [sep.join(parts)] *)
Fixpoint join (sep : str) (parts : list str) : str :=
  match parts with
  | [] => []
  | p :: ps =>
      match ps with
      | [] => p
      | _ :: _ => (p ++ sep ++ join sep ps)%list
      end
  end.

(** [str.strip()]: the whitespace at both ends is removed. *)
Definition lstrip (s : str) : str := drop (munch is_space s) s.
Definition rstrip (s : str) : str := rev (lstrip (rev s)).
Definition strip (s : str) : str := rstrip (lstrip s).

(** The pattern "\s+". *)
Definition whitespace_re : regex := Plus (Cls Space).

(** The test of both scans: printable ASCII, or a line feed, a carriage
    return or a tab. *)
Definition readable (code : Z) : bool :=
  (32 <=? code) && (code <=? 126) || existsb (Z.eqb code) [10; 13; 9].

(** The loop of [_decode_text]: two bytes at a time are read as one
    UTF-16LE code unit; the loop ends when fewer than two bytes are left.
    The state is [text_parts] and [current_text]. *)
Fixpoint decode_loop (data : bytes) (text_parts : list str) (current_text : str)
    : list str * str :=
  match data with
  | b0 :: b1 :: rest =>
      let char_code := b0 + Z.shiftl b1 8 in
      if readable char_code
      then decode_loop rest text_parts (current_text ++ [char_code])
      else if negb (is_nil current_text) then
        let segment := current_text in
        let text_parts :=
          if (3 <=? length segment)%nat then (text_parts ++ [segment])%list
          else text_parts in
        decode_loop rest text_parts []
      else decode_loop rest text_parts current_text
  | _ => (text_parts, current_text)
  end.

Definition _decode_text (data : bytes) : str :=
  let '(text_parts, current_text) := decode_loop data [] [] in
  let text_parts :=
    if negb (is_nil current_text) then
      let segment := current_text in
      if (3 <=? length segment)%nat then (text_parts ++ [segment])%list
      else text_parts
    else text_parts in
  let result := join (u " ") text_parts in
  let result := re_sub whitespace_re (fun _ => u " ") result in
  strip result.

(** The loop of [_extract_ascii_text], one byte at a time. *)
Fixpoint ascii_loop (data : bytes) (text_parts : list str) (current_text : str)
    : list str * str :=
  match data with
  | [] => (text_parts, current_text)
  | byte :: rest =>
      if readable byte
      then ascii_loop rest text_parts (current_text ++ [byte])
      else if negb (is_nil current_text) then
        let segment := current_text in
        let text_parts :=
          if (5 <=? length segment)%nat then (text_parts ++ [segment])%list
          else text_parts in
        ascii_loop rest text_parts []
      else ascii_loop rest text_parts current_text
  end.

Definition _extract_ascii_text (data : bytes) : str :=
  let '(text_parts, current_text) := ascii_loop data [] [] in
  let text_parts :=
    if negb (is_nil current_text) then
      let segment := current_text in
      if (5 <=? length segment)%nat then (text_parts ++ [segment])%list
      else text_parts
    else text_parts in
  let result := join (u " ") text_parts in
  let result := re_sub whitespace_re (fun _ => u " ") result in
  strip result.

(** Neither scan raises, so the two handlers of [_extract_readable_text]
    are never entered. *)
Definition _extract_readable_text (data : bytes) : str :=
  let text := _decode_text data in
  if negb (is_nil text) && (10 <? length text)%nat then text
  else
    let ascii_text := _extract_ascii_text data in
    if negb (is_nil ascii_text) then ascii_text
    else [].

Definition _extract_text_from_word_document (ole : OleFileIO) (word_data : bytes) : str :=
  let text_parts : list str := [] in
  let text_parts :=
    if exists_ ole "1Table" || exists_ ole "0Table" then
      let table_name := if exists_ ole "1Table" then "1Table"%string else "0Table"%string in
      match openstream ole table_name with
      | Some table_data =>
          let text := _extract_readable_text word_data in
          if negb (is_nil text) then (text_parts ++ [text])%list else text_parts
      | None => text_parts
      end
    else text_parts in
  let text_parts :=
    match text_parts with
    | [] =>
        let text := _extract_readable_text word_data in
        if negb (is_nil text) then (text_parts ++ [text])%list else text_parts
    | _ :: _ => text_parts
    end in
  join [10] text_parts.

(** The loop of [_extract_fallback_text] over the stream names. *)
Fixpoint fallback_loop (ole : OleFileIO) (paths : list string) (all_text : list str)
    : list str :=
  match paths with
  | [] => all_text
  | stream_path :: rest =>
      match openstream ole stream_path with
      | Some data =>
          if (length data <? 100)%nat then fallback_loop ole rest all_text
          else
            let text := _extract_readable_text data in
            if negb (is_nil text) && (20 <? length text)%nat
            then fallback_loop ole rest (all_text ++ [text])
            else fallback_loop ole rest all_text
      | None => fallback_loop ole rest all_text
      end
  end.

Definition _extract_fallback_text (ole : OleFileIO) : str :=
  join [10] (fallback_loop ole (listdir ole) []).

(** *** Reading definitions for the reader *)

(** One left-to-right pass: every run of whitespace becomes one space.
    [after_space] tells whether the previous character is whitespace. *)
Fixpoint blank_rule (after_space : bool) (s : str) : str :=
  match s with
  | [] => []
  | c :: s' =>
      if is_space c
      then if after_space then blank_rule true s' else 32 :: blank_rule true s'
      else c :: blank_rule false s'
  end.

(** A text of printable ASCII in which words are separated by single
    spaces: no other whitespace, no space at either end, no two spaces in a
    row. *)
Definition normal (s : str) : bool :=
  forallb (fun c => (32 <=? c) && (c <=? 126)) s
  && negb (starts_in (Z.eqb 32) s) && negb (starts_in (Z.eqb 32) (rev s))
  && negb (double_space s).

(** The UTF-16LE encoding of a text of the basic plane: the low byte of each
    code unit, then the high byte. *)
Definition utf16le (s : str) : bytes := flat_map (fun c => [c mod 256; c / 256]) s.

(** ** Soundness of the matcher *)

Lemma span_rev b a g w a' g' :
  span (MState b a g) (MState (rev w ++ b) a' g') = w.
Proof.
  unfold span; simpl.
  rewrite length_app, length_rev.
  replace (length w + length b - length b)%nat with (length (rev w)) by (rewrite length_rev; lia).
  rewrite take_app_length. apply rev_involutive.
Qed.

Lemma eat_sound p r :
  (forall b x a g, p x = true -> matches r b [x] a g g) ->
  sound r (eat p).
Proof.
  intros Hm b a g k res H. unfold eat in H; simpl in H.
  destruct a as [|x a']; [discriminate|].
  destruct (p x) eqn:Hp; [|discriminate].
  exists [x], a', g. repeat split; auto.
Qed.

Lemma rep_loop_sound r body :
  sound r body ->
  forall fuel lo hi, sound (Rep lo hi r) (fun st k => rep_loop body fuel lo hi st k).
Proof.
  intros Hb fuel. induction fuel as [|f IH]; intros lo hi b a g k res H.
  - simpl in H. destruct (Nat.eqb lo 0) eqn:Hlo; [|discriminate].
    apply Nat.eqb_eq in Hlo; subst lo.
    exists [], a, g. repeat split; auto. constructor.
  - cbn [rep_loop] in H.
    assert (Hstop : (if Nat.eqb lo 0 then k (MState b a g) else None) = Some res ->
            exists w a' g', a = (w ++ a')%list /\ matches (Rep lo hi r) b w a' g g' /\
                            k (MState (rev w ++ b) a' g') = Some res).
    { intros H0. destruct (Nat.eqb lo 0) eqn:Hlo; [|discriminate].
      apply Nat.eqb_eq in Hlo; subst lo.
      exists [], a, g. repeat split; auto. constructor. }
    assert (Hmore : forall k1,
      k1 = (fun st1 : mstate =>
              if (length (after st1) <? length (after (MState b a g)))%nat
              then rep_loop body f (pred lo) (pred <$> hi) st1 k else None) ->
      body (MState b a g) k1 = Some res ->
      exists w a' g', a = (w ++ a')%list /\ matches (Rep lo hi r) b w a' g g' /\
                      k (MState (rev w ++ b) a' g') = Some res).
    { intros k1 -> H1. apply Hb in H1 as (w1 & a1 & g1 & -> & Hm1 & H1).
      cbn [after] in H1.
      destruct (length a1 <? length (w1 ++ a1))%nat; [|discriminate].
      apply IH in H1 as (w2 & a2 & g2 & -> & Hm2 & H2).
      exists (w1 ++ w2)%list, a2, g2. split; [by rewrite app_assoc|]. split.
      - econstructor; eauto.
      - by rewrite rev_app_distr, <- app_assoc. }
    destruct hi as [[|h]|].
    + auto.
    + match type of H with
      | match ?x with _ => _ end = _ => destruct x eqn:Hx
      end; [|auto].
      inversion H; subst. eapply Hmore; eauto.
    + match type of H with
      | match ?x with _ => _ end = _ => destruct x eqn:Hx
      end; [|auto].
      inversion H; subst. eapply Hmore; eauto.
Qed.

Lemma rmatch_sound r : sound r (rmatch r).
Proof.
  induction r as [c|cs|cl| |r1 IH1 r2 IH2|r1 IH1 r2 IH2|lo hi r IH|n r IH|r IH|r IH].
  - apply eat_sound. intros b x a g Hx. apply Z.eqb_eq in Hx; subst. constructor.
  - apply eat_sound. intros. by constructor.
  - apply eat_sound. intros. by constructor.
  - intros b a g k res H. simpl in H. destruct b; [|discriminate].
    exists [], a, g. repeat split; auto. constructor.
  - intros b a g k res H. simpl in H.
    apply IH1 in H as (w1 & a1 & g1 & -> & Hm1 & H).
    apply IH2 in H as (w2 & a2 & g2 & -> & Hm2 & H).
    exists (w1 ++ w2)%list, a2, g2. split; [by rewrite app_assoc|]. split.
    + econstructor; eauto.
    + by rewrite rev_app_distr, <- app_assoc.
  - intros b a g k res H. simpl in H.
    destruct (rmatch r1 (MState b a g) k) eqn:H1.
    + inversion H; subst. apply IH1 in H1 as (w & a' & g' & -> & Hm & H1).
      exists w, a', g'. repeat split; auto. by apply m_alt_l.
    + apply IH2 in H as (w & a' & g' & -> & Hm & H).
      exists w, a', g'. repeat split; auto. by apply m_alt_r.
  - intros b a g k res H. simpl in H.
    by apply (rep_loop_sound r (rmatch r) IH) in H.
  - intros b a g k res H. simpl in H.
    apply IH in H as (w & a' & g' & -> & Hm & H).
    rewrite span_rev in H.
    exists w, a', ((n, w) :: g'). repeat split; auto. by constructor.
  - intros b a g k res H. simpl in H.
    destruct (rmatch r (MState b a g) Some); [|discriminate].
    exists [], a, g. repeat split; auto. constructor.
  - intros b a g k res H. simpl in H.
    destruct (length b <? width r)%nat; [discriminate|].
    match type of H with
    | match ?x with _ => _ end = _ => destruct x
    end; [|discriminate].
    exists [], a, g. repeat split; auto. constructor.
Qed.

(** Every match found at a position consumes a prefix [w] of the text
    there, and its groups are those of a declarative match of [w]. *)
Lemma match_here_sound r bef s m :
  match_here r bef s = Some m ->
  exists w a' g',
    s = (w ++ a')%list /\ matches r bef w a' [] g' /\
    m = MState (rev w ++ bef) a' ((0%nat, w) :: g').
Proof.
  unfold match_here. intros H.
  apply rmatch_sound in H as (w & a' & g' & -> & Hm & H).
  rewrite span_rev in H. inversion H; subst.
  exists w, a', g'. repeat split; auto.
Qed.

(** ** Substitution keeps what every replacement keeps *)

Lemma sub_scan_keep (f : Z -> bool) r repl :
  (forall bef w a g', matches r bef w a [] g' ->
     List.filter f (repl (MState (rev w ++ bef) a ((0%nat, w) :: g'))) = List.filter f w) ->
  forall s bef skip,
    List.filter f (sub_scan r repl bef s skip) = List.filter f (drop skip s).
Proof.
  intros Hr s. induction s as [|c s' IH]; intros bef skip.
  - simpl. destruct skip; [|done].
    destruct (match_here r bef []) as [m|] eqn:Hm; [|done].
    apply match_here_sound in Hm as (w & a' & g' & Hs & Hm & ->).
    symmetry in Hs. apply app_eq_nil in Hs as [-> ->].
    by rewrite (Hr _ _ _ _ Hm).
  - destruct skip as [|n]; [|simpl; apply IH].
    cbn [sub_scan drop].
    destruct (match_here r bef (c :: s')) as [m|] eqn:Hm.
    + apply match_here_sound in Hm as (w & a' & g' & Hs & Hm & ->).
      unfold match_len; cbn [before].
      rewrite length_app, length_rev.
      replace (length w + length bef - length bef)%nat with (length w) by lia.
      destruct w as [|x w'].
      * simpl in Hs; subst a'. cbn [length].
        rewrite List.filter_app, (Hr _ _ _ _ Hm). cbn [List.filter app].
        by rewrite IH.
      * simpl in Hs; inversion Hs; subst. cbn [length].
        rewrite List.filter_app, (Hr _ _ _ _ Hm), IH.
        rewrite drop_app_length. rewrite <- List.filter_app. done.
    + cbn [List.filter]. by rewrite IH.
Qed.

Lemma re_sub_keep (f : Z -> bool) r repl s :
  (forall bef w a g', matches r bef w a [] g' ->
     List.filter f (repl (MState (rev w ++ bef) a ((0%nat, w) :: g'))) = List.filter f w) ->
  List.filter f (re_sub r repl s) = List.filter f s.
Proof. intros H. unfold re_sub. by rewrite (sub_scan_keep f r repl H). Qed.

Lemma starts_with_take old s :
  starts_with old s = true -> take (length old) s = old.
Proof.
  revert s. induction old as [|a old IH]; intros [|b s] H; simpl in *; try done.
  apply andb_true_iff in H as [Hab H]. apply Z.eqb_eq in Hab; subst.
  by rewrite IH.
Qed.

Lemma replace_scan_keep (f : Z -> bool) a old new :
  List.filter f (a :: old) = [] -> List.filter f new = [] ->
  forall s skip,
    List.filter f (replace_scan (a :: old) new s skip) = List.filter f (drop skip s).
Proof.
  intros Ho Hn s. induction s as [|c s' IH]; intros skip; [by destruct skip|].
  destruct skip as [|n]; [|simpl; apply IH].
  cbn [replace_scan drop].
  destruct (starts_with (a :: old) (c :: s')) eqn:Hs.
  - rewrite List.filter_app, Hn, IH. cbn [app].
    apply starts_with_take in Hs.
    cbn [length take] in Hs. injection Hs as Ha Ht. subst a.
    cbn [length]. rewrite Nat.sub_succ, Nat.sub_0_r.
    cbn [List.filter] in Ho |- *.
    destruct (f c); [discriminate|].
    transitivity (List.filter f (take (length old) s' ++ drop (length old) s')).
    + by rewrite List.filter_app, Ht, Ho.
    + by rewrite take_drop.
  - cbn [List.filter]. by rewrite IH.
Qed.

Lemma str_replace_keep (f : Z -> bool) old new s :
  old <> [] -> List.filter f old = [] -> List.filter f new = [] ->
  List.filter f (str_replace old new s) = List.filter f s.
Proof.
  intros Hne Ho Hn. destruct old as [|a old']; [done|].
  unfold str_replace. by rewrite (replace_scan_keep f _ _ _ Ho Hn).
Qed.

(** ** What a match of each pattern looks like *)

Lemma matches_rep_chars (P : Z -> Prop) r :
  (forall b w a g g', matches r b w a g g' -> g' = g /\ Forall P w) ->
  forall lo hi b w a g g',
    matches (Rep lo hi r) b w a g g' -> g' = g /\ Forall P w.
Proof.
  intros Hr lo hi b w a g g' H.
  remember (Rep lo hi r) as R eqn:HR. revert lo hi HR.
  induction H; intros lo' hi' HR; try discriminate.
  - split; [done | constructor].
  - injection HR as -> -> ->.
    apply Hr in H as [-> Hw1].
    destruct (IHmatches2 _ _ eq_refl) as [-> Hw2].
    split; [done | by apply Forall_app].
Qed.

Lemma matches_rep_cls cl lo hi b w a g g' :
  matches (Rep lo hi (Cls cl)) b w a g g' ->
  g' = g /\ Forall (fun c => in_class cl c = true) w.
Proof.
  apply matches_rep_chars. intros b0 w0 a0 g0 g0' H.
  inversion H; subst. split; [done | by repeat constructor].
Qed.

Lemma matches_rep_lit c lo hi b w a g g' :
  matches (Rep lo hi (Lit c)) b w a g g' ->
  g' = g /\ Forall (fun x => x = c) w.
Proof.
  apply matches_rep_chars. intros b0 w0 a0 g0 g0' H.
  inversion H; subst. split; [done | by repeat constructor].
Qed.

Lemma space_not_special c : is_space c = true -> special c = false.
Proof.
  intros H. unfold special.
  destruct (Z.eqb_spec c 42) as [->|]; [discriminate|].
  destruct (Z.eqb_spec c 47) as [->|]; [discriminate|].
  destruct (Z.eqb_spec c 64) as [->|]; [discriminate|].
  destruct (Z.eqb_spec c 165) as [->|]; [discriminate|]. done.
Qed.

Lemma filter_none (f p : Z -> bool) (w : str) :
  (forall c, p c = true -> f c = false) ->
  Forall (fun c => p c = true) w -> List.filter f w = [].
Proof.
  intros Hp Hw. induction Hw as [|c w Hc _ IH]; [done|].
  simpl. by rewrite (Hp _ Hc).
Qed.

Lemma spaces_not_special (w : str) :
  Forall (fun c => in_class Space c = true) w -> List.filter special w = [].
Proof. apply filter_none, space_not_special. Qed.

Lemma member_not_special (cs : str) x :
  List.filter special cs = [] -> existsb (Z.eqb x) cs = true -> special x = false.
Proof.
  induction cs as [|c cs IH]; simpl; [done|].
  intros Hf Hx. destruct (special c) eqn:Hc; [discriminate|].
  apply orb_true_iff in Hx as [Hx|Hx]; [|by apply IH].
  apply Z.eqb_eq in Hx. by subst.
Qed.

Ltac inv_matches :=
  repeat match goal with
  | H : matches (Seq _ _) _ _ _ _ _ |- _ => inversion H; subst; clear H
  | H : matches (Grp _ _) _ _ _ _ _ |- _ => inversion H; subst; clear H
  | H : matches (Alt _ _) _ _ _ _ _ |- _ => inversion H; subst; clear H
  | H : matches (Lit _) _ _ _ _ _ |- _ => inversion H; subst; clear H
  | H : matches (Set_ _) _ _ _ _ _ |- _ => inversion H; subst; clear H
  | H : matches Bol _ _ _ _ _ |- _ => inversion H; subst; clear H
  | H : matches (Ahead _) _ _ _ _ _ |- _ => inversion H; subst; clear H
  | H : matches (Behind _) _ _ _ _ _ |- _ => inversion H; subst; clear H
  | H : matches (Rep _ _ (Cls _)) _ _ _ _ _ |- _ =>
      apply matches_rep_cls in H as [-> ?]
  | H : matches (Rep _ _ (Lit _)) _ _ _ _ _ |- _ =>
      apply matches_rep_lit in H as [-> ?]
  end.

Lemma filter_single (f : Z -> bool) x : f x = false -> List.filter f [x] = [].
Proof. intros H. simpl. by rewrite H. Qed.

Ltac keep_finish :=
  rewrite ?List.filter_app;
  repeat match goal with
  | H : Forall (fun c => in_class Space c = true) ?w |- _ =>
      rewrite (spaces_not_special w H); clear H
  | H : existsb (Z.eqb ?x) ?cs = true |- _ =>
      rewrite (filter_single special x (member_not_special cs x eq_refl H)); clear H
  | H : List.filter special ?pw = [] |- _ => rewrite H; clear H
  end;
  rewrite ?app_nil_r; try reflexivity.

Lemma keep_numbered pw bef w a g' :
  List.filter special pw = [] ->
  matches numbered_point_re bef w a [] g' ->
  List.filter special
    (replace_numbered_point pw (MState (rev w ++ bef) a ((0%nat, w) :: g')))
  = List.filter special w.
Proof.
  intros Hpw H. unfold numbered_point_re, Star in H. inv_matches.
  all: unfold replace_numbered_point, group; cbn [groups assoc Nat.eqb or_empty fmt].
  all: destruct (decide _); keep_finish.
Qed.

Lemma keep_equals pw bef w a g' :
  List.filter special pw = [] ->
  matches equals_re bef w a [] g' ->
  List.filter special (replace_equals pw (MState (rev w ++ bef) a ((0%nat, w) :: g')))
  = List.filter special w.
Proof.
  intros Hpw H. unfold equals_re, Star, Plus in H. inv_matches.
  unfold replace_equals, group; cbn [groups assoc Nat.eqb fmt]. keep_finish.
Qed.

Lemma keep_standalone_equals pw bef w a g' :
  List.filter special pw = [] ->
  matches standalone_equals_re bef w a [] g' ->
  List.filter special pw = List.filter special w.
Proof.
  intros Hpw H. unfold standalone_equals_re in H. inv_matches. keep_finish.
Qed.

Lemma keep_plus pw bef w a g' :
  List.filter special pw = [] ->
  matches plus_re bef w a [] g' ->
  List.filter special (replace_plus pw (MState (rev w ++ bef) a ((0%nat, w) :: g')))
  = List.filter special w.
Proof.
  intros Hpw H. unfold plus_re, Star, Plus in H. inv_matches.
  unfold replace_plus, group; cbn [groups assoc Nat.eqb fmt]. keep_finish.
Qed.

Lemma keep_percent pw bef w a g' :
  List.filter special pw = [] ->
  matches percent_re bef w a [] g' ->
  List.filter special (replace_percent pw (MState (rev w ++ bef) a ((0%nat, w) :: g')))
  = List.filter special w.
Proof.
  intros Hpw H. unfold percent_re, Plus in H. inv_matches.
  unfold replace_percent, group; cbn [groups assoc Nat.eqb fmt]. keep_finish.
Qed.

Lemma keep_currency sym pw bef w a g' :
  special sym = false ->
  List.filter special pw = [] ->
  matches (currency_re sym) bef w a [] g' ->
  List.filter special (replace_currency pw (MState (rev w ++ bef) a ((0%nat, w) :: g')))
  = List.filter special w.
Proof.
  intros Hsym Hpw H. unfold currency_re in H.
  inversion H; subst; clear H.
  repeat match goal with
  | H : matches (Lit _) _ _ _ _ _ |- _ => inversion H; subst; clear H
  | H : matches (Grp _ _) _ _ _ _ _ |- _ => inversion H; subst; clear H
  end.
  unfold replace_currency, group; cbn [groups assoc Nat.eqb fmt].
  rewrite !List.filter_app, Hpw, (filter_single special sym Hsym), app_nil_r. done.
Qed.

Lemma keep_bullet bef w a g' :
  matches bullet_re bef w a [] g' ->
  List.filter special (template_group1 (MState (rev w ++ bef) a ((0%nat, w) :: g')))
  = List.filter special w.
Proof.
  intros H. unfold bullet_re, Star in H. inv_matches.
  all: unfold template_group1, group; cbn [groups assoc Nat.eqb default]; keep_finish.
Qed.

Lemma keep_ampersand pw bef w a g' :
  List.filter special pw = [] ->
  matches ampersand_re bef w a [] g' ->
  List.filter special pw = List.filter special w.
Proof.
  intros Hpw H. unfold ampersand_re, Plus in H. inv_matches. keep_finish.
Qed.

Lemma keep_number pw bef w a g' :
  List.filter special pw = [] ->
  matches number_re bef w a [] g' ->
  List.filter special (replace_number pw (MState (rev w ++ bef) a ((0%nat, w) :: g')))
  = List.filter special w.
Proof.
  intros Hpw H. unfold number_re, Plus in H. inv_matches.
  unfold replace_number, group; cbn [groups assoc Nat.eqb fmt]. keep_finish.
Qed.

Lemma keep_spaces bef w a g' :
  matches spaces_re bef w a [] g' ->
  List.filter special (u " ") = List.filter special w.
Proof.
  intros H. unfold spaces_re, Plus in H. inv_matches.
  rewrite List.filter_app. cbn.
  match goal with
  | H : Forall _ ?w |- _ => induction H as [|x l -> _ IH]; [done | exact IH]
  end.
Qed.

(** No pattern of the module matches the empty string, so the rule of
    [re.sub] for empty matches never applies in [process]. *)
Lemma module_patterns_consume r bef s m :
  In r module_patterns ->
  match_here r bef s = Some m -> (1 <= match_len bef m)%nat.
Proof.
  intros Hin Hm.
  apply match_here_sound in Hm as (w & a' & g' & -> & Hw & ->).
  unfold match_len; cbn [before]. rewrite length_app, length_rev.
  enough (1 <= length w)%nat by lia.
  unfold module_patterns in Hin. cbn [In] in Hin.
  repeat (destruct Hin as [<-|Hin]);
    [ unfold numbered_point_re, Star in Hw | unfold equals_re, Star, Plus in Hw
    | unfold standalone_equals_re in Hw | unfold plus_re, Star, Plus in Hw
    | unfold percent_re, Plus in Hw
    | unfold currency_re in Hw | unfold currency_re in Hw
    | unfold currency_re in Hw | unfold currency_re in Hw
    | unfold bullet_re, Star in Hw | unfold ampersand_re, Plus in Hw
    | unfold number_re, Plus in Hw | unfold spaces_re, Plus in Hw | done ];
    inv_matches; rewrite ?length_app; cbn [length]; rewrite ?length_app;
    cbn [length]; lia.
Qed.

(** ** The passes keep the four characters *)

Lemma default_clean (m : gmap string str) key d :
  clean_table m -> List.filter special d = [] ->
  List.filter special (default d (m !! key)) = [].
Proof.
  intros Hm Hd. destruct (m !! key) as [v|] eqn:Hv; simpl; [by eapply Hm | done].
Qed.

Ltac keep_sub lem :=
  rewrite re_sub_keep;
  [| intros; eapply lem; eauto; first [apply default_clean; [assumption | reflexivity]
                                     | reflexivity] ].

Ltac keep_replace :=
  rewrite str_replace_keep;
  [| by (intros E; vm_compute in E) | reflexivity
   | apply default_clean; [assumption | reflexivity] ].

Lemma numbered_lists_keep self text :
  clean_table (_current_map self) ->
  List.filter special (_convert_numbered_lists self text) = List.filter special text.
Proof.
  intros Hc. unfold _convert_numbered_lists. cbv zeta.
  keep_sub keep_numbered. done.
Qed.

Lemma math_expressions_keep self text :
  clean_table (_current_map self) ->
  List.filter special (_convert_math_expressions self text) = List.filter special text.
Proof.
  intros Hc. unfold _convert_math_expressions. cbv zeta.
  keep_sub keep_percent. keep_sub keep_plus.
  rewrite re_sub_keep;
    [| intros; cbv beta; eapply keep_standalone_equals; eauto;
       apply default_clean; [assumption | reflexivity] ].
  keep_sub keep_equals.
  do 4 keep_replace. done.
Qed.

Lemma standalone_symbols_keep self text :
  clean_table (_current_map self) ->
  List.filter special (_convert_standalone_symbols self text) = List.filter special text.
Proof.
  intros Hc. unfold _convert_standalone_symbols. cbv zeta.
  do 4 keep_replace.
  keep_sub keep_number.
  rewrite re_sub_keep;
    [| intros; cbv beta; eapply keep_ampersand; eauto;
       apply default_clean; [assumption | reflexivity] ].
  rewrite re_sub_keep; [| intros; by eapply keep_bullet ].
  unfold replace_rubles, replace_pounds, replace_euros, replace_dollars.
  do 4 keep_sub keep_currency. done.
Qed.

Lemma passes_keep self text :
  clean_table (_current_map self) ->
  List.filter special (passes self text) = List.filter special text.
Proof.
  intros Hc. unfold passes.
  rewrite re_sub_keep; [| intros; cbv beta; by eapply keep_spaces ].
  rewrite standalone_symbols_keep, math_expressions_keep, numbered_lists_keep; done.
Qed.

(** ** The built-in tables *)

Lemma language_maps_lookup l m :
  LANGUAGE_MAPS !! l = Some m ->
  (l = "ru"%string /\ m = SYMBOL_MAP_RU) \/ (l = "en"%string /\ m = SYMBOL_MAP_EN).
Proof.
  intros H. apply elem_of_list_to_map_2 in H.
  rewrite !elem_of_cons, elem_of_nil in H.
  destruct H as [H|[H|[]]]; injection H as -> ->; [left | right]; split; reflexivity.
Qed.

Lemma get_symbol_map_builtin lang :
  _get_symbol_map lang = SYMBOL_MAP_EN \/ _get_symbol_map lang = SYMBOL_MAP_RU.
Proof.
  unfold _get_symbol_map. destruct lang as [l|]; [|by left].
  destruct (truthy (Some l)); [|by left].
  destruct (LANGUAGE_MAPS !! l) as [m|] eqn:Hm; [|by left].
  apply language_maps_lookup in Hm as [[_ ->]|[_ ->]]; [right | left]; reflexivity.
Qed.

Lemma symbol_map_en_clean : clean_table SYMBOL_MAP_EN.
Proof.
  intros key v H. apply elem_of_list_to_map_2 in H.
  rewrite !elem_of_cons, elem_of_nil in H.
  repeat (destruct H as [H|H]; [by injection H as -> -> |]). done.
Qed.

Lemma symbol_map_ru_clean : clean_table SYMBOL_MAP_RU.
Proof.
  intros key v H. apply elem_of_list_to_map_2 in H.
  rewrite !elem_of_cons, elem_of_nil in H.
  repeat (destruct H as [H|H]; [by injection H as -> -> |]). done.
Qed.

Lemma get_symbol_map_clean lang : clean_table (_get_symbol_map lang).
Proof.
  destruct (get_symbol_map_builtin lang) as [-> | ->];
    [apply symbol_map_en_clean | apply symbol_map_ru_clean].
Qed.

(** [process] is the passes run with the table of the resolved language. *)
Lemma process_passes self text context :
  process self text context =
    let lang := if negb (truthy (language context))
                then Some (_detect_text_language text) else language context in
    let self' := {| _current_map := _get_symbol_map lang |} in
    (passes self' text, self').
Proof. reflexivity. Qed.

Lemma passes_ignore_unused (cm : gmap string str) (a b c d : str) text :
  passes {| _current_map :=
              <["times"%string := a]> (<["divided_by"%string := b]>
                (<["at"%string := c]> (<["yen"%string := d]> cm))) |} text
  = passes {| _current_map := cm |} text.
Proof.
  unfold passes, _convert_standalone_symbols, _convert_math_expressions,
    _convert_numbered_lists.
  cbn [_current_map]. by rewrite !lookup_insert_ne.
Qed.

(** ** Greedy repetition of a character class *)

Lemma munch_le p s : (munch p s <= length s)%nat.
Proof. induction s as [|c s IH]; simpl; [lia|]. destruct (p c); simpl; lia. Qed.

Lemma rep_loop_cls p body :
  (forall st k, body st k = eat p st k) ->
  forall fuel lo hi b a g k,
    (length a <= fuel)%nat ->
    rep_loop body fuel lo hi (MState b a g) k = rep_cls p lo hi b a g k.
Proof.
  intros Hb fuel. induction fuel as [|f IH]; intros lo hi b a g k Hlen.
  - destruct a; [|simpl in Hlen; lia]. reflexivity.
  - cbn [rep_loop]. rewrite Hb. unfold eat. cbn [after].
    destruct a as [|c a']; [by destruct hi as [[|h]|] |].
    cbn [rep_cls]. destruct hi as [[|h]|]; [done| |].
    + destruct (p c); [|done]. unfold advance; cbn [after before groups length].
      replace (length a' <? S (length a'))%nat with true
        by (symmetry; apply Nat.ltb_lt; lia).
      rewrite IH by (simpl in Hlen; lia). done.
    + destruct (p c); [|done]. unfold advance; cbn [after before groups length].
      replace (length a' <? S (length a'))%nat with true
        by (symmetry; apply Nat.ltb_lt; lia).
      rewrite IH by (simpl in Hlen; lia). done.
Qed.

Lemma rep_cls_short p lo hi b a g k :
  (munch p a < lo)%nat -> rep_cls p lo hi b a g k = None.
Proof.
  revert lo hi b. induction a as [|c a' IH]; intros lo hi b Hn; simpl in *.
  - destruct lo; [lia | done].
  - destruct (p c) eqn:Hp.
    + destruct lo as [|lo']; [lia|]. cbn [Nat.eqb].
      destruct hi as [[|h]|]; [done| |]; by rewrite IH by (simpl; lia).
    + destruct lo as [|lo']; [lia|]. cbn [Nat.eqb]. by destruct hi as [[|h]|].
Qed.

Lemma rep_cls_greedy p lo b a g k res :
  (lo <= munch p a)%nat ->
  k (MState (rev (take (munch p a) a) ++ b) (drop (munch p a) a) g) = Some res ->
  rep_cls p lo None b a g k = Some res.
Proof.
  revert lo b. induction a as [|c a' IH]; intros lo b Hlo Hk; simpl in *.
  - destruct lo; [done | lia].
  - destruct (p c) eqn:Hp.
    + cbn [take drop rev] in Hk. rewrite <- app_assoc in Hk.
      by rewrite (IH (pred lo) (c :: b)) by (done || lia).
    + destruct lo; [done | lia].
Qed.

(** When what follows the repetition cannot start with a character of
    the class, only the longest run can be the match. *)
Lemma rep_cls_reject p lo hi b a g k :
  (forall b' c a' g', p c = true -> k (MState b' (c :: a') g') = None) ->
  rep_cls p lo hi b a g k =
    if (lo <=? munch p a)%nat && within hi (munch p a)
    then k (MState (rev (take (munch p a) a) ++ b) (drop (munch p a) a) g)
    else None.
Proof.
  intros Hk. revert lo hi b. induction a as [|c a' IH]; intros lo hi b.
  - simpl. destruct lo; simpl; [|done]. by destruct hi.
  - cbn [rep_cls munch]. destruct (p c) eqn:Hp.
    + assert (Hhere : (if Nat.eqb lo 0 then k (MState b (c :: a') g) else None) = None).
      { destruct (Nat.eqb lo 0); [by apply Hk | done]. }
      rewrite Hhere.
      destruct hi as [[|h]|].
      * simpl. by rewrite andb_false_r.
      * rewrite IH. cbn [take drop rev within fmap option_fmap option_map pred].
        rewrite <- app_assoc. cbn [app].
        replace (lo <=? S (munch p a'))%nat with (pred lo <=? munch p a')%nat
          by (destruct lo; simpl; [by destruct (munch p a') | done]).
        change (S (munch p a') <=? S h)%nat with (munch p a' <=? h)%nat.
        destruct (_ && _); [|done]. by match goal with |- context [k ?x] => destruct (k x) end.
      * rewrite IH. cbn [take drop rev within fmap option_fmap option_map].
        rewrite <- app_assoc. cbn [app].
        replace (lo <=? S (munch p a'))%nat with (pred lo <=? munch p a')%nat
          by (destruct lo; simpl; [by destruct (munch p a') | done]).
        destruct (_ && _); [|done]. by match goal with |- context [k ?x] => destruct (k x) end.
    + cbn [take drop rev app].
      destruct hi as [[|h]|]; destruct lo; simpl; done.
Qed.

(** ** The clean-up of spaces *)

Lemma spaces_match_none bef s :
  (forall s1, s = 32 :: s1 -> munch (Z.eqb 32) s1 = O) ->
  match_here spaces_re bef s = None.
Proof.
  intros Hs. unfold match_here, spaces_re, Plus. cbn [rmatch]. unfold eat. cbn [after].
  destruct s as [|c s1]; [done|].
  destruct (Z.eqb_spec 32 c) as [<-|]; [|done].
  unfold advance; cbn [after before groups].
  rewrite (rep_loop_cls (Z.eqb 32) (rmatch (Lit 32)) (fun _ _ => eq_refl)) by (cbn; lia).
  apply rep_cls_short. rewrite (Hs s1 eq_refl). lia.
Qed.

Lemma spaces_match_some bef s1 :
  (1 <= munch (Z.eqb 32) s1)%nat ->
  exists m, match_here spaces_re bef (32 :: s1) = Some m /\
            match_len bef m = S (munch (Z.eqb 32) s1).
Proof.
  intros Hn. unfold match_here, spaces_re, Plus. cbn [rmatch]. unfold eat. cbn [after].
  cbn [Z.eqb Pos.eqb]. unfold advance; cbn [after before groups].
  rewrite (rep_loop_cls (Z.eqb 32) (rmatch (Lit 32)) (fun _ _ => eq_refl)) by (cbn; lia).
  eexists. split; [apply rep_cls_greedy; [done | reflexivity] |].
  unfold match_len, set_group; cbn [before].
  rewrite length_app, length_rev, length_take. cbn [length].
  pose proof (munch_le (Z.eqb 32) s1). lia.
Qed.

Lemma double_space_cons a (out : str) :
  double_space out = false ->
  a <> 32 \/ munch (Z.eqb 32) out = O ->
  double_space (a :: out) = false.
Proof.
  intros Hd Ha. cbn [double_space]. destruct out as [|b out']; [done|].
  rewrite Hd, orb_false_r. destruct Ha as [Ha|Hb].
  - apply Z.eqb_neq in Ha. by rewrite Ha.
  - cbn [munch] in Hb. destruct (Z.eqb_spec 32 b); [done|].
    replace (b =? 32) with false by (symmetry; apply Z.eqb_neq; congruence).
    apply andb_false_r.
Qed.

Lemma collapse_scan s :
  forall bef skip,
    skip = O \/ skip = munch (Z.eqb 32) s ->
    let out := sub_scan spaces_re (fun _ => u " ") bef s skip in
    double_space out = false /\
    ((0 < skip)%nat \/ munch (Z.eqb 32) s = O -> munch (Z.eqb 32) out = O).
Proof.
  induction s as [|c s' IH]; intros bef skip Hinv; cbv zeta.
  - cbn [sub_scan]. destruct skip; [|done].
    by rewrite spaces_match_none by done.
  - destruct skip as [|n].
    + cbn [sub_scan].
      destruct (Z.eqb_spec 32 c) as [<-|Hc].
      * destruct (munch (Z.eqb 32) s') as [|n] eqn:Hn.
        -- rewrite spaces_match_none by (by intros s1 [= <-]).
           destruct (IH (32 :: bef) O (or_introl eq_refl)) as [Hd Hh].
           split.
           ++ apply double_space_cons; [done|]. right. apply Hh. by right.
           ++ intros [?|Hm]; [lia|]. cbn [munch] in Hm. done.
        -- destruct (spaces_match_some bef s') as (m & -> & ->); [lia|].
           rewrite Hn.
           destruct (IH (32 :: bef) (S n)) as [Hd Hh]; [by right|].
           split.
           ++ change (u " ") with [32]. cbn [app].
              apply double_space_cons; [done|]. right. apply Hh. left; lia.
           ++ intros [?|Hm]; [lia|]. cbn [munch] in Hm. done.
      * rewrite spaces_match_none by (intros s1 [= -> _]; done).
        destruct (IH (c :: bef) O (or_introl eq_refl)) as [Hd Hh].
        split.
        -- apply double_space_cons; [done|]. left. congruence.
        -- intros _. cbn [munch]. by destruct (Z.eqb_spec 32 c).
    + destruct Hinv as [|Hinv]; [done|].
      cbn [sub_scan]. cbn [munch] in Hinv.
      destruct (Z.eqb_spec 32 c) as [<-|]; [|done].
      injection Hinv as ->.
      destruct (IH (32 :: bef) (munch (Z.eqb 32) s')) as [Hd Hh]; [by right|].
      split; [done|]. intros _. apply Hh.
      destruct (munch (Z.eqb 32) s'); [by right | left; lia].
Qed.

Lemma double_space_spec (s : str) :
  double_space s = false -> forall l r, s <> (l ++ [32; 32] ++ r)%list.
Proof.
  intros Hd l. revert s Hd. induction l as [|x l IH]; intros s Hd r Hs; subst s.
  - simpl in Hd. done.
  - cbn [app double_space] in Hd.
    destruct (l ++ 32 :: 32 :: r)%list as [|b t] eqn:Ht; [by destruct l|].
    apply orb_false_iff in Hd as [_ Hd].
    rewrite <- Ht in Hd. by eapply IH.
Qed.

Lemma passes_no_double_space self text : double_space (passes self text) = false.
Proof.
  unfold passes, re_sub.
  by destruct (collapse_scan
                 (_convert_standalone_symbols self
                    (_convert_math_expressions self
                       (_convert_numbered_lists self text))) [] O (or_introl eq_refl)).
Qed.

(** ** The currency rule *)




Lemma rep_cls_total p lo b a g k :
  (forall st, k st <> None) ->
  (lo <= munch p a)%nat ->
  rep_cls p lo None b a g k =
    k (MState (rev (take (munch p a) a) ++ b) (drop (munch p a) a) g).
Proof.
  intros Hk Hlo.
  destruct (k (MState (rev (take (munch p a) a) ++ b) (drop (munch p a) a) g)) eqn:Hr.
  - by apply rep_cls_greedy.
  - by apply Hk in Hr.
Qed.


Lemma span_eq st0 st1 w :
  before st1 = (rev w ++ before st0)%list -> span st0 st1 = w.
Proof.
  destruct st0 as [b0 a0 g0], st1 as [b1 a1 g1]. cbn [before].
  intros ->. apply span_rev.
Qed.




(** ** The equation rule *)

Ltac bool_to_prop H :=
  repeat first
    [ rewrite orb_true_iff in H | rewrite andb_true_iff in H
    | rewrite Z.leb_le in H | rewrite Z.eqb_eq in H | rewrite Z.ltb_lt in H ].

Lemma word_not_space c : is_word c = true -> is_space c = false.
Proof.
  unfold is_word. destruct (Z.ltb_spec c 128) as [Hlt|Hge].
  - intros Hw. apply not_true_is_false. intros Hs.
    unfold ascii_word, ascii_digit in Hw. unfold is_space in Hs.
    bool_to_prop Hw. bool_to_prop Hs. lia.
  - destruct (cyrillic c) eqn:Hcy.
    + intros _. apply not_true_is_false. intros Hs.
      unfold cyrillic in Hcy. unfold is_space in Hs.
      bool_to_prop Hcy. bool_to_prop Hs. lia.
    + by destruct (is_space c).
Qed.

Lemma space_not_word c : is_space c = true -> is_word c = false.
Proof.
  intros Hs. destruct (is_word c) eqn:Hw; [|done].
  apply word_not_space in Hw. congruence.
Qed.

Lemma rep_cls_stuck p lo hi b c a g k :
  p c = false ->
  rep_cls p lo hi b (c :: a) g k =
    if Nat.eqb lo 0 then k (MState b (c :: a) g) else None.
Proof. intros Hp. cbn [rep_cls]. rewrite Hp. by destruct hi as [[|h]|]. Qed.

Lemma equals_match bef s :
  equation_found bef (equation s) (match_here equals_re bef s).
Proof.
  unfold equation. cbv zeta.
  unfold match_here, equals_re, Plus, Star. cbn [rmatch].
  rewrite (rep_loop_cls is_word (rmatch (Cls Word)) (fun _ _ => eq_refl)) by (cbn; lia).
  rewrite rep_cls_reject.
  2:{ intros b' c a' g' Hc. unfold set_group; cbn [before after groups].
      rewrite (rep_loop_cls is_space (rmatch (Cls Space)) (fun _ _ => eq_refl)) by (cbn; lia).
      rewrite rep_cls_stuck by (by apply word_not_space).
      cbn [Nat.eqb]. unfold eat. cbn [after].
      destruct (Z.eqb_spec 61 c) as [<-|]; [discriminate|done]. }
  cbn [within]. rewrite andb_true_r.
  set (n1 := munch is_word s). set (s1 := drop n1 s).
  assert (Hl1 : length (take n1 s) = n1).
  { rewrite length_take. pose proof (munch_le is_word s). lia. }
  destruct (1 <=? n1)%nat eqn:Hn1.
  2:{ destruct (drop _ s1) as [|c s3]; [done|].
      by rewrite andb_false_r. }
  unfold set_group; cbn [after before groups].
  rewrite (rep_loop_cls is_space (rmatch (Cls Space)) (fun _ _ => eq_refl)) by (cbn; lia).
  rewrite rep_cls_reject.
  2:{ intros b' c a' g' Hc. unfold eat. cbn [after].
      destruct (Z.eqb_spec 61 c) as [<-|]; [discriminate|done]. }
  change (0 <=? ?x)%nat with true. cbn [within andb].
  set (n2 := munch is_space s1).
  assert (Hl2 : length (take n2 s1) = n2).
  { rewrite length_take. pose proof (munch_le is_space s1). lia. }
  unfold eat at 1. cbn [after].
  destruct (drop n2 s1) as [|c s3] eqn:Hd; [done|].
  rewrite (Z.eqb_sym 61 c).
  destruct (Z.eqb_spec c 61) as [->|Hc]; [|by cbn [andb]].
  cbn [andb]. unfold advance; cbn [after before groups].
  rewrite (rep_loop_cls is_space (rmatch (Cls Space)) (fun _ _ => eq_refl)) by (cbn; lia).
  rewrite rep_cls_reject.
  2:{ intros b' c a' g' Hc.
      rewrite (rep_loop_cls is_word (rmatch (Cls Word)) (fun _ _ => eq_refl)) by (cbn; lia).
      apply rep_cls_short. cbn [munch]. rewrite (space_not_word c Hc). lia. }
  change (0 <=? ?x)%nat with true. cbn [within andb].
  set (n3 := munch is_space s3). set (s4 := drop n3 s3).
  assert (Hl3 : length (take n3 s3) = n3).
  { rewrite length_take. pose proof (munch_le is_space s3). lia. }
  rewrite (rep_loop_cls is_word (rmatch (Cls Word)) (fun _ _ => eq_refl)) by (cbn; lia).
  set (n4 := munch is_word s4).
  assert (Hl4 : length (take n4 s4) = n4).
  { rewrite length_take. pose proof (munch_le is_word s4). lia. }
  destruct (1 <=? n4)%nat eqn:Hn4.
  2:{ rewrite rep_cls_short; [done|]. apply Nat.leb_gt in Hn4. fold n4. lia. }
  rewrite rep_cls_total; [|done|by apply Nat.leb_le].
  fold n4. cbn [andb].
  unfold equation_found, match_len, set_group, group; cbn [before groups assoc Nat.eqb].
  apply Nat.leb_le in Hn1.
  split; [|split; [lia|split]].
  - rewrite !length_app, !length_rev. cbn [length].
    rewrite !length_app, !length_rev. lia.
  - f_equal. by apply span_eq.
  - f_equal. by apply span_eq.
Qed.

(** The equation substitution is the equation rule. *)
Lemma equals_scan word s :
  forall bef skip,
    sub_scan equals_re (replace_equals word) bef s skip = equals_rule word s skip.
Proof.
  induction s as [|c s' IH]; intros bef skip.
  - cbn [sub_scan equals_rule]. destruct skip; [|done].
    pose proof (equals_match bef []) as H. unfold equation_found in H.
    by destruct (match_here equals_re bef []).
  - destruct skip as [|n]; [|cbn [sub_scan equals_rule]; apply IH].
    cbn [sub_scan equals_rule].
    pose proof (equals_match bef (c :: s')) as H. unfold equation_found in H.
    destruct (equation (c :: s')) as [[[l r] len]|],
      (match_here equals_re bef (c :: s')) as [m|]; try done.
    + destruct H as (-> & Hlen & H1 & H2).
      destruct len as [|n]; [lia|].
      unfold replace_equals. rewrite H1, H2. cbn [fmt].
      rewrite IH. cbn [Nat.sub]. rewrite Nat.sub_0_r.
      by rewrite <- !app_assoc.
    + by rewrite IH.
Qed.

(** ** The list-marker rule *)

Lemma digit_not_separator c :
  is_digit c = true -> existsb (Z.eqb c) (u ".)") = false.
Proof.
  intros Hc. change (u ".)") with [46; 41]. cbn [existsb].
  destruct (Z.eqb_spec c 46) as [->|]; [discriminate|].
  destruct (Z.eqb_spec c 41) as [->|]; [discriminate|]. done.
Qed.

Lemma marker_tail b a g kf :
  (forall st, kf st <> None) ->
  rmatch (Grp 2 (Rep 1 (Some 3%nat) (Cls Digit)) ;;; Grp 3 (Set_ (u ".)")) ;;;
          Grp 4 (Star (Cls Space))) (MState b a g) kf =
    match marker a with
    | Some (ds, sep, ws) =>
        kf (MState (rev ws ++ sep :: rev ds ++ b)
              (drop (length ws) (drop (S (length ds)) a))
              ((4%nat, ws) :: (3%nat, [sep]) :: (2%nat, ds) :: g))
    | None => None
    end.
Proof.
  intros Hkf. unfold marker, Star. cbv zeta. cbn [rmatch].
  rewrite (rep_loop_cls is_digit (rmatch (Cls Digit)) (fun _ _ => eq_refl)) by (cbn; lia).
  rewrite rep_cls_reject.
  2:{ intros b' c a' g' Hc. unfold set_group; cbn [before after groups].
      unfold eat. cbn [after]. by rewrite digit_not_separator. }
  cbn [within].
  set (n := munch is_digit a).
  assert (Hn : length (take n a) = n).
  { rewrite length_take. pose proof (munch_le is_digit a). lia. }
  destruct ((1 <=? n)%nat && (n <=? 3)%nat); [|done].
  unfold set_group; cbn [before after groups]. rewrite span_rev.
  unfold eat at 1. cbn [after].
  destruct (drop n a) as [|sep rest] eqn:Hd; [done|].
  destruct (existsb (Z.eqb sep) (u ".)")); [|done].
  unfold advance; cbn [after before groups].
  replace (span (MState (rev (take n a) ++ b) (sep :: rest) ((2%nat, take n a) :: g))
             (MState (sep :: rev (take n a) ++ b) rest ((2%nat, take n a) :: g)))
    with [sep] by (symmetry; by apply span_eq).
  rewrite (rep_loop_cls is_space (rmatch (Cls Space)) (fun _ _ => eq_refl)) by (cbn; lia).
  rewrite rep_cls_total; [|intros st; apply Hkf|lia].
  cbn [before after groups].
  replace (span (MState (sep :: rev (take n a) ++ b) rest
                   ((3%nat, [sep]) :: (2%nat, take n a) :: g))
             (MState (rev (take (munch is_space rest) rest) ++ sep :: rev (take n a) ++ b)
                (drop (munch is_space rest) rest)
                ((3%nat, [sep]) :: (2%nat, take n a) :: g)))
    with (take (munch is_space rest) rest) by (symmetry; by apply span_eq).
  rewrite Hn, length_take.
  replace (munch is_space rest `min` length rest)%nat with (munch is_space rest)
    by (pose proof (munch_le is_space rest); lia).
  rewrite <- (Nat.add_1_r n), <- drop_drop, Hd. done.
Qed.

Lemma marker_none_nil : marker [] = None.
Proof. reflexivity. Qed.

Lemma marker_after_newline bef s tail kf :
  (forall st, kf st = Some (set_group 0 (span (MState bef s []) st) st)) ->
  (forall b a g k, (forall st, k st <> None) ->
     rmatch tail (MState b a g) k =
       match marker a with
       | Some (ds, sep, ws) =>
           k (MState (rev ws ++ sep :: rev ds ++ b)
                (drop (length ws) (drop (S (length ds)) a))
                ((4%nat, ws) :: (3%nat, [sep]) :: (2%nat, ds) :: g))
       | None => None
       end) ->
  marker_found bef
    (match s with
     | c :: s' =>
         if c =? 10 then
           match marker s' with
           | Some (ds, sep, ws) => Some ([c], ds, sep, ws)
           | None => None
           end
         else None
     | [] => None
     end)
    (rmatch (Lit 10) (MState bef s [])
       (fun st1 => rmatch tail (set_group 1 (span (MState bef s []) st1) st1) kf)).
Proof.
  intros Hkf Htail. cbn [rmatch]. unfold eat. cbn [after].
  destruct s as [|c s']; [done|].
  rewrite (Z.eqb_sym 10 c). destruct (Z.eqb_spec c 10) as [->|]; [|done].
  unfold advance, set_group; cbn [before after groups].
  rewrite Htail by (intros st; by rewrite Hkf).
  destruct (marker s') as [[[ds sep] ws]|]; [|done].
  rewrite Hkf. unfold marker_found, match_len, set_group, group.
  cbn [before groups assoc Nat.eqb length].
  split.
  { rewrite !length_app, !length_rev. cbn [length]. rewrite !length_app, !length_rev.
    cbn [length]. lia. }
  split; [|done].
  by rewrite (span_eq _ _ [10]).
Qed.

Lemma marker_match bef s :
  marker_found bef (marker_here (is_nil bef) s) (match_here numbered_point_re bef s).
Proof.
  unfold match_here, numbered_point_re.
  remember (Grp 2 (Rep 1 (Some 3%nat) (Cls Digit)) ;;; Grp 3 (Set_ (u ".)")) ;;;
            Grp 4 (Star (Cls Space))) as tail eqn:Ht.
  assert (Htail : forall b a g k, (forall st, k st <> None) ->
     rmatch tail (MState b a g) k =
       match marker a with
       | Some (ds, sep, ws) =>
           k (MState (rev ws ++ sep :: rev ds ++ b)
                (drop (length ws) (drop (S (length ds)) a))
                ((4%nat, ws) :: (3%nat, [sep]) :: (2%nat, ds) :: g))
       | None => None
       end).
  { intros b a g k Hk. subst tail. by apply marker_tail. }
  clear Ht.
  pose proof (marker_after_newline bef s tail
                (fun st1 => Some (set_group 0 (span (MState bef s []) st1) st1))
                (fun _ => eq_refl) Htail) as Hnl.
  cbn [rmatch] in Hnl |- *. unfold marker_here.
  destruct bef as [|x bef']; cbn [is_nil before].
  - unfold set_group at 1; cbn [before after groups].
    rewrite Htail by done.
    destruct (marker s) as [[[ds sep] ws]|]; [|exact Hnl].
    unfold marker_found, match_len, set_group, group.
    cbn [before groups assoc Nat.eqb length].
    split.
    { rewrite !length_app, !length_rev. cbn [length]. rewrite !length_app, !length_rev.
      cbn [length]. lia. }
    split; [|done].
    by rewrite (span_eq _ _ []).
  - exact Hnl.
Qed.

(** The list-marker substitution is the list-marker rule. *)
Lemma numbered_scan pw s :
  forall bef skip,
    sub_scan numbered_point_re (replace_numbered_point pw) bef s skip
    = numbered_rule pw (is_nil bef) s skip.
Proof.
  induction s as [|c s' IH]; intros bef skip.
  - cbn [sub_scan numbered_rule]. destruct skip; [|done].
    pose proof (marker_match bef []) as H. unfold marker_found, marker_here in H.
    rewrite marker_none_nil in H.
    destruct (is_nil bef), (match_here numbered_point_re bef []); done.
  - destruct skip as [|n]; [|cbn [sub_scan numbered_rule]; apply IH].
    cbn [sub_scan numbered_rule].
    pose proof (marker_match bef (c :: s')) as H. unfold marker_found in H.
    destruct (marker_here (is_nil bef) (c :: s')) as [[[[leading ds] sep] ws]|],
      (match_here numbered_point_re bef (c :: s')) as [m|]; try done.
    + destruct H as (-> & H1 & H2 & H3 & H4).
      unfold replace_numbered_point. rewrite H1, H2, H3, H4. cbn [or_empty fmt].
      rewrite IH. cbn [is_nil].
      destruct (Z.eqb_spec sep 46) as [->|Hsep].
      * destruct (decide _) as [_|Hd]; [|done]. by rewrite <- !app_assoc.
      * destruct (decide _) as [Hd|_]; [by injection Hd|]. by rewrite <- !app_assoc.
    + by rewrite IH.
Qed.

(** ** The bullet rule *)

Lemma space_not_bullet c :
  is_space c = true -> existsb (Z.eqb c) (u "•◦▪▸►") = false.
Proof.
  intros Hc. change (u "•◦▪▸►") with [8226; 9702; 9642; 9656; 9658]. cbn [existsb].
  destruct (Z.eqb_spec c 8226) as [->|]; [discriminate|].
  destruct (Z.eqb_spec c 9702) as [->|]; [discriminate|].
  destruct (Z.eqb_spec c 9642) as [->|]; [discriminate|].
  destruct (Z.eqb_spec c 9656) as [->|]; [discriminate|].
  destruct (Z.eqb_spec c 9658) as [->|]; [discriminate|]. done.
Qed.

Lemma bullet_tail b a g kf :
  (forall st, kf st <> None) ->
  rmatch (Star (Cls Space) ;;; Set_ (u "•◦▪▸►") ;;; Star (Cls Space)) (MState b a g) kf =
    match bullet a with
    | Some (ws1, c, ws2) =>
        kf (MState (rev ws2 ++ c :: rev ws1 ++ b)
              (drop (length ws2) (drop (S (length ws1)) a)) g)
    | None => None
    end.
Proof.
  intros Hkf. unfold bullet, Star. cbv zeta. cbn [rmatch].
  rewrite (rep_loop_cls is_space (rmatch (Cls Space)) (fun _ _ => eq_refl)) by (cbn; lia).
  rewrite rep_cls_reject.
  2:{ intros b' c a' g' Hc. unfold eat. cbn [after]. by rewrite space_not_bullet. }
  change (0 <=? ?x)%nat with true. cbn [within andb].
  set (n := munch is_space a).
  assert (Hn : length (take n a) = n).
  { rewrite length_take. pose proof (munch_le is_space a). lia. }
  unfold eat at 1. cbn [after].
  destruct (drop n a) as [|c rest] eqn:Hd; [done|].
  destruct (existsb (Z.eqb c) (u "•◦▪▸►")); [|done].
  unfold advance; cbn [after before groups].
  rewrite (rep_loop_cls is_space (rmatch (Cls Space)) (fun _ _ => eq_refl)) by (cbn; lia).
  rewrite rep_cls_total; [|intros st; apply Hkf|lia].
  rewrite Hn, length_take.
  replace (munch is_space rest `min` length rest)%nat with (munch is_space rest)
    by (pose proof (munch_le is_space rest); lia).
  rewrite <- (Nat.add_1_r n), <- drop_drop, Hd. done.
Qed.

Lemma bullet_none_nil : bullet [] = None.
Proof. reflexivity. Qed.

Lemma bullet_after_newline bef s tail kf :
  (forall st, kf st = Some (set_group 0 (span (MState bef s []) st) st)) ->
  (forall b a g k, (forall st, k st <> None) ->
     rmatch tail (MState b a g) k =
       match bullet a with
       | Some (ws1, c, ws2) =>
           k (MState (rev ws2 ++ c :: rev ws1 ++ b)
                (drop (length ws2) (drop (S (length ws1)) a)) g)
       | None => None
       end) ->
  bullet_found bef
    (match s with
     | c :: s' =>
         if c =? 10 then
           match bullet s' with
           | Some (ws1, g, ws2) => Some ([c], ws1, g, ws2)
           | None => None
           end
         else None
     | [] => None
     end)
    (rmatch (Lit 10) (MState bef s [])
       (fun st1 => rmatch tail (set_group 1 (span (MState bef s []) st1) st1) kf)).
Proof.
  intros Hkf Htail. cbn [rmatch]. unfold eat. cbn [after].
  destruct s as [|c s']; [done|].
  rewrite (Z.eqb_sym 10 c). destruct (Z.eqb_spec c 10) as [->|]; [|done].
  unfold advance, set_group; cbn [before after groups].
  rewrite Htail by (intros st; by rewrite Hkf).
  destruct (bullet s') as [[[ws1 g] ws2]|]; [|done].
  rewrite Hkf. unfold bullet_found, match_len, set_group, group.
  cbn [before groups assoc Nat.eqb length].
  split.
  { rewrite !length_app, !length_rev. cbn [length]. rewrite !length_app, !length_rev.
    cbn [length]. lia. }
  by rewrite (span_eq _ _ [10]).
Qed.

Lemma bullet_match bef s :
  bullet_found bef (bullet_here (is_nil bef) s) (match_here bullet_re bef s).
Proof.
  unfold match_here, bullet_re.
  remember (Star (Cls Space) ;;; Set_ (u "•◦▪▸►") ;;; Star (Cls Space)) as tail eqn:Ht.
  assert (Htail : forall b a g k, (forall st, k st <> None) ->
     rmatch tail (MState b a g) k =
       match bullet a with
       | Some (ws1, c, ws2) =>
           k (MState (rev ws2 ++ c :: rev ws1 ++ b)
                (drop (length ws2) (drop (S (length ws1)) a)) g)
       | None => None
       end).
  { intros b a g k Hk. subst tail. by apply bullet_tail. }
  clear Ht.
  pose proof (bullet_after_newline bef s tail
                (fun st1 => Some (set_group 0 (span (MState bef s []) st1) st1))
                (fun _ => eq_refl) Htail) as Hnl.
  cbn [rmatch] in Hnl |- *. unfold bullet_here.
  destruct bef as [|x bef']; cbn [is_nil before].
  - unfold set_group at 1; cbn [before after groups].
    rewrite Htail by done.
    destruct (bullet s) as [[[ws1 g] ws2]|]; [|exact Hnl].
    unfold bullet_found, match_len, set_group, group.
    cbn [before groups assoc Nat.eqb length].
    split.
    { rewrite !length_app, !length_rev. cbn [length]. rewrite !length_app, !length_rev.
      cbn [length]. lia. }
    by rewrite (span_eq _ _ []).
  - exact Hnl.
Qed.

(** The bullet substitution is the bullet rule. *)
Lemma bullet_scan s :
  forall bef skip,
    sub_scan bullet_re template_group1 bef s skip = bullet_rule (is_nil bef) s skip.
Proof.
  induction s as [|c s' IH]; intros bef skip.
  - cbn [sub_scan bullet_rule]. destruct skip; [|done].
    pose proof (bullet_match bef []) as H. unfold bullet_found, bullet_here in H.
    rewrite bullet_none_nil in H.
    destruct (is_nil bef), (match_here bullet_re bef []); done.
  - destruct skip as [|n]; [|cbn [sub_scan bullet_rule]; apply IH].
    cbn [sub_scan bullet_rule].
    pose proof (bullet_match bef (c :: s')) as H. unfold bullet_found in H.
    destruct (bullet_here (is_nil bef) (c :: s')) as [[[[leading ws1] g] ws2]|],
      (match_here bullet_re bef (c :: s')) as [m|]; try done.
    + destruct H as (-> & H1).
      unfold template_group1. rewrite H1. cbn [default].
      by rewrite IH.
    + by rewrite IH.
Qed.

(** ** The number-sign rule *)

Lemma number_match_none bef s :
  (forall s1, s = 35 :: s1 -> munch is_digit s1 = O) ->
  match_here number_re bef s = None.
Proof.
  intros Hs. unfold match_here, number_re, Plus. cbn [rmatch]. unfold eat at 1.
  cbn [after]. destruct s as [|c s1]; [done|].
  destruct (Z.eqb_spec 35 c) as [<-|]; [|done].
  unfold advance; cbn [after before groups].
  rewrite (rep_loop_cls is_digit (rmatch (Cls Digit)) (fun _ _ => eq_refl)) by (cbn; lia).
  apply rep_cls_short. rewrite (Hs s1 eq_refl). lia.
Qed.

Lemma number_match_some bef s1 :
  (1 <= munch is_digit s1)%nat ->
  exists m, match_here number_re bef (35 :: s1) = Some m /\
            match_len bef m = S (munch is_digit s1) /\
            group m 1 = Some (take (munch is_digit s1) s1).
Proof.
  intros Hn. unfold match_here, number_re, Plus. cbn [rmatch]. unfold eat at 1.
  cbn [after]. cbn [Z.eqb Pos.eqb]. unfold advance; cbn [after before groups].
  rewrite (rep_loop_cls is_digit (rmatch (Cls Digit)) (fun _ _ => eq_refl)) by (cbn; lia).
  rewrite rep_cls_total; [|done|done].
  eexists. split; [reflexivity|].
  unfold match_len, set_group, group; cbn [before groups assoc Nat.eqb].
  split.
  - rewrite length_app, length_rev, length_take. cbn [length].
    pose proof (munch_le is_digit s1). lia.
  - by rewrite span_rev.
Qed.

(** The number-sign substitution is the number-sign rule. *)
Lemma number_scan word s :
  forall bef skip,
    sub_scan number_re (replace_number word) bef s skip = number_rule word s skip.
Proof.
  induction s as [|c s' IH]; intros bef skip.
  - cbn [sub_scan number_rule]. destruct skip; [|done].
    by rewrite number_match_none.
  - destruct skip as [|n]; [|cbn [sub_scan number_rule]; apply IH].
    cbn [sub_scan number_rule].
    destruct (Z.eqb_spec c 35) as [->|Hc]; cbn [andb].
    + destruct (munch is_digit s') as [|n] eqn:Hn.
      * rewrite number_match_none by (by intros s1 [= <-]).
        cbn [Nat.leb]. by rewrite IH.
      * destruct (number_match_some bef s') as (m & -> & -> & Hg); [lia|].
        rewrite Hn in Hg |- *. cbn [Nat.leb].
        unfold replace_number. rewrite Hg. cbn [fmt].
        by rewrite IH, <- app_assoc.
    + rewrite number_match_none by (intros s1 [= -> _]; done).
      by rewrite IH.
Qed.

Lemma number_rule_skip word w rest :
  number_rule word (w ++ rest) (length w) = number_rule word rest 0.
Proof. induction w as [|c w IH]; [done|]. cbn [app length number_rule]. apply IH. Qed.

(** ** The two rules on texts of a known shape *)

Lemma munch_stop p s : starts_in p s = false -> munch p s = O.
Proof. destruct s as [|c s]; simpl; [done|]. by intros ->. Qed.

Lemma munch_app p w rest :
  Forall (fun c => p c = true) w -> starts_in p rest = false ->
  munch p (w ++ rest) = length w.
Proof.
  intros Hw Hr. induction Hw as [|c w Hc _ IH]; simpl.
  - by apply munch_stop.
  - by rewrite Hc, IH.
Qed.


Lemma equals_rule_skip word w rest :
  equals_rule word (w ++ rest) (length w) = equals_rule word rest 0.
Proof. induction w as [|c w IH]; [done|]. cbn [app length equals_rule]. apply IH. Qed.



Lemma not_word_61 : is_word 61 = false.
Proof. reflexivity. Qed.

Lemma starts_spaces_then (p : Z -> bool) (ws : str) c rest :
  Forall (fun x => is_space x = true) ws ->
  (forall x, is_space x = true -> p x = false) -> p c = false ->
  starts_in p (ws ++ c :: rest) = false.
Proof. intros Hws Hp Hc. destruct Hws as [|x ws Hx _]; simpl; auto. Qed.

Lemma equation_shape l ws1 ws2 r rest :
  l <> [] -> r <> [] ->
  Forall (fun c => is_word c = true) l -> Forall (fun c => is_space c = true) ws1 ->
  Forall (fun c => is_space c = true) ws2 -> Forall (fun c => is_word c = true) r ->
  starts_in is_word rest = false ->
  equation (l ++ ws1 ++ 61 :: ws2 ++ r ++ rest) =
    Some (l, r, length (l ++ ws1 ++ 61 :: ws2 ++ r)).
Proof.
  intros Hl Hr Fl F1 F2 Fr Hrest. unfold equation. cbv zeta.
  rewrite (munch_app is_word l) by
    (done || (apply starts_spaces_then; [done | apply space_not_word | apply not_word_61])).
  rewrite drop_app_length, take_app_length.
  rewrite (munch_app is_space ws1 (61 :: ws2 ++ r ++ rest)) by done.
  rewrite drop_app_length.
  assert (Hs : starts_in is_space (r ++ rest) = false).
  { destruct Fr as [|x r' Hx _]; [done|]. simpl. by apply word_not_space. }
  rewrite (munch_app is_space ws2 (r ++ rest)) by done.
  rewrite drop_app_length.
  rewrite (munch_app is_word r rest) by done.
  rewrite take_app_length.
  replace (1 <=? length l)%nat with true
    by (destruct l; [done | reflexivity]).
  replace (1 <=? length r)%nat with true
    by (destruct r; [done | reflexivity]).
  cbn [Z.eqb Pos.eqb andb]. do 2 f_equal.
  rewrite !length_app. cbn [length]. rewrite !length_app. lia.
Qed.

(** ** Two-character operators are gone after their replacement *)

Lemma occurs_cons_pair a b c (out : str) :
  occurs [a; b] (c :: out) = (a =? c) && starts_in (Z.eqb b) out || occurs [a; b] out.
Proof.
  cbn [occurs starts_with]. f_equal. f_equal.
  destruct out as [|y out']; [done|]. cbn [starts_with starts_in]. apply andb_true_r.
Qed.

Lemma occurs_skip_phrase a b (new out : str) :
  Forall (fun x => x <> a) new ->
  occurs [a; b] (new ++ out) = occurs [a; b] out.
Proof.
  intros Hn. induction Hn as [|x new Hx _ IH]; [done|].
  cbn [app]. rewrite occurs_cons_pair, IH.
  replace (a =? x) with false by (symmetry; apply Z.eqb_neq; congruence). done.
Qed.

Lemma safe_self a b s : safe [a; b] a b s.
Proof. induction s as [|c s IH]; cbn [safe]; auto. Qed.

Lemma safe_absent old a b s : occurs [a; b] s = false -> safe old a b s.
Proof.
  induction s as [|c s IH]; intros Ho.
  - cbn [safe]. split; [|done]. intros _. by destruct old.
  - cbn [safe]. cbn [occurs] in Ho. apply orb_false_iff in Ho as [H1 H2].
    split; [by intros _ | by apply IH].
Qed.

Lemma replace_scan_no_pair a b old new :
  new <> [] -> Forall (fun x => x <> a) new -> Forall (fun x => x <> b) new ->
  forall s skip,
    safe old a b s ->
    occurs [a; b] (replace_scan old new s skip) = false /\
    (skip = O -> starts_in (Z.eqb b) (replace_scan old new s skip) = true ->
     starts_in (Z.eqb b) s = true /\ starts_with old s = false).
Proof.
  intros Hne Ha Hb s. induction s as [|c s' IH]; intros skip Hsafe.
  - by destruct skip.
  - cbn [safe] in Hsafe. destruct Hsafe as [Hhere Hsafe].
    destruct skip as [|n].
    + cbn [replace_scan]. destruct (starts_with old (c :: s')) eqn:Hs.
      * destruct (IH (length old - 1)%nat Hsafe) as [Ho _]. split.
        -- by rewrite occurs_skip_phrase.
        -- intros _ Hh. destruct new as [|x new']; [done|].
           cbn [app starts_in] in Hh. apply Z.eqb_eq in Hh.
           by inversion Hb; subst.
      * destruct (IH O Hsafe) as [Ho Hh]. split.
        -- rewrite occurs_cons_pair, Ho, orb_false_r.
           destruct (Z.eqb_spec a c) as [<-|]; [|done]. cbn [andb].
           destruct (starts_in (Z.eqb b) (replace_scan old new s' 0)) eqn:Hb'; [|done].
           destruct (Hh eq_refl eq_refl) as [Hs' _].
           specialize (Hhere eq_refl). cbn [starts_with] in Hhere.
           rewrite Z.eqb_refl in Hhere. cbn [andb] in Hhere.
           destruct s' as [|y s'']; [done|]. cbn [starts_in] in Hs'.
           cbn [starts_with] in Hhere. rewrite Hs' in Hhere. done.
        -- intros _ Hc. cbn [starts_in] in Hc |- *. done.
    + cbn [replace_scan]. destruct (IH n Hsafe) as [Ho _]. split; [done|]. done.
Qed.

Lemma str_replace_no_pair a b old new s :
  old <> [] -> operator_free new = true ->
  existsb (Z.eqb a) (u "><!=") = true -> existsb (Z.eqb b) (u "><!=") = true ->
  safe old a b s ->
  occurs [a; b] (str_replace old new s) = false.
Proof.
  intros Hold Hnew Ha Hb Hsafe. destruct old as [|o old']; [done|].
  unfold str_replace.
  assert (Hall : forall x, existsb (Z.eqb x) (u "><!=") = true ->
                           Forall (fun y => y <> x) new).
  { intros x Hx. unfold operator_free in Hnew.
    destruct new as [|y new']; [done|].
    rewrite forallb_forall in Hnew. apply List.Forall_forall.
    intros z Hz <-. apply Hnew in Hz. by rewrite Hx in Hz. }
  apply replace_scan_no_pair; auto. by destruct new.
Qed.

Lemma builtin_operator_free lang key d :
  operator_free d = true ->
  operator_free (default d (_get_symbol_map lang !! key)) = true.
Proof.
  intros Hd. destruct (_get_symbol_map lang !! key) as [v|] eqn:Hv; [|done].
  cbn [default].
  destruct (get_symbol_map_builtin lang) as [He|He]; rewrite He in Hv;
    apply elem_of_list_to_map_2 in Hv;
    rewrite !elem_of_cons, elem_of_nil in Hv;
    repeat (destruct Hv as [Hv|Hv]; [injection Hv as -> ->; vm_compute; reflexivity |]);
    done.
Qed.

Lemma numbered_rule_skip pw w rest :
  w <> [] ->
  numbered_rule pw false (w ++ rest) (length w) = numbered_rule pw false rest 0.
Proof.
  intros _. induction w as [|c w IH]; [done|].
  cbn [app length numbered_rule]. destruct w as [|c' w']; [done|]. by apply IH.
Qed.

Lemma bullet_rule_skip w rest :
  bullet_rule false (w ++ rest) (length w) = bullet_rule false rest 0.
Proof. induction w as [|c w IH]; [done|]. cbn [app length bullet_rule]. apply IH. Qed.

Lemma marker_shape ds sep ws rest :
  ds <> [] -> (length ds <= 3)%nat -> Forall (fun c => is_digit c = true) ds ->
  existsb (Z.eqb sep) (u ".)") = true ->
  Forall (fun c => is_space c = true) ws -> starts_in is_space rest = false ->
  marker (ds ++ sep :: ws ++ rest) = Some (ds, sep, ws).
Proof.
  intros Hne Hlen Hds Hsep Hws Hrest. unfold marker. cbv zeta.
  assert (Hs : starts_in is_digit (sep :: ws ++ rest) = false).
  { cbn [starts_in]. destruct (is_digit sep) eqn:Hd; [|done].
    apply digit_not_separator in Hd. congruence. }
  rewrite (munch_app is_digit ds _ Hds Hs).
  rewrite drop_app_length, take_app_length, Hsep.
  rewrite (munch_app is_space ws rest Hws Hrest), take_app_length.
  replace (1 <=? length ds)%nat with true by (destruct ds; [done | reflexivity]).
  replace (length ds <=? 3)%nat with true by (symmetry; by apply Nat.leb_le).
  done.
Qed.

Lemma bullet_shape ws1 g ws2 rest :
  Forall (fun c => is_space c = true) ws1 ->
  existsb (Z.eqb g) (u "•◦▪▸►") = true ->
  Forall (fun c => is_space c = true) ws2 -> starts_in is_space rest = false ->
  bullet (ws1 ++ g :: ws2 ++ rest) = Some (ws1, g, ws2).
Proof.
  intros H1 Hg H2 Hrest. unfold bullet. cbv zeta.
  assert (Hs : starts_in is_space (g :: ws2 ++ rest) = false).
  { cbn [starts_in]. destruct (is_space g) eqn:Hd; [|done].
    apply space_not_bullet in Hd. congruence. }
  rewrite (munch_app is_space ws1 _ H1 Hs).
  rewrite drop_app_length, take_app_length, Hg.
  by rewrite (munch_app is_space ws2 rest H2 Hrest), take_app_length.
Qed.

(** ** Which table is selected *)

Lemma language_maps_empty : LANGUAGE_MAPS !! ""%string = None.
Proof.
  destruct (LANGUAGE_MAPS !! ""%string) as [m|] eqn:Hm; [|done].
  by apply language_maps_lookup in Hm as [[? _]|[? _]].
Qed.

Lemma get_symbol_map_default l :
  _get_symbol_map (Some l) = default SYMBOL_MAP_EN (LANGUAGE_MAPS !! l).
Proof.
  unfold _get_symbol_map. destruct l as [|a l']; cbn [truthy].
  - by rewrite language_maps_empty.
  - by destruct (LANGUAGE_MAPS !! String a l').
Qed.

Lemma transform_passes text hint :
  transform text hint =
    passes {| _current_map :=
                _get_symbol_map (if negb (truthy hint)
                                 then Some (_detect_text_language text) else hint) |} text.
Proof. unfold transform. by rewrite process_passes. Qed.

Lemma language_maps_en : LANGUAGE_MAPS !! "en"%string = Some SYMBOL_MAP_EN.
Proof.
  unfold LANGUAGE_MAPS. cbn [list_to_map foldr fst snd].
  rewrite lookup_insert_ne by done. by rewrite lookup_insert_eq.
Qed.

Lemma language_maps_ru : LANGUAGE_MAPS !! "ru"%string = Some SYMBOL_MAP_RU.
Proof.
  unfold LANGUAGE_MAPS. cbn [list_to_map foldr fst snd].
  by rewrite lookup_insert_eq.
Qed.

Lemma transform_en text :
  transform text (Some "en"%string) = passes {| _current_map := SYMBOL_MAP_EN |} text.
Proof.
  rewrite transform_passes. cbn [truthy negb].
  by rewrite get_symbol_map_default, language_maps_en.
Qed.

Lemma transform_ru text :
  transform text (Some "ru"%string) = passes {| _current_map := SYMBOL_MAP_RU |} text.
Proof.
  rewrite transform_passes. cbn [truthy negb].
  by rewrite get_symbol_map_default, language_maps_ru.
Qed.

(** ** The claims *)

(** C2 (as amended). A non-empty hint decides alone: its registry entry is
    the table when it has one, and the English table otherwise, without the
    oracle being asked. Only an empty or missing hint sends the text to the
    oracle, whose answer is looked up in the registry with English as the
    silent fallback. *)
Theorem C2_language_resolution (self : SymbolConverter) (text : str)
    (hint : option string) :
  (forall h, hint = Some h -> h <> ""%string ->
     process self text {| language := hint |} =
       (passes {| _current_map := default SYMBOL_MAP_EN (LANGUAGE_MAPS !! h) |} text,
        {| _current_map := default SYMBOL_MAP_EN (LANGUAGE_MAPS !! h) |}))
  /\ (hint = None \/ hint = Some ""%string ->
      process self text {| language := hint |} =
        (passes {| _current_map :=
                    default SYMBOL_MAP_EN (LANGUAGE_MAPS !! detect_primary_language text) |}
           text,
         {| _current_map :=
              default SYMBOL_MAP_EN (LANGUAGE_MAPS !! detect_primary_language text) |})).
Proof.
  split.
  - intros h -> Hh. rewrite process_passes. cbn [language].
    destruct h as [|a h']; [done|]. cbn [truthy negb].
    cbv zeta. by rewrite get_symbol_map_default.
  - intros Hh. rewrite process_passes. cbn [language].
    assert (Ht : truthy hint = false) by (by destruct Hh as [-> | ->]).
    rewrite Ht. cbn [negb]. cbv zeta. unfold _detect_text_language.
    by rewrite get_symbol_map_default.
Qed.

(** C3. The list pass is the list-marker rule. A marker of one to three
    digits at the start of the text, or after a newline at which the scan
    stands, is rewritten as the claim says: the point word is put before the
    digits of a period marker, a parenthesis marker only has its parenthesis
    turned into a period, and the claim's two examples hold. But a marker at
    the start of a line is passed over when the line before it is a bare
    marker, whose trailing whitespace takes the newline the next marker
    needs: in "1.", newline, "2. b" the second marker keeps its form. *)
Theorem C3_numbered_list_markers :
  (forall (self : SymbolConverter) (text : str),
     _convert_numbered_lists self text =
       numbered_rule (default (u "Point ") (_current_map self !! "point"%string))
         true text 0)
  /\ (forall (pw ds : str) (sep : Z) (ws rest : str),
        ds <> [] -> (length ds <= 3)%nat -> Forall (fun c => is_digit c = true) ds ->
        existsb (Z.eqb sep) (u ".)") = true ->
        Forall (fun c => is_space c = true) ws -> starts_in is_space rest = false ->
        numbered_rule pw true (ds ++ sep :: ws ++ rest) 0
        = ((if sep =? 46 then pw else []) ++ ds ++ u "." ++ ws
             ++ numbered_rule pw false rest 0)%list
        /\ forall at_start,
            numbered_rule pw at_start (10 :: ds ++ sep :: ws ++ rest) 0
            = (10 :: (if sep =? 46 then pw else []) ++ ds ++ u "." ++ ws
                 ++ numbered_rule pw false rest 0)%list)
  /\ transform (u "3. Buy milk") (Some "en"%string) = u "Point 3. Buy milk"
  /\ transform (u "3) Buy milk") (Some "en"%string) = u "3. Buy milk"
  /\ transform (u "3. Buy milk") (Some "ru"%string) = u "Пункт 3. Buy milk"
  /\ transform (u "1." ++ [10] ++ u "2. b") (Some "en"%string)
      = u "Point 1." ++ [10] ++ u "2. b".
Proof.
  split; [|split; [|repeat apply conj; vm_compute; reflexivity]].
  - intros self text. unfold _convert_numbered_lists, re_sub. cbv zeta.
    by rewrite numbered_scan.
  - intros pw ds sep ws rest Hne Hlen Hds Hsep Hws Hrest.
    pose proof (marker_shape ds sep ws rest Hne Hlen Hds Hsep Hws Hrest) as Hm.
    assert (Htail : forall n, n = (length ds + length ws)%nat ->
      numbered_rule pw false (tl ds ++ sep :: ws ++ rest) n
      = numbered_rule pw false rest 0).
    { intros n ->. destruct ds as [|d ds']; [done|]. cbn [tl length].
      replace (ds' ++ sep :: ws ++ rest)%list with ((ds' ++ sep :: ws) ++ rest)%list
        by (by rewrite <- app_assoc).
      replace (S (length ds') + length ws)%nat with (length (ds' ++ sep :: ws))
        by (rewrite length_app; cbn [length]; lia).
      apply numbered_rule_skip. by destruct ds'. }
    split.
    + destruct ds as [|d ds'] eqn:Eds; [done|]. rewrite <- Eds in *.
      assert (Hcons : (ds ++ sep :: ws ++ rest)%list = d :: (tl ds ++ sep :: ws ++ rest)%list)
        by (by rewrite Eds).
      rewrite Hcons. cbn [numbered_rule]. rewrite <- Hcons.
      unfold marker_here. rewrite Hm. cbn [app length].
      by rewrite Htail.
    + intros at_start. cbn [numbered_rule]. unfold marker_here.
      assert (Hno : (if at_start then marker (10 :: ds ++ sep :: ws ++ rest) else None) = None).
      { destruct at_start; [|done]. reflexivity. }
      rewrite Hno. rewrite Z.eqb_refl, Hm. cbn [app length].
      f_equal. do 4 f_equal.
      replace (ds ++ sep :: ws ++ rest)%list with ((ds ++ sep :: ws) ++ rest)%list
        by (by rewrite <- app_assoc).
      replace (1 + length ds + length ws)%nat with (length (ds ++ sep :: ws))
        by (rewrite length_app; cbn [length]; lia).
      apply numbered_rule_skip. by destruct ds.
Qed.

(** C4 (as amended). The number-sign step is the number-sign rule: a
    number sign directly followed by digits becomes the number phrase and
    the digits. For "#42 issue" the space the English phrase starts with
    stays at the start of the result, since the last step only turns runs of
    two or more spaces into one; inside a text it merges with the space
    before it. *)
Theorem C4_number_sign_keeps_leading_space :
  (forall (word text : str),
     re_sub number_re (replace_number word) text = number_rule word text 0)
  /\ (forall (word ds rest : str),
        ds <> [] -> Forall (fun c => is_digit c = true) ds ->
        starts_in is_digit rest = false ->
        number_rule word (35 :: ds ++ rest) 0
        = (word ++ ds ++ number_rule word rest 0)%list)
  /\ transform (u "#42 issue") (Some "en"%string) = u " number 42 issue"
  /\ transform (u "see #42 issue") (Some "en"%string) = u "see number 42 issue".
Proof.
  split; [|split; [|repeat apply conj; vm_compute; reflexivity]].
  - intros word text. apply number_scan.
  - intros word ds rest Hne Hds Hrest. cbn [number_rule].
    rewrite (munch_app is_digit ds rest Hds Hrest).
    replace (1 <=? length ds)%nat with true by (destruct ds; [done | reflexivity]).
    cbn [Z.eqb Pos.eqb andb].
    by rewrite take_app_length, number_rule_skip.
Qed.

Ltac no_pair :=
  apply str_replace_no_pair;
  [ intros E; vm_compute in E; discriminate
  | apply builtin_operator_free; vm_compute; reflexivity
  | vm_compute; reflexivity
  | vm_compute; reflexivity
  | first [ apply safe_self | apply safe_absent; no_pair ] ].

(** C5. In the math pass the four two-character operators are replaced
    first: whatever the text and the language, the text the first rule for a
    single equals sign receives holds none of them, so that rule cannot take
    one apart. For "50 >= 40" in Russian the result holds the Russian phrase,
    not the English one, and neither character of the operator is left. *)
Theorem C5_comparison_operators_first :
  (forall (lang : option string) (text : str),
     exists t1 : str,
       occurs (u ">=") t1 = false /\ occurs (u "<=") t1 = false /\
       occurs (u "!=") t1 = false /\ occurs (u "==") t1 = false /\
       _convert_math_expressions {| _current_map := _get_symbol_map lang |} text =
         re_sub percent_re
           (replace_percent
              (default (u " percent") (_get_symbol_map lang !! "percent"%string)))
           (re_sub plus_re
              (replace_plus (default (u " plus ") (_get_symbol_map lang !! "plus"%string)))
              (re_sub standalone_equals_re
                 (fun _ => default (u " equals ") (_get_symbol_map lang !! "equals"%string))
                 (re_sub equals_re
                    (replace_equals
                       (default (u " equals ") (_get_symbol_map lang !! "equals"%string)))
                    t1))))
  /\ transform (u "50 >= 40") (Some "ru"%string) = u "50 больше или равно 40"
  /\ occurs (u " больше или равно ") (transform (u "50 >= 40") (Some "ru"%string)) = true
  /\ occurs (u "greater than or equal to")
        (transform (u "50 >= 40") (Some "ru"%string)) = false
  /\ occurs (u ">") (transform (u "50 >= 40") (Some "ru"%string)) = false
  /\ occurs (u "=") (transform (u "50 >= 40") (Some "ru"%string)) = false
  /\ transform (u "x>=5 and y<=z, a!=b, c==d") (Some "en"%string)
      = u "x greater than or equal to 5 and y less than or equal to z, a not equal to b, c equals d".
Proof.
  split; [|repeat apply conj; vm_compute; reflexivity].
  intros lang text.
  exists (str_replace (u "==")
            (default (u " equals ") (_get_symbol_map lang !! "equals"%string))
            (str_replace (u "!=")
               (default (u " not equal to ") (_get_symbol_map lang !! "not_equal"%string))
               (str_replace (u "<=")
                  (default (u " less than or equal to ")
                     (_get_symbol_map lang !! "less_or_equal"%string))
                  (str_replace (u ">=")
                     (default (u " greater than or equal to ")
                        (_get_symbol_map lang !! "greater_or_equal"%string))
                     text)))).
  change (u ">=") with [62; 61]. change (u "<=") with [60; 61].
  change (u "!=") with [33; 61]. change (u "==") with [61; 61].
  split; [no_pair|]. split; [no_pair|]. split; [no_pair|]. split; [no_pair|].
  reflexivity.
Qed.

(** C6 (as amended). The equation step of the math pass is the equation
    rule: scanning left to right, a run of word characters, optional
    whitespace, the equals sign, optional whitespace and a run of word
    characters are replaced by the left run, the equals phrase and the right
    run, and the scan goes on after the right run. So the occurrences that
    are replaced are those of the scan, which do not overlap: an equation
    whose left operand is the right operand of the match before it is
    passed over, and in "a=b=c" the equation "b=c" stays. In particular
    "x = 5" becomes "x equals 5". *)
Theorem C6_equation_rewriting :
  (forall (word text : str),
     re_sub equals_re (replace_equals word) text = equals_rule word text 0)
  /\ (forall (word l ws1 ws2 r rest : str),
        l <> [] -> r <> [] ->
        Forall (fun c => is_word c = true) l ->
        Forall (fun c => is_space c = true) ws1 ->
        Forall (fun c => is_space c = true) ws2 ->
        Forall (fun c => is_word c = true) r ->
        starts_in is_word rest = false ->
        equals_rule word (l ++ ws1 ++ 61 :: ws2 ++ r ++ rest) 0
        = (l ++ word ++ r ++ equals_rule word rest 0)%list)
  /\ transform (u "x = 5") (Some "en"%string) = u "x equals 5"
  /\ transform (u "a=b") (Some "ru"%string) = u "a равно b"
  /\ transform (u "a=b=c") (Some "en"%string) = u "a equals b=c"
  /\ re_search equals_re (transform (u "a=b=c") (Some "en"%string)) = true.
Proof.
  split; [|split; [|repeat apply conj; vm_compute; reflexivity]].
  - intros word text. apply equals_scan.
  - intros word l ws1 ws2 r rest Hl Hr Fl F1 F2 Fr Hrest.
    pose proof (equation_shape l ws1 ws2 r rest Hl Hr Fl F1 F2 Fr Hrest) as He.
    destruct l as [|c l']; [done|].
    cbn [app] in He |- *. cbn [equals_rule]. rewrite He.
    cbn [length Nat.sub]. rewrite Nat.sub_0_r.
    replace (l' ++ ws1 ++ 61 :: ws2 ++ r ++ rest)%list
      with ((l' ++ ws1 ++ 61 :: ws2 ++ r) ++ rest)%list
      by (by rewrite <- !app_assoc; cbn [app]; rewrite <- !app_assoc).
    by rewrite equals_rule_skip.
Qed.


(** C8. Whatever the text and the hint, the result of [transform] holds no
    two spaces in a row. *)
Theorem C8_no_double_space (text : str) (hint : option string) :
  double_space (transform text hint) = false
  /\ (forall l r : str, transform text hint <> (l ++ [32; 32] ++ r)%list).
Proof.
  assert (H : double_space (transform text hint) = false)
    by (rewrite transform_passes; apply passes_no_double_space).
  split; [exact H | by apply double_space_spec].
Qed.

(** C9. For every text and every hint the asterisks, slashes, at signs and
    yen signs of the result are those of the text, in the same order; the
    passes give the same result when the entries [times], [divided_by], [at]
    and [yen] of the table are replaced by any other strings, in particular
    for the two built-in tables; and both built-in tables do define these
    four entries, with non-empty phrases. *)
Theorem C9_unused_symbols_untouched :
  (forall (text : str) (hint : option string),
     List.filter special (transform text hint) = List.filter special text)
  /\ (forall (cm : gmap string str) (a b c d : str) (text : str),
        passes {| _current_map :=
                    <["times"%string := a]> (<["divided_by"%string := b]>
                      (<["at"%string := c]> (<["yen"%string := d]> cm))) |} text
        = passes {| _current_map := cm |} text)
  /\ (forall (a b c d : str) (text : str),
        passes {| _current_map :=
                    <["times"%string := a]> (<["divided_by"%string := b]>
                      (<["at"%string := c]> (<["yen"%string := d]> SYMBOL_MAP_EN))) |} text
        = transform text (Some "en"%string)
        /\ passes {| _current_map :=
                       <["times"%string := a]> (<["divided_by"%string := b]>
                         (<["at"%string := c]> (<["yen"%string := d]> SYMBOL_MAP_RU))) |}
             text
           = transform text (Some "ru"%string))
  /\ (SYMBOL_MAP_EN !! "times"%string = Some (u " times ")
      /\ SYMBOL_MAP_EN !! "divided_by"%string = Some (u " divided by ")
      /\ SYMBOL_MAP_EN !! "at"%string = Some (u " at ")
      /\ SYMBOL_MAP_EN !! "yen"%string = Some (u " yen")
      /\ SYMBOL_MAP_RU !! "times"%string = Some (u " умножить на ")
      /\ SYMBOL_MAP_RU !! "divided_by"%string = Some (u " делить на ")
      /\ SYMBOL_MAP_RU !! "at"%string = Some (u " собака ")
      /\ SYMBOL_MAP_RU !! "yen"%string = Some (u " иен")).
Proof.
  split; [|split; [|split]].
  - intros text hint. rewrite transform_passes.
    apply passes_keep. cbn [_current_map]. apply get_symbol_map_clean.
  - apply passes_ignore_unused.
  - intros a b c d text. rewrite transform_en, transform_ru.
    split; apply passes_ignore_unused.
  - repeat apply conj; vm_compute; reflexivity.
Qed.

(** C10. The bullet step is the bullet rule. A glyph that follows only
    whitespace from the start of the text, or from a newline at which the
    scan stands, is deleted with the whitespace before and after it, newlines
    after it included, so indentation does not protect it. But a glyph at the
    start of a line stays when the glyph before it has taken that line's
    newline as its trailing whitespace: of two bullets with nothing but a
    newline between them only the first is deleted. *)
Theorem C10_bullet_glyphs :
  (forall text : str, re_sub bullet_re template_group1 text = bullet_rule true text 0)
  /\ (forall (ws1 : str) (g : Z) (ws2 rest : str),
        Forall (fun c => is_space c = true) ws1 ->
        existsb (Z.eqb g) (u "•◦▪▸►") = true ->
        Forall (fun c => is_space c = true) ws2 -> starts_in is_space rest = false ->
        bullet_rule true (ws1 ++ g :: ws2 ++ rest) 0 = bullet_rule false rest 0
        /\ bullet_rule false (10 :: ws1 ++ g :: ws2 ++ rest) 0
           = 10 :: bullet_rule false rest 0)
  /\ transform (u "a" ++ [10] ++ u "   •  " ++ [10; 10] ++ u "item") (Some "en"%string)
      = u "a" ++ [10] ++ u "item"
  /\ transform (u "  • item") (Some "en"%string) = u "item"
  /\ transform (u "• item one" ++ [10] ++ u "• item two") (Some "en"%string)
      = u "item one" ++ [10] ++ u "item two"
  /\ transform (u "•" ++ [10] ++ u "• x") (Some "en"%string) = u "• x".
Proof.
  split; [|split; [|repeat apply conj; vm_compute; reflexivity]].
  - intros text. unfold re_sub. by rewrite bullet_scan.
  - intros ws1 g ws2 rest H1 Hg H2 Hrest.
    pose proof (bullet_shape ws1 g ws2 rest H1 Hg H2 Hrest) as Hb.
    assert (Hskip : bullet_rule false ((ws1 ++ g :: ws2) ++ rest)
                      (length (ws1 ++ g :: ws2)) = bullet_rule false rest 0)
      by apply bullet_rule_skip.
    rewrite <- app_assoc in Hskip. cbn [app] in Hskip.
    rewrite length_app in Hskip. cbn [length] in Hskip.
    split.
    + destruct (ws1 ++ g :: ws2 ++ rest)%list as [|c t] eqn:Et; [by destruct ws1|].
      cbn [bullet_rule]. unfold bullet_here. rewrite Hb. cbn [app length].
      rewrite <- Hskip.
      replace (length ws1 + S (length ws2))%nat with (S (0 + length ws1 + length ws2))
        by lia.
      reflexivity.
    + cbn [bullet_rule]. unfold bullet_here. rewrite Z.eqb_refl, Hb. cbn [app length].
      f_equal. rewrite <- Hskip. f_equal. lia.
Qed.

(** ** Further properties of the specification *)

(** Every symbol key has a non-empty phrase in both built-in tables, and
    the registry knows the two codes "en" and "ru" and no other. *)
Theorem phrase_tables_complete :
  forallb (has_phrase SYMBOL_MAP_EN) symbol_keys = true
  /\ forallb (has_phrase SYMBOL_MAP_RU) symbol_keys = true
  /\ LANGUAGE_MAPS !! "en"%string = Some SYMBOL_MAP_EN
  /\ LANGUAGE_MAPS !! "ru"%string = Some SYMBOL_MAP_RU
  /\ (forall l m, LANGUAGE_MAPS !! l = Some m -> l = "ru"%string \/ l = "en"%string).
Proof.
  split; [vm_compute; reflexivity|]. split; [vm_compute; reflexivity|].
  split; [apply language_maps_en|]. split; [apply language_maps_ru|].
  intros l m H. apply language_maps_lookup in H as [[-> _]|[-> _]]; auto.
Qed.

(** The other examples of the specification: a percentage, an equals sign
    without a left operand, the four arrows, the ampersand, a sum, and the
    empty text. *)
Theorem specification_examples :
  transform (u "Score: 85%") (Some "en"%string) = u "Score: 85 percent"
  /\ transform (u "=5") (Some "en"%string) = u "=5"
  /\ transform (u "a → b ← c -> d <- e") (Some "en"%string)
      = u "a arrow b arrow c arrow d arrow e"
  /\ transform (u "salt & pepper") (Some "ru"%string) = u "salt и pepper"
  /\ transform (u "2 + 2 = 4") (Some "en"%string) = u "2 plus 2 equals 4"
  /\ transform [] (Some "en"%string) = [].
Proof. repeat apply conj; vm_compute; reflexivity. Qed.

(** ** Further properties of the code *)

(** Passing over the rest of a match brings the scan to the position
    behind it. *)
Lemma sub_scan_skip r repl w :
  forall bef rest,
    sub_scan r repl bef (w ++ rest) (length w) = sub_scan r repl (rev w ++ bef) rest 0.
Proof.
  induction w as [|c w IH]; intros bef rest; [done|].
  cbn [app length sub_scan rev]. rewrite IH. by rewrite <- app_assoc.
Qed.

Lemma munch_take p s : Forall (fun c => p c = true) (take (munch p s) s).
Proof.
  induction s as [|c s IH]; cbn [munch]; [constructor|].
  destruct (p c) eqn:Hp; cbn [take]; by constructor.
Qed.

Lemma munch_drop p s : starts_in p (drop (munch p s) s) = false.
Proof.
  induction s as [|c s IH]; cbn [munch]; [done|].
  destruct (p c) eqn:Hp; cbn [drop starts_in]; done.
Qed.

Lemma munch_zero p s : munch p s = O -> starts_in p s = false.
Proof. destruct s as [|c s]; cbn; [done|]. by destruct (p c). Qed.

Lemma munch_length_take p s : length (take (munch p s) s) = munch p s.
Proof. rewrite length_take. pose proof (munch_le p s). lia. Qed.

(** *** The clean-up of spaces *)

Lemma spaces_rule_flag s :
  starts_in (Z.eqb 32) s = false -> spaces_rule true s = spaces_rule false s.
Proof.
  destruct s as [|c s]; [done|]. cbn [starts_in spaces_rule].
  rewrite (Z.eqb_sym c 32). by intros ->.
Qed.

Lemma spaces_rule_run w rest :
  Forall (fun c => (32 =? c) = true) w ->
  spaces_rule true (w ++ rest) = spaces_rule true rest.
Proof.
  induction 1 as [|c w Hc _ IH]; [done|].
  cbn [app spaces_rule]. by rewrite (Z.eqb_sym c 32), Hc.
Qed.

Lemma spaces_scan n :
  forall s bef,
    (length s <= n)%nat ->
    sub_scan spaces_re (fun _ => u " ") bef s 0 = spaces_rule false s.
Proof.
  induction n as [|n IH]; intros s bef Hlen.
  - destruct s; [|simpl in Hlen; lia]. cbn [sub_scan].
    by rewrite spaces_match_none.
  - destruct s as [|c s']; [cbn [sub_scan]; by rewrite spaces_match_none|].
    cbn [length] in Hlen. cbn [sub_scan spaces_rule]. rewrite andb_false_r.
    destruct (Z.eqb_spec 32 c) as [<-|Hc].
    + cbn [Z.eqb Pos.eqb].
      destruct (munch (Z.eqb 32) s') as [|k] eqn:Hk.
      * rewrite spaces_match_none by (by intros s1 [= <-]).
        apply munch_zero in Hk.
        rewrite IH by lia. by rewrite spaces_rule_flag.
      * destruct (spaces_match_some bef s') as (m & -> & ->); [lia|].
        rewrite Hk. change (u " ") with [32]. cbn [app]. f_equal.
        pose proof (munch_drop (Z.eqb 32) s') as Hd.
        pose proof (munch_take (Z.eqb 32) s') as Ht.
        pose proof (munch_length_take (Z.eqb 32) s') as Hl.
        rewrite Hk in Hd, Ht, Hl.
        transitivity (sub_scan spaces_re (fun _ => [32])
                        (rev (take (S k) s') ++ 32 :: bef) (drop (S k) s') 0).
        { by rewrite <- sub_scan_skip, take_drop, Hl. }
        change [32] with (u " ").
        rewrite IH by (rewrite length_drop; lia).
        rewrite <- (take_drop (S k) s') at 2.
        rewrite spaces_rule_run by done.
        by rewrite spaces_rule_flag.
    + rewrite spaces_match_none by (intros s1 [= -> _]; done).
      replace (c =? 32) with false by (symmetry; apply Z.eqb_neq; congruence).
      by rewrite IH by lia.
Qed.

Lemma spaces_sub_rule s : re_sub spaces_re (fun _ => u " ") s = spaces_rule false s.
Proof. unfold re_sub. by apply (spaces_scan (length s)). Qed.

Lemma spaces_rule_id s :
  forall flag,
    flag && starts_in (Z.eqb 32) s = false -> double_space s = false ->
    spaces_rule flag s = s.
Proof.
  induction s as [|c s IH]; intros flag Hf Hd; [done|].
  cbn [spaces_rule starts_in] in *. rewrite (Z.eqb_sym c 32), andb_comm, Hf.
  f_equal. cbn [double_space] in Hd. destruct s as [|b s']; [done|].
  apply orb_false_iff in Hd as [Hab Hd].
  apply IH; [|done]. cbn [starts_in].
  rewrite (Z.eqb_sym 32 c), (Z.eqb_sym 32 b). exact Hab.
Qed.

Lemma spaces_rule_filter s :
  forall flag,
    List.filter (fun c => negb (c =? 32)) (spaces_rule flag s)
    = List.filter (fun c => negb (c =? 32)) s.
Proof.
  induction s as [|c s IH]; intros flag; [done|].
  cbn [spaces_rule]. destruct (Z.eqb_spec c 32) as [->|Hc]; cbn [andb].
  - destruct flag; cbn [List.filter Z.eqb Pos.eqb negb]; apply IH.
  - cbn [List.filter]. by rewrite IH.
Qed.

(** The clean-up of spaces is the direct rule: of every run of spaces the
    first is kept and the others are dropped, and no other character
    changes. So a text without two spaces in a row is returned as it is,
    cleaning twice is cleaning once, and the characters other than the space
    are those of the text, in the same order. *)
Theorem spaces_cleanup_rule :
  (forall s : str, re_sub spaces_re (fun _ => u " ") s = spaces_rule false s)
  /\ (forall s : str,
        double_space s = false -> re_sub spaces_re (fun _ => u " ") s = s)
  /\ (forall s : str,
        re_sub spaces_re (fun _ => u " ") (re_sub spaces_re (fun _ => u " ") s)
        = re_sub spaces_re (fun _ => u " ") s)
  /\ (forall s : str,
        List.filter (fun c => negb (c =? 32)) (re_sub spaces_re (fun _ => u " ") s)
        = List.filter (fun c => negb (c =? 32)) s)
  /\ re_sub spaces_re (fun _ => u " ") (u "a   b  " ++ [9; 9] ++ u " c " ++ [10; 10])
     = u "a b " ++ [9; 9] ++ u " c " ++ [10; 10].
Proof.
  split; [exact spaces_sub_rule|].
  assert (Hid : forall s : str,
            double_space s = false -> re_sub spaces_re (fun _ => u " ") s = s).
  { intros s Hd. rewrite spaces_sub_rule. by apply spaces_rule_id. }
  split; [exact Hid|]. split; [|split].
  - intros s. apply Hid. unfold re_sub.
    by destruct (collapse_scan s [] O (or_introl eq_refl)).
  - intros s. rewrite spaces_sub_rule. apply spaces_rule_filter.
  - vm_compute. reflexivity.
Qed.

(** *** The percent rule *)

Lemma digit_not_percent c : is_digit c = true -> (37 =? c) = false.
Proof.
  intros Hc. destruct (Z.eqb_spec 37 c) as [<-|]; [discriminate | done].
Qed.

Lemma percent_match_none bef s :
  (1 <=? munch is_digit s)%nat && starts_in (Z.eqb 37) (drop (munch is_digit s) s) = false ->
  match_here percent_re bef s = None.
Proof.
  intros Hs. unfold match_here, percent_re, Plus. cbn [rmatch].
  rewrite (rep_loop_cls is_digit (rmatch (Cls Digit)) (fun _ _ => eq_refl)) by (cbn; lia).
  rewrite rep_cls_reject.
  2:{ intros b' c a' g' Hc. unfold set_group; cbn [before after groups].
      unfold eat. cbn [after]. by rewrite digit_not_percent. }
  cbn [within]. rewrite andb_true_r.
  destruct (1 <=? munch is_digit s)%nat; [|done]. cbn [andb] in Hs.
  unfold set_group, eat; cbn [before after groups].
  destruct (drop (munch is_digit s) s) as [|c rest]; [done|].
  cbn [starts_in] in Hs. by rewrite Hs.
Qed.

Lemma percent_match_some bef s :
  (1 <=? munch is_digit s)%nat && starts_in (Z.eqb 37) (drop (munch is_digit s) s) = true ->
  exists m, match_here percent_re bef s = Some m /\
            match_len bef m = S (munch is_digit s) /\
            group m 1 = Some (take (munch is_digit s) s).
Proof.
  intros Hs. apply andb_true_iff in Hs as [Hn Hp].
  unfold match_here, percent_re, Plus. cbn [rmatch].
  rewrite (rep_loop_cls is_digit (rmatch (Cls Digit)) (fun _ _ => eq_refl)) by (cbn; lia).
  rewrite rep_cls_reject.
  2:{ intros b' c a' g' Hc. unfold set_group; cbn [before after groups].
      unfold eat. cbn [after]. by rewrite digit_not_percent. }
  cbn [within]. rewrite andb_true_r, Hn.
  unfold set_group, eat; cbn [before after groups].
  destruct (drop (munch is_digit s) s) as [|c rest]; [done|].
  cbn [starts_in] in Hp. rewrite Hp.
  eexists. split; [reflexivity|].
  unfold advance, match_len, group; cbn [before after groups assoc Nat.eqb].
  split.
  - cbn [length]. rewrite length_app, length_rev, munch_length_take. lia.
  - by rewrite span_rev.
Qed.

Lemma percent_rule_flag word f1 f2 s :
  starts_in (Z.eqb 37) s = false -> percent_rule word f1 s = percent_rule word f2 s.
Proof.
  destruct s as [|c s]; [done|]. cbn [starts_in percent_rule].
  rewrite (Z.eqb_sym c 37). by intros ->.
Qed.

Lemma percent_rule_run word ds rest :
  Forall (fun c => is_digit c = true) ds ->
  percent_rule word true (ds ++ 37 :: rest)
  = (ds ++ word ++ percent_rule word false rest)%list.
Proof.
  induction 1 as [|d ds Hd _ IH]; [done|].
  cbn [app percent_rule]. rewrite Hd, IH.
  by rewrite (Z.eqb_sym d 37), (digit_not_percent d Hd).
Qed.

(** The percent substitution is the percent rule. *)
Lemma percent_scan word n :
  forall s bef,
    (length s <= n)%nat ->
    sub_scan percent_re (replace_percent word) bef s 0 = percent_rule word false s.
Proof.
  induction n as [|n IH]; intros s bef Hlen.
  - destruct s; [|simpl in Hlen; lia]. cbn [sub_scan].
    by rewrite percent_match_none.
  - destruct s as [|c s']; [cbn [sub_scan]; by rewrite percent_match_none|].
    cbn [length] in Hlen. cbn [sub_scan percent_rule]. rewrite andb_false_r.
    destruct ((1 <=? munch is_digit (c :: s'))%nat
              && starts_in (Z.eqb 37) (drop (munch is_digit (c :: s')) (c :: s'))) eqn:Hm.
    + destruct (percent_match_some bef (c :: s') Hm) as (m & -> & -> & Hg).
      unfold replace_percent. rewrite Hg. cbn [fmt].
      apply andb_true_iff in Hm as [Hn Hp]. cbn [munch] in *.
      destruct (is_digit c) eqn:Hc; [|done].
      set (k := munch is_digit s') in *. cbn [take drop] in *.
      destruct (drop k s') as [|x rest] eqn:Hd; [done|].
      cbn [starts_in] in Hp. apply Z.eqb_eq in Hp. subst x.
      assert (Hs : s' = ((take k s' ++ [37]) ++ rest)%list).
      { rewrite <- app_assoc. cbn [app]. by rewrite <- Hd, take_drop. }
      assert (Hl : length (take k s' ++ [37]) = S k).
      { rewrite length_app. unfold k. rewrite munch_length_take. cbn [length]. lia. }
      rewrite Hs at 2. rewrite <- Hl, sub_scan_skip.
      rewrite IH by (rewrite Hs in Hlen; rewrite length_app in Hlen; lia).
      rewrite Hs at 2. cbn [app]. f_equal.
      rewrite <- !app_assoc. cbn [app].
      by rewrite percent_rule_run by apply munch_take.
    + rewrite (percent_match_none bef (c :: s') Hm).
      rewrite IH by lia. cbn [app]. f_equal.
      cbn [munch] in Hm. destruct (is_digit c); [|done].
      apply percent_rule_flag.
      destruct s' as [|x s'']; [done|]. cbn [starts_in].
      destruct (Z.eqb_spec 37 x) as [<-|]; [|done].
      cbn [munch] in Hm. change (is_digit 37) with false in Hm.
      cbn [drop starts_in] in Hm. done.
Qed.

(** In the math pass the percent step is the percent rule: a percent sign
    is replaced by the percent phrase exactly when the character directly
    before it is a digit, and nothing else changes; the digits stay where
    they are. A percent sign after a space, or one that starts the text, is
    kept. *)
Theorem percent_step_rule :
  (forall word text : str,
     re_sub percent_re (replace_percent word) text = percent_rule word false text)
  /\ transform (u "50% of 7.5%, 5 % and %") (Some "en"%string)
     = u "50 percent of 7.5 percent, 5 % and %"
  /\ transform (u "100%") (Some "ru"%string) = u "100 процентов".
Proof.
  split; [|repeat apply conj; vm_compute; reflexivity].
  intros word text. unfold re_sub. by apply (percent_scan word (length text)).
Qed.

(** *** The rule for a standalone equals sign *)

Lemma standalone_match bef s :
  match match_here standalone_equals_re bef s with
  | Some m =>
      starts_in is_space bef = true /\ match_len bef m = 1%nat /\
      exists s', s = 61 :: s' /\ starts_in is_space s' = true
  | None =>
      starts_in is_space bef = false \/
      match s with
      | c :: s' => (c =? 61) && starts_in is_space s' = false
      | [] => True
      end
  end.
Proof.
  unfold match_here, standalone_equals_re. cbn [rmatch width Nat.add].
  destruct bef as [|x b]; cbn [length]; [by left|].
  change (S (length b) <? 1)%nat with false. cbn [rewind before after groups].
  unfold eat at 1. cbn [after starts_in in_class].
  destruct (is_space x) eqn:Hx; [|by left].
  unfold advance at 1. cbn [before after groups length]. rewrite Nat.eqb_refl.
  unfold eat at 1. cbn [after].
  destruct s as [|c s']; [by right|].
  rewrite (Z.eqb_sym 61 c).
  destruct (Z.eqb_spec c 61) as [->|Hc]; [|by right].
  unfold advance. cbn [before after groups andb].
  unfold eat. cbn [after in_class].
  destruct s' as [|d s'']; [by right|]. cbn [starts_in].
  destruct (is_space d) eqn:Hd; [|by right].
  change (S (length b) <? 1)%nat with false.
  unfold match_len, set_group; cbn [before length].
  split; [done|]. split; [lia|]. by exists (d :: s'').
Qed.

(** The substitution for a standalone equals sign is the direct rule. *)
Lemma standalone_scan word s :
  forall bef,
    sub_scan standalone_equals_re (fun _ => word) bef s 0
    = standalone_rule word (starts_in is_space bef) s.
Proof.
  induction s as [|c s' IH]; intros bef.
  - cbn [sub_scan standalone_rule].
    pose proof (standalone_match bef []) as H.
    destruct (match_here standalone_equals_re bef []) as [m|]; [|done].
    by destruct H as (_ & _ & s' & Hs & _).
  - cbn [sub_scan standalone_rule].
    pose proof (standalone_match bef (c :: s')) as H.
    destruct (match_here standalone_equals_re bef (c :: s')) as [m|].
    + destruct H as (Hb & -> & s1 & [= -> <-] & Hs).
      rewrite Hb, Hs, IH. done.
    + rewrite IH. cbn [starts_in].
      replace ((c =? 61) && starts_in is_space bef && starts_in is_space s') with false; [done|].
      destruct H as [-> | H]; [by rewrite andb_false_r|].
      rewrite <- andb_assoc, (andb_comm (starts_in is_space bef)), andb_assoc, H. done.
Qed.

Lemma builtin_literal lang key d :
  literal d = true -> literal (default d (_get_symbol_map lang !! key)) = true.
Proof.
  intros Hd. destruct (_get_symbol_map lang !! key) as [v|] eqn:Hv; [|done].
  cbn [default].
  destruct (get_symbol_map_builtin lang) as [He|He]; rewrite He in Hv;
    apply elem_of_list_to_map_2 in Hv;
    rewrite !elem_of_cons, elem_of_nil in Hv;
    repeat (destruct Hv as [Hv|Hv]; [injection Hv as -> ->; vm_compute; reflexivity |]);
    done.
Qed.

(** In the math pass the step for a standalone equals sign is the direct
    rule, for an equals phrase without a backslash, which re.sub inserts as
    it is: an equals sign is replaced by the phrase exactly when the
    characters directly before it and directly after it are whitespace, and
    nothing else changes. The equals phrase of either built-in table, and
    the default phrase, hold no backslash. So an equals sign at the start or
    at the end of the text, or one that touches another character, as in a
    query string, is kept by this step. *)
Theorem standalone_equals_step_rule :
  (forall word text : str,
     literal word = true ->
     re_sub standalone_equals_re (fun _ => word) text = standalone_rule word false text)
  /\ (forall lang : option string,
        literal (default (u " equals ") (_get_symbol_map lang !! "equals"%string)) = true)
  /\ (forall word rest : str, standalone_rule word false (61 :: rest)
        = 61 :: standalone_rule word false rest)
  /\ transform (u "( = ) ?q=1&r= = = end =") (Some "en"%string)
     = u "( equals ) ?q equals 1&r= equals equals end =".
Proof.
  split; [|split; [|split; [|vm_compute; reflexivity]]].
  - intros word text _. unfold re_sub. by rewrite standalone_scan.
  - intros lang. by apply builtin_literal.
  - intros word rest. cbn [standalone_rule]. by rewrite andb_false_r.
Qed.

(** *** The ampersand rule *)

Lemma space_not_ampersand c : is_space c = true -> (38 =? c) = false.
Proof.
  intros Hc. destruct (Z.eqb_spec 38 c) as [<-|]; [discriminate | done].
Qed.

Lemma ampersand_match bef s :
  ampersand_found bef (ampersand s) (match_here ampersand_re bef s).
Proof.
  unfold ampersand. cbv zeta.
  unfold match_here, ampersand_re, Plus. cbn [rmatch].
  rewrite (rep_loop_cls is_space (rmatch (Cls Space)) (fun _ _ => eq_refl)) by (cbn; lia).
  rewrite rep_cls_reject.
  2:{ intros b' c a' g' Hc. unfold eat. cbn [after]. by rewrite space_not_ampersand. }
  cbn [within]. rewrite andb_true_r.
  set (n1 := munch is_space s).
  assert (Hl1 : length (take n1 s) = n1) by apply munch_length_take.
  destruct (1 <=? n1)%nat eqn:Hn1.
  2:{ destruct (drop n1 s) as [|c rest]; [done|]. by rewrite andb_false_r. }
  unfold eat at 1. cbn [after].
  destruct (drop n1 s) as [|c rest] eqn:Hd; [done|].
  rewrite (Z.eqb_sym 38 c).
  destruct (Z.eqb_spec c 38) as [->|Hc]; [|by cbn [andb]].
  cbn [andb]. unfold advance; cbn [after before groups].
  rewrite (rep_loop_cls is_space (rmatch (Cls Space)) (fun _ _ => eq_refl)) by (cbn; lia).
  set (n2 := munch is_space rest).
  assert (Hl2 : length (take n2 rest) = n2) by apply munch_length_take.
  destruct (1 <=? n2)%nat eqn:Hn2.
  2:{ rewrite rep_cls_short; [done|]. apply Nat.leb_gt in Hn2. fold n2. lia. }
  rewrite rep_cls_total; [|done|by apply Nat.leb_le].
  fold n2.
  unfold ampersand_found, match_len, set_group; cbn [before].
  apply Nat.leb_le in Hn1.
  rewrite !length_app, !length_rev. cbn [length].
  rewrite !length_app, !length_rev. lia.
Qed.

(** The ampersand substitution is the ampersand rule. *)
Lemma ampersand_scan word s :
  forall bef skip,
    sub_scan ampersand_re (fun _ => word) bef s skip = ampersand_rule word s skip.
Proof.
  induction s as [|c s' IH]; intros bef skip.
  - cbn [sub_scan ampersand_rule]. destruct skip; [|done].
    pose proof (ampersand_match bef []) as H. unfold ampersand_found in H.
    by destruct (match_here ampersand_re bef []).
  - destruct skip as [|n]; [|cbn [sub_scan ampersand_rule]; apply IH].
    cbn [sub_scan ampersand_rule].
    pose proof (ampersand_match bef (c :: s')) as H. unfold ampersand_found in H.
    destruct (ampersand (c :: s')) as [len|],
      (match_here ampersand_re bef (c :: s')) as [m|]; try done.
    + destruct H as (-> & Hlen).
      destruct len as [|n]; [lia|].
      rewrite IH. cbn [Nat.sub]. by rewrite Nat.sub_0_r.
    + by rewrite IH.
Qed.

Lemma ampersand_rule_skip word w rest :
  ampersand_rule word (w ++ rest) (length w) = ampersand_rule word rest 0.
Proof. induction w as [|c w IH]; [done|]. cbn [app length ampersand_rule]. apply IH. Qed.

Lemma ampersand_shape ws1 ws2 rest :
  ws1 <> [] -> ws2 <> [] ->
  Forall (fun c => is_space c = true) ws1 -> Forall (fun c => is_space c = true) ws2 ->
  starts_in is_space rest = false ->
  ampersand (ws1 ++ 38 :: ws2 ++ rest) = Some (length (ws1 ++ 38 :: ws2)).
Proof.
  intros H1 H2 F1 F2 Hrest. unfold ampersand. cbv zeta.
  rewrite (munch_app is_space ws1 (38 :: ws2 ++ rest)) by done.
  rewrite drop_app_length.
  rewrite (munch_app is_space ws2 rest) by done.
  replace (1 <=? length ws1)%nat with true by (destruct ws1; [done | reflexivity]).
  replace (1 <=? length ws2)%nat with true by (destruct ws2; [done | reflexivity]).
  cbn [Z.eqb Pos.eqb andb]. f_equal.
  rewrite length_app. cbn [length]. lia.
Qed.

(** In the standalone pass the ampersand step is the ampersand rule, for
    an and phrase without a backslash, which re.sub inserts as it is:
    scanning left to right, an ampersand together with all the whitespace
    around it becomes the and phrase when there is whitespace on both sides,
    line breaks included; the scan goes on behind that whitespace. The and
    phrase of either built-in table, and the default phrase, hold no
    backslash. An ampersand the scan stands at has no whitespace before it
    any more and is kept, as is one that touches a neighbour: of two
    ampersands with one space between them only the first is replaced. *)
Theorem ampersand_step_rule :
  (forall word text : str,
     literal word = true ->
     re_sub ampersand_re (fun _ => word) text = ampersand_rule word text 0)
  /\ (forall lang : option string,
        literal (default (u " and ") (_get_symbol_map lang !! "and"%string)) = true)
  /\ (forall word ws1 ws2 rest : str,
        ws1 <> [] -> ws2 <> [] ->
        Forall (fun c => is_space c = true) ws1 ->
        Forall (fun c => is_space c = true) ws2 ->
        starts_in is_space rest = false ->
        ampersand_rule word (ws1 ++ 38 :: ws2 ++ rest) 0
        = (word ++ ampersand_rule word rest 0)%list)
  /\ (forall (word : str) (c : Z) (rest : str),
        is_space c = false ->
        ampersand_rule word (c :: rest) 0 = c :: ampersand_rule word rest 0)
  /\ transform (u "a & & b, R&D, x" ++ [10] ++ u "&" ++ [10] ++ u "y &") (Some "en"%string)
     = u "a and & b, R&D, x and y &".
Proof.
  split; [|split; [|split; [|split; [|vm_compute; reflexivity]]]].
  - intros word text _. apply ampersand_scan.
  - intros lang. by apply builtin_literal.
  - intros word ws1 ws2 rest H1 H2 F1 F2 Hrest.
    pose proof (ampersand_shape ws1 ws2 rest H1 H2 F1 F2 Hrest) as Ha.
    destruct ws1 as [|c ws1']; [done|].
    cbn [app] in Ha |- *. cbn [ampersand_rule]. rewrite Ha.
    cbn [length Nat.sub]. rewrite Nat.sub_0_r. f_equal.
    replace (ws1' ++ 38 :: ws2 ++ rest)%list with ((ws1' ++ 38 :: ws2) ++ rest)%list
      by (by rewrite <- app_assoc).
    apply ampersand_rule_skip.
  - intros word c rest Hc. cbn [ampersand_rule]. unfold ampersand.
    cbn [munch]. rewrite Hc. cbn [drop Nat.leb]. by rewrite andb_false_r.
Qed.

(** *** The plus rule *)

Lemma digit_is_word c : is_digit c = true -> is_word c = true.
Proof.
  unfold is_digit, is_word. destruct (c <? 128).
  - unfold ascii_word. by intros ->.
  - destruct (cyrillic c); [done|]. cbn [orb].
    destruct (is_space c || module_symbol c); [done|]. by intros ->.
Qed.

Lemma digit_not_space c : is_digit c = true -> is_space c = false.
Proof. intros Hc. by apply word_not_space, digit_is_word. Qed.

Lemma space_not_digit c : is_space c = true -> is_digit c = false.
Proof.
  intros Hs. destruct (is_digit c) eqn:Hd; [|done].
  apply digit_not_space in Hd. congruence.
Qed.

Lemma addition_match bef s :
  addition_found bef (addition s) (match_here plus_re bef s).
Proof.
  unfold addition. cbv zeta.
  unfold match_here, plus_re, Plus, Star. cbn [rmatch].
  rewrite (rep_loop_cls is_digit (rmatch (Cls Digit)) (fun _ _ => eq_refl)) by (cbn; lia).
  rewrite rep_cls_reject.
  2:{ intros b' c a' g' Hc. unfold set_group; cbn [before after groups].
      rewrite (rep_loop_cls is_space (rmatch (Cls Space)) (fun _ _ => eq_refl)) by (cbn; lia).
      rewrite rep_cls_stuck by (by apply digit_not_space).
      cbn [Nat.eqb]. unfold eat. cbn [after].
      destruct (Z.eqb_spec 43 c) as [<-|]; [discriminate|done]. }
  cbn [within]. rewrite andb_true_r.
  set (n1 := munch is_digit s). set (s1 := drop n1 s).
  assert (Hl1 : length (take n1 s) = n1) by apply munch_length_take.
  destruct (1 <=? n1)%nat eqn:Hn1.
  2:{ destruct (drop _ s1) as [|c s3]; [done|].
      by rewrite andb_false_r. }
  unfold set_group; cbn [after before groups].
  rewrite (rep_loop_cls is_space (rmatch (Cls Space)) (fun _ _ => eq_refl)) by (cbn; lia).
  rewrite rep_cls_reject.
  2:{ intros b' c a' g' Hc. unfold eat. cbn [after].
      destruct (Z.eqb_spec 43 c) as [<-|]; [discriminate|done]. }
  change (0 <=? ?x)%nat with true. cbn [within andb].
  set (n2 := munch is_space s1).
  assert (Hl2 : length (take n2 s1) = n2) by apply munch_length_take.
  unfold eat at 1. cbn [after].
  destruct (drop n2 s1) as [|c s3] eqn:Hd; [done|].
  rewrite (Z.eqb_sym 43 c).
  destruct (Z.eqb_spec c 43) as [->|Hc]; [|by cbn [andb]].
  cbn [andb]. unfold advance; cbn [after before groups].
  rewrite (rep_loop_cls is_space (rmatch (Cls Space)) (fun _ _ => eq_refl)) by (cbn; lia).
  rewrite rep_cls_reject.
  2:{ intros b' c a' g' Hc.
      rewrite (rep_loop_cls is_digit (rmatch (Cls Digit)) (fun _ _ => eq_refl)) by (cbn; lia).
      apply rep_cls_short. cbn [munch]. rewrite (space_not_digit c Hc). lia. }
  change (0 <=? ?x)%nat with true. cbn [within andb].
  set (n3 := munch is_space s3). set (s4 := drop n3 s3).
  assert (Hl3 : length (take n3 s3) = n3) by apply munch_length_take.
  rewrite (rep_loop_cls is_digit (rmatch (Cls Digit)) (fun _ _ => eq_refl)) by (cbn; lia).
  set (n4 := munch is_digit s4).
  assert (Hl4 : length (take n4 s4) = n4) by apply munch_length_take.
  destruct (1 <=? n4)%nat eqn:Hn4.
  2:{ rewrite rep_cls_short; [done|]. apply Nat.leb_gt in Hn4. fold n4. lia. }
  rewrite rep_cls_total; [|done|by apply Nat.leb_le].
  fold n4. cbn [andb].
  unfold addition_found, match_len, set_group, group; cbn [before groups assoc Nat.eqb].
  apply Nat.leb_le in Hn1.
  split; [|split; [lia|split]].
  - rewrite !length_app, !length_rev. cbn [length].
    rewrite !length_app, !length_rev. lia.
  - f_equal. by apply span_eq.
  - f_equal. by apply span_eq.
Qed.

(** The plus substitution is the plus rule. *)
Lemma plus_scan word s :
  forall bef skip,
    sub_scan plus_re (replace_plus word) bef s skip = plus_rule word s skip.
Proof.
  induction s as [|c s' IH]; intros bef skip.
  - cbn [sub_scan plus_rule]. destruct skip; [|done].
    pose proof (addition_match bef []) as H. unfold addition_found in H.
    by destruct (match_here plus_re bef []).
  - destruct skip as [|n]; [|cbn [sub_scan plus_rule]; apply IH].
    cbn [sub_scan plus_rule].
    pose proof (addition_match bef (c :: s')) as H. unfold addition_found in H.
    destruct (addition (c :: s')) as [[[l r] len]|],
      (match_here plus_re bef (c :: s')) as [m|]; try done.
    + destruct H as (-> & Hlen & H1 & H2).
      destruct len as [|n]; [lia|].
      unfold replace_plus. rewrite H1, H2. cbn [fmt].
      rewrite IH. cbn [Nat.sub]. rewrite Nat.sub_0_r.
      by rewrite <- !app_assoc.
    + by rewrite IH.
Qed.

Lemma plus_rule_skip word w rest :
  plus_rule word (w ++ rest) (length w) = plus_rule word rest 0.
Proof. induction w as [|c w IH]; [done|]. cbn [app length plus_rule]. apply IH. Qed.

Lemma addition_shape l ws1 ws2 r rest :
  l <> [] -> r <> [] ->
  Forall (fun c => is_digit c = true) l -> Forall (fun c => is_space c = true) ws1 ->
  Forall (fun c => is_space c = true) ws2 -> Forall (fun c => is_digit c = true) r ->
  starts_in is_digit rest = false ->
  addition (l ++ ws1 ++ 43 :: ws2 ++ r ++ rest) =
    Some (l, r, length (l ++ ws1 ++ 43 :: ws2 ++ r)).
Proof.
  intros Hl Hr Fl F1 F2 Fr Hrest. unfold addition. cbv zeta.
  rewrite (munch_app is_digit l) by
    (done || (apply starts_spaces_then; [done | apply space_not_digit | reflexivity])).
  rewrite drop_app_length, take_app_length.
  rewrite (munch_app is_space ws1 (43 :: ws2 ++ r ++ rest)) by done.
  rewrite drop_app_length.
  assert (Hs : starts_in is_space (r ++ rest) = false).
  { destruct Fr as [|x r' Hx _]; [done|]. simpl. by apply digit_not_space. }
  rewrite (munch_app is_space ws2 (r ++ rest)) by done.
  rewrite drop_app_length.
  rewrite (munch_app is_digit r rest) by done.
  rewrite take_app_length.
  replace (1 <=? length l)%nat with true
    by (destruct l; [done | reflexivity]).
  replace (1 <=? length r)%nat with true
    by (destruct r; [done | reflexivity]).
  cbn [Z.eqb Pos.eqb andb]. do 2 f_equal.
  rewrite !length_app. cbn [length]. rewrite !length_app. lia.
Qed.

(** In the math pass the plus step is the plus rule: scanning left to
    right, a run of digits, optional whitespace, the plus sign, optional
    whitespace and a run of digits become the left run, the plus phrase and
    the right run, and the scan goes on after the right run. So in a chain
    of sums the right operand of one is not the left operand of the next:
    in "1+2+3" only the first plus sign is replaced. A plus sign the scan
    stands at is kept, as is one between letters. *)
Theorem plus_step_rule :
  (forall word text : str,
     re_sub plus_re (replace_plus word) text = plus_rule word text 0)
  /\ (forall word l ws1 ws2 r rest : str,
        l <> [] -> r <> [] ->
        Forall (fun c => is_digit c = true) l ->
        Forall (fun c => is_space c = true) ws1 ->
        Forall (fun c => is_space c = true) ws2 ->
        Forall (fun c => is_digit c = true) r ->
        starts_in is_digit rest = false ->
        plus_rule word (l ++ ws1 ++ 43 :: ws2 ++ r ++ rest) 0
        = (l ++ word ++ r ++ plus_rule word rest 0)%list)
  /\ (forall (word : str) (c : Z) (rest : str),
        is_digit c = false ->
        plus_rule word (c :: rest) 0 = c :: plus_rule word rest 0)
  /\ transform (u "1+2+3") (Some "en"%string) = u "1 plus 2+3"
  /\ transform (u "C++ a+b 2 +" ++ [10] ++ u "2 +x") (Some "en"%string)
     = u "C++ a+b 2 plus 2 +x".
Proof.
  split; [|split; [|split; [|repeat apply conj; vm_compute; reflexivity]]].
  - intros word text. apply plus_scan.
  - intros word l ws1 ws2 r rest Hl Hr Fl F1 F2 Fr Hrest.
    pose proof (addition_shape l ws1 ws2 r rest Hl Hr Fl F1 F2 Fr Hrest) as He.
    destruct l as [|c l']; [done|].
    cbn [app] in He |- *. cbn [plus_rule]. rewrite He.
    cbn [length Nat.sub]. rewrite Nat.sub_0_r.
    replace (l' ++ ws1 ++ 43 :: ws2 ++ r ++ rest)%list
      with ((l' ++ ws1 ++ 43 :: ws2 ++ r) ++ rest)%list
      by (by rewrite <- !app_assoc; cbn [app]; rewrite <- !app_assoc).
    by rewrite plus_rule_skip.
  - intros word c rest Hc. cbn [plus_rule]. unfold addition.
    cbn [munch]. rewrite Hc. cbn [drop Nat.leb].
    destruct (drop (munch is_space (c :: rest)) (c :: rest)); [done|].
    by rewrite andb_false_r.
Qed.

(** *** No arrow is left *)

Lemma replace_scan_char_gone c new :
  List.filter (Z.eqb c) new = [] ->
  forall s, List.filter (Z.eqb c) (replace_scan [c] new s 0) = [].
Proof.
  intros Hn s. induction s as [|x s IH]; [done|].
  cbn [replace_scan starts_with length Nat.sub]. rewrite andb_true_r.
  destruct (c =? x) eqn:Hx.
  - by rewrite List.filter_app, Hn, IH.
  - cbn [List.filter]. by rewrite Hx, IH.
Qed.

Lemma filter_occurs c s : List.filter (Z.eqb c) s = [] -> occurs [c] s = false.
Proof.
  induction s as [|x s IH]; [done|].
  cbn [List.filter occurs starts_with]. rewrite andb_true_r.
  destruct (c =? x); [done | exact IH].
Qed.

Lemma filter_forall c (w : str) : List.filter (Z.eqb c) w = [] -> Forall (fun x => x <> c) w.
Proof.
  induction w as [|x w IH]; [constructor|].
  cbn [List.filter]. destruct (Z.eqb_spec c x) as [->|Hx]; [done|].
  intros Hw. constructor; [congruence | by apply IH].
Qed.

Lemma spaces_rule_keep (f : Z -> bool) s :
  f 32 = false ->
  forall flag, List.filter f (spaces_rule flag s) = List.filter f s.
Proof.
  intros Hf. induction s as [|c s IH]; intros flag; [done|].
  cbn [spaces_rule]. destruct (Z.eqb_spec c 32) as [->|Hc]; cbn [andb].
  - destruct flag; cbn [List.filter]; rewrite Hf; apply IH.
  - cbn [List.filter]. by rewrite IH.
Qed.

Lemma spaces_rule_start (p : Z -> bool) s :
  starts_in p (spaces_rule false s) = starts_in p s.
Proof. destruct s as [|c s]; [done|]. cbn [spaces_rule]. by rewrite andb_false_r. Qed.

Lemma spaces_rule_no_pair a b s :
  a <> 32 ->
  occurs [a; b] s = false ->
  forall flag, occurs [a; b] (spaces_rule flag s) = false.
Proof.
  intros Ha. induction s as [|c s IH]; intros Ho flag; [done|].
  rewrite occurs_cons_pair in Ho. apply orb_false_iff in Ho as [Hh Ho].
  cbn [spaces_rule]. destruct ((c =? 32) && flag); [by apply IH|].
  rewrite occurs_cons_pair, IH by done. rewrite orb_false_r.
  destruct (Z.eqb_spec a c) as [<-|]; [|done]. cbn [andb] in Hh |- *.
  replace (a =? 32) with false by (symmetry; by apply Z.eqb_neq).
  by rewrite spaces_rule_start.
Qed.

Lemma arrow_word_builtin lang :
  default (u " arrow ") (_get_symbol_map lang !! "arrow"%string) = u " arrow "
  \/ default (u " arrow ") (_get_symbol_map lang !! "arrow"%string) = u " стрелка ".
Proof.
  destruct (get_symbol_map_builtin lang) as [-> | ->]; [left | right];
    vm_compute; reflexivity.
Qed.

Lemma standalone_symbols_no_arrow lang text :
  let out := _convert_standalone_symbols {| _current_map := _get_symbol_map lang |} text in
  List.filter (Z.eqb 8594) out = [] /\ List.filter (Z.eqb 8592) out = [] /\
  occurs [45; 62] out = false /\ occurs [60; 45] out = false.
Proof.
  unfold _convert_standalone_symbols. cbv zeta. cbn [_current_map].
  set (w := default (u " arrow ") (_get_symbol_map lang !! "arrow"%string)).
  match goal with
  | |- context [str_replace (u "→") w ?x] => set (t0 := x)
  end.
  change (u "→") with [8594]. change (u "←") with [8592].
  change (u "->") with [45; 62]. change (u "<-") with [60; 45].
  assert (Hw : w <> [] /\ List.filter (Z.eqb 8594) w = [] /\ List.filter (Z.eqb 8592) w = []
               /\ List.filter (Z.eqb 45) w = [] /\ List.filter (Z.eqb 62) w = []
               /\ List.filter (Z.eqb 60) w = []).
  { destruct (arrow_word_builtin lang) as [Hw|Hw]; fold w in Hw; rewrite Hw;
      (split; [discriminate | repeat apply conj; vm_compute; reflexivity]). }
  destruct Hw as (Hne & H1 & H2 & H3 & H4 & H5).
  set (t1 := str_replace [8594] w t0).
  set (t2 := str_replace [8592] w t1).
  set (t3 := str_replace [45; 62] w t2).
  assert (G1 : List.filter (Z.eqb 8594) t1 = []) by (by apply replace_scan_char_gone).
  assert (G2 : List.filter (Z.eqb 8592) t2 = []) by (by apply replace_scan_char_gone).
  assert (G3 : occurs [45; 62] t3 = false).
  { apply replace_scan_no_pair; [done | by apply filter_forall | by apply filter_forall
                                | apply safe_self]. }
  split; [|split; [|split]].
  - unfold t3, t2. rewrite !str_replace_keep by done. exact G1.
  - unfold t3. rewrite !str_replace_keep by done. exact G2.
  - apply replace_scan_no_pair; [done | by apply filter_forall | by apply filter_forall
                                | by apply safe_absent].
  - apply replace_scan_no_pair; [done | by apply filter_forall | by apply filter_forall
                                | apply safe_self].
Qed.

(** Whatever the text and the hint, the result of [transform] holds neither
    arrow glyph and neither ASCII arrow: each of the four replacements of
    the standalone pass removes every occurrence of its arrow, and neither
    a later replacement nor the clean-up of spaces brings one back. *)
Theorem no_arrow_in_result (text : str) (hint : option string) :
  occurs (u "→") (transform text hint) = false
  /\ occurs (u "←") (transform text hint) = false
  /\ occurs (u "->") (transform text hint) = false
  /\ occurs (u "<-") (transform text hint) = false.
Proof.
  rewrite transform_passes. unfold passes. rewrite spaces_sub_rule.
  cbn [_current_map].
  set (lang := if negb (truthy hint) then Some (_detect_text_language text) else hint).
  destruct (standalone_symbols_no_arrow lang
              (_convert_math_expressions {| _current_map := _get_symbol_map lang |}
                 (_convert_numbered_lists {| _current_map := _get_symbol_map lang |} text)))
    as (H1 & H2 & H3 & H4).
  change (u "→") with [8594]. change (u "←") with [8592].
  change (u "->") with [45; 62]. change (u "<-") with [60; 45].
  split; [|split; [|split]].
  - apply filter_occurs. by rewrite spaces_rule_keep.
  - apply filter_occurs. by rewrite spaces_rule_keep.
  - by apply spaces_rule_no_pair.
  - by apply spaces_rule_no_pair.
Qed.

(** *** Characters every rule keeps *)

Section Kept.

(** A class of characters that holds no whitespace, none of the characters
    the rules name, and no character of a phrase of the table [cm] or of
    the English table. *)
Variable f : Z -> bool.
Variable cm : gmap string str.
Hypothesis f_space : forall c, is_space c = true -> f c = false.
Hypothesis f_symbol :
  forall c, existsb (Z.eqb c) (u ".)=+%#&$€£₽•◦▪▸►→←-<>!") = true -> f c = false.
Hypothesis f_table : forall key v, cm !! key = Some v -> List.filter f v = [].
Hypothesis f_english : forall key v, SYMBOL_MAP_EN !! key = Some v -> List.filter f v = [].

Lemma kept_word (cs : str) :
  forallb (fun c => existsb (Z.eqb c) (u ".)=+%#&$€£₽•◦▪▸►→←-<>!")) cs = true ->
  List.filter f cs = [].
Proof.
  induction cs as [|c cs IH]; [done|]. cbn [forallb List.filter].
  intros H. apply andb_true_iff in H as [Hc H]. by rewrite (f_symbol c Hc), IH.
Qed.

Lemma kept_member (cs : str) x :
  forallb (fun c => existsb (Z.eqb c) (u ".)=+%#&$€£₽•◦▪▸►→←-<>!")) cs = true ->
  existsb (Z.eqb x) cs = true -> List.filter f [x] = [].
Proof.
  intros Hcs Hx. apply filter_single.
  apply existsb_exists in Hx as (c & Hin & Hc). apply Z.eqb_eq in Hc. subst c.
  rewrite forallb_forall in Hcs. by apply f_symbol, Hcs.
Qed.

Lemma kept_spaces (w : str) :
  Forall (fun c => in_class Space c = true) w -> List.filter f w = [].
Proof. apply filter_none, f_space. Qed.

Lemma kept_default key d :
  SYMBOL_MAP_EN !! key = Some d -> List.filter f (default d (cm !! key)) = [].
Proof.
  intros Hd. destruct (cm !! key) as [v|] eqn:Hv; cbn [default];
    [by eapply f_table | by eapply f_english].
Qed.

Ltac kept_finish :=
  rewrite ?List.filter_app;
  repeat match goal with
  | H : Forall (fun c => in_class Space c = true) ?w |- _ =>
      rewrite (kept_spaces w H); clear H
  | H : existsb (Z.eqb ?x) ?cs = true |- _ =>
      rewrite (kept_member cs x eq_refl H); clear H
  | H : List.filter f ?pw = [] |- _ => rewrite H; clear H
  end;
  rewrite ?(kept_word [61] eq_refl), ?(kept_word [43] eq_refl),
    ?(kept_word [37] eq_refl), ?(kept_word [35] eq_refl),
    ?(kept_word [38] eq_refl), ?(kept_word [46] eq_refl);
  rewrite ?app_nil_r; try reflexivity.

Lemma kept_numbered pw bef w a g' :
  List.filter f pw = [] ->
  matches numbered_point_re bef w a [] g' ->
  List.filter f
    (replace_numbered_point pw (MState (rev w ++ bef) a ((0%nat, w) :: g')))
  = List.filter f w.
Proof.
  intros Hpw H. unfold numbered_point_re, Star in H. inv_matches.
  all: unfold replace_numbered_point, group; cbn [groups assoc Nat.eqb or_empty fmt].
  all: change (u ".") with [46].
  all: destruct (decide _); kept_finish.
Qed.

Lemma kept_equals pw bef w a g' :
  List.filter f pw = [] ->
  matches equals_re bef w a [] g' ->
  List.filter f (replace_equals pw (MState (rev w ++ bef) a ((0%nat, w) :: g')))
  = List.filter f w.
Proof.
  intros Hpw H. unfold equals_re, Star, Plus in H. inv_matches.
  unfold replace_equals, group; cbn [groups assoc Nat.eqb fmt]. kept_finish.
Qed.

Lemma kept_standalone_equals pw bef w a g' :
  List.filter f pw = [] ->
  matches standalone_equals_re bef w a [] g' ->
  List.filter f pw = List.filter f w.
Proof.
  intros Hpw H. unfold standalone_equals_re in H. inv_matches. kept_finish.
Qed.

Lemma kept_plus pw bef w a g' :
  List.filter f pw = [] ->
  matches plus_re bef w a [] g' ->
  List.filter f (replace_plus pw (MState (rev w ++ bef) a ((0%nat, w) :: g')))
  = List.filter f w.
Proof.
  intros Hpw H. unfold plus_re, Star, Plus in H. inv_matches.
  unfold replace_plus, group; cbn [groups assoc Nat.eqb fmt]. kept_finish.
Qed.

Lemma kept_percent pw bef w a g' :
  List.filter f pw = [] ->
  matches percent_re bef w a [] g' ->
  List.filter f (replace_percent pw (MState (rev w ++ bef) a ((0%nat, w) :: g')))
  = List.filter f w.
Proof.
  intros Hpw H. unfold percent_re, Plus in H. inv_matches.
  unfold replace_percent, group; cbn [groups assoc Nat.eqb fmt]. kept_finish.
Qed.

Lemma kept_currency sym pw bef w a g' :
  existsb (Z.eqb sym) (u "$€£₽") = true ->
  List.filter f pw = [] ->
  matches (currency_re sym) bef w a [] g' ->
  List.filter f (replace_currency pw (MState (rev w ++ bef) a ((0%nat, w) :: g')))
  = List.filter f w.
Proof.
  intros Hsym Hpw H. unfold currency_re in H.
  inversion H; subst; clear H.
  repeat match goal with
  | H : matches (Lit _) _ _ _ _ _ |- _ => inversion H; subst; clear H
  | H : matches (Grp _ _) _ _ _ _ _ |- _ => inversion H; subst; clear H
  end.
  unfold replace_currency, group; cbn [groups assoc Nat.eqb fmt].
  rewrite !List.filter_app, Hpw, (kept_member (u "$€£₽") sym eq_refl Hsym), app_nil_r.
  done.
Qed.

Lemma kept_bullet bef w a g' :
  matches bullet_re bef w a [] g' ->
  List.filter f (template_group1 (MState (rev w ++ bef) a ((0%nat, w) :: g')))
  = List.filter f w.
Proof.
  intros H. unfold bullet_re, Star in H. inv_matches.
  all: unfold template_group1, group; cbn [groups assoc Nat.eqb default]; kept_finish.
Qed.

Lemma kept_ampersand pw bef w a g' :
  List.filter f pw = [] ->
  matches ampersand_re bef w a [] g' ->
  List.filter f pw = List.filter f w.
Proof.
  intros Hpw H. unfold ampersand_re, Plus in H. inv_matches. kept_finish.
Qed.

Lemma kept_number pw bef w a g' :
  List.filter f pw = [] ->
  matches number_re bef w a [] g' ->
  List.filter f (replace_number pw (MState (rev w ++ bef) a ((0%nat, w) :: g')))
  = List.filter f w.
Proof.
  intros Hpw H. unfold number_re, Plus in H. inv_matches.
  unfold replace_number, group; cbn [groups assoc Nat.eqb fmt]. kept_finish.
Qed.

Ltac kept_sub lem :=
  rewrite re_sub_keep;
  [| intros; cbv beta; eapply lem; eauto;
     first [by apply kept_default | reflexivity] ].

Ltac kept_replace :=
  rewrite str_replace_keep;
  [| by (intros E; vm_compute in E) | by apply kept_word | by apply kept_default ].

Lemma kept_passes text :
  List.filter f (passes {| _current_map := cm |} text) = List.filter f text.
Proof.
  unfold passes. rewrite spaces_sub_rule.
  rewrite spaces_rule_keep by (by apply f_space).
  unfold _convert_standalone_symbols, _convert_math_expressions, _convert_numbered_lists.
  cbv zeta. cbn [_current_map].
  do 4 kept_replace.
  kept_sub kept_number. kept_sub kept_ampersand.
  rewrite re_sub_keep; [| intros; by eapply kept_bullet ].
  unfold replace_rubles, replace_pounds, replace_euros, replace_dollars.
  do 4 kept_sub kept_currency.
  kept_sub kept_percent. kept_sub kept_plus. kept_sub kept_standalone_equals.
  kept_sub kept_equals.
  do 4 kept_replace.
  kept_sub kept_numbered. done.
Qed.

End Kept.

Lemma digit_not_symbol c :
  existsb (Z.eqb c) (u ".)=+%#&$€£₽•◦▪▸►→←-<>!") = true -> is_digit c = false.
Proof.
  intros H. apply existsb_exists in H as (x & Hin & Hx). apply Z.eqb_eq in Hx. subst x.
  vm_compute in Hin.
  repeat (destruct Hin as [<-|Hin]; [reflexivity|]). done.
Qed.

Lemma symbol_map_en_no_digit key v :
  SYMBOL_MAP_EN !! key = Some v -> List.filter is_digit v = [].
Proof.
  intros H. apply elem_of_list_to_map_2 in H.
  rewrite !elem_of_cons, elem_of_nil in H.
  repeat (destruct H as [H|H]; [by injection H as -> -> |]). done.
Qed.

Lemma symbol_map_ru_no_digit key v :
  SYMBOL_MAP_RU !! key = Some v -> List.filter is_digit v = [].
Proof.
  intros H. apply elem_of_list_to_map_2 in H.
  rewrite !elem_of_cons, elem_of_nil in H.
  repeat (destruct H as [H|H]; [by injection H as -> -> |]). done.
Qed.

(** Whatever the text and the hint, the digits of the result of
    [transform] are the digits of the text, in the same order: no rule drops,
    adds, doubles or reorders a digit, and no phrase of a built-in table
    holds one. *)
Theorem digits_preserved (text : str) (hint : option string) :
  List.filter is_digit (transform text hint) = List.filter is_digit text.
Proof.
  rewrite transform_passes. apply kept_passes.
  - apply space_not_digit.
  - apply digit_not_symbol.
  - intros key v.
    destruct (get_symbol_map_builtin
                (if negb (truthy hint) then Some (_detect_text_language text) else hint))
      as [-> | ->]; [apply symbol_map_en_no_digit | apply symbol_map_ru_no_digit].
  - apply symbol_map_en_no_digit.
Qed.

(** *** Texts no rule applies to *)

Lemma sub_scan_inert (P : str -> Prop) r repl :
  (forall c s, P (c :: s) -> P s) ->
  (forall bef s, P s -> match_here r bef s = None) ->
  forall s bef, P s -> sub_scan r repl bef s 0 = s.
Proof.
  intros Htl Hno s. induction s as [|c s IH]; intros bef Hs.
  - cbn [sub_scan]. by rewrite Hno.
  - cbn [sub_scan]. rewrite Hno by done. f_equal. apply IH. by eapply Htl.
Qed.

Lemma no_trigger_tail c s :
  forallb (fun x => negb (trigger x)) (c :: s) = true ->
  forallb (fun x => negb (trigger x)) s = true.
Proof. cbn [forallb]. intros H. by apply andb_true_iff in H as [_ H]. Qed.

Lemma no_trigger_prefix w a :
  forallb (fun x => negb (trigger x)) (w ++ a) = true -> existsb trigger w = false.
Proof.
  induction w as [|c w IH]; [done|]. cbn [app forallb existsb].
  intros H. apply andb_true_iff in H as [Hc H].
  apply negb_true_iff in Hc. by rewrite Hc, IH.
Qed.

Lemma trigger_bullet x : existsb (Z.eqb x) (u "•◦▪▸►") = true -> trigger x = true.
Proof.
  intros H. apply existsb_exists in H as (c & Hin & Hc). apply Z.eqb_eq in Hc. subst c.
  vm_compute in Hin.
  repeat (destruct Hin as [<-|Hin]; [reflexivity|]). done.
Qed.

Ltac needs_trigger :=
  rewrite ?existsb_app; cbn [existsb];
  repeat match goal with
  | H : existsb (Z.eqb ?x) (u "•◦▪▸►") = true |- _ =>
      rewrite (trigger_bullet x H); clear H
  | H : trigger ?x = true |- _ => rewrite H; clear H
  end;
  change (trigger 61) with true; change (trigger 43) with true;
  change (trigger 37) with true; change (trigger 35) with true;
  change (trigger 38) with true;
  cbn [orb]; rewrite ?orb_true_r; reflexivity.

(** Every match of a pattern other than the list pattern and the pattern
    for spaces holds a trigger character. *)
Lemma match_needs_trigger r bef w a g' :
  In r [equals_re; standalone_equals_re; plus_re; percent_re; bullet_re;
        ampersand_re; number_re] ->
  matches r bef w a [] g' -> existsb trigger w = true.
Proof.
  intros Hin Hw. cbn [In] in Hin.
  repeat (destruct Hin as [<-|Hin]);
    [ unfold equals_re, Star, Plus in Hw
    | unfold standalone_equals_re in Hw | unfold plus_re, Star, Plus in Hw
    | unfold percent_re, Plus in Hw
    | unfold bullet_re, Star in Hw | unfold ampersand_re, Plus in Hw
    | unfold number_re, Plus in Hw | done ];
    inv_matches; needs_trigger.
Qed.

Lemma currency_needs_trigger sym bef w a g' :
  trigger sym = true ->
  matches (currency_re sym) bef w a [] g' -> existsb trigger w = true.
Proof.
  intros Hsym H. unfold currency_re in H.
  inversion H; subst; clear H.
  repeat match goal with
  | H : matches (Lit _) _ _ _ _ _ |- _ => inversion H; subst; clear H
  end.
  cbn [app existsb]. by rewrite Hsym.
Qed.

Lemma re_sub_no_trigger r repl s :
  (forall bef w a g', matches r bef w a [] g' -> existsb trigger w = true) ->
  forallb (fun x => negb (trigger x)) s = true ->
  re_sub r repl s = s.
Proof.
  intros Hr Hs. unfold re_sub.
  apply (sub_scan_inert (fun t => forallb (fun x => negb (trigger x)) t = true));
    [apply no_trigger_tail | | done].
  intros bef t Ht.
  destruct (match_here r bef t) as [m|] eqn:Hm; [|done].
  apply match_here_sound in Hm as (w & a' & g' & -> & Hw & _).
  apply Hr in Hw. apply no_trigger_prefix in Ht. congruence.
Qed.

Lemma starts_with_prefix old s :
  starts_with old s = true -> exists rest, s = (old ++ rest)%list.
Proof.
  revert s. induction old as [|a old IH]; intros s H; [by exists s|].
  destruct s as [|b s]; [done|]. cbn [starts_with] in H.
  apply andb_true_iff in H as [Hab H]. apply Z.eqb_eq in Hab. subst b.
  destruct (IH s H) as [rest ->]. by exists rest.
Qed.

Lemma occurs_needs c old s :
  In c old -> occurs old s = true -> In c s.
Proof.
  intros Hc. induction s as [|x s IH]; cbn [occurs].
  - rewrite orb_false_r. intros H. apply starts_with_prefix in H as [rest H].
    by destruct old.
  - intros H. apply orb_true_iff in H as [H|H].
    + apply starts_with_prefix in H as [rest ->]. apply in_or_app. by left.
    + right. by apply IH.
Qed.

Lemma no_trigger_occurs c old s :
  In c old -> trigger c = true ->
  forallb (fun x => negb (trigger x)) s = true -> occurs old s = false.
Proof.
  intros Hin Hc Hs. destruct (occurs old s) eqn:Ho; [|done].
  apply (occurs_needs c) in Ho; [|done].
  rewrite forallb_forall in Hs. apply Hs in Ho. by rewrite Hc in Ho.
Qed.

Lemma replace_scan_absent old new s :
  occurs old s = false -> replace_scan old new s 0 = s.
Proof.
  induction s as [|c s IH]; [done|]. cbn [occurs replace_scan].
  intros H. apply orb_false_iff in H as [-> H]. by rewrite IH.
Qed.

Lemma str_replace_absent old new s :
  old <> [] -> occurs old s = false -> str_replace old new s = s.
Proof.
  intros Hne Ho. destruct old as [|a old]; [done|].
  by apply replace_scan_absent.
Qed.

Lemma marker_no_digit s : starts_in is_digit s = false -> marker s = None.
Proof. intros H. unfold marker. by rewrite (munch_stop is_digit s H). Qed.

Lemma numbered_rule_inert pw s :
  forall at_start,
    line_digit at_start s = false -> numbered_rule pw at_start s 0 = s.
Proof.
  induction s as [|c s IH]; intros at_start H; [done|].
  cbn [line_digit] in H.
  apply orb_false_iff in H as [H Hrest]. apply orb_false_iff in H as [Hstart Hnl].
  cbn [numbered_rule]. unfold marker_here.
  assert (H1 : (if at_start then marker (c :: s) else None) = None).
  { destruct at_start; [|done]. by apply marker_no_digit. }
  rewrite H1.
  destruct (c =? 10) eqn:Hc.
  - cbn [andb] in Hnl. rewrite (marker_no_digit s Hnl). f_equal. by apply IH.
  - f_equal. by apply IH.
Qed.

Lemma numbered_lists_inert self text :
  line_digit true text = false -> _convert_numbered_lists self text = text.
Proof.
  intros H. unfold _convert_numbered_lists, re_sub. cbv zeta.
  rewrite numbered_scan. by apply numbered_rule_inert.
Qed.

Lemma re_sub_inert r repl s :
  In r [equals_re; standalone_equals_re; plus_re; percent_re; bullet_re;
        ampersand_re; number_re] ->
  forallb (fun x => negb (trigger x)) s = true ->
  re_sub r repl s = s.
Proof.
  intros Hin. apply re_sub_no_trigger. intros bef w a g'.
  by apply match_needs_trigger.
Qed.

Lemma re_sub_currency_inert sym repl s :
  trigger sym = true ->
  forallb (fun x => negb (trigger x)) s = true ->
  re_sub (currency_re sym) repl s = s.
Proof.
  intros Hsym. apply re_sub_no_trigger. intros bef w a g'.
  by apply currency_needs_trigger.
Qed.

Lemma str_replace_inert c old new s :
  In c old -> trigger c = true ->
  forallb (fun x => negb (trigger x)) s = true ->
  str_replace old new s = s.
Proof.
  intros Hin Hc Hs. apply str_replace_absent; [by destruct old|].
  by apply (no_trigger_occurs c).
Qed.

Lemma passes_plain self text : plain text = true -> passes self text = text.
Proof.
  unfold plain. intros H.
  apply andb_true_iff in H as [H Hsp]. apply andb_true_iff in H as [H Hld].
  apply andb_true_iff in H as [H Hla]. apply andb_true_iff in H as [Htr Hra].
  apply negb_true_iff in Hsp, Hld, Hla, Hra.
  unfold passes. rewrite numbered_lists_inert by done.
  assert (Hm : _convert_math_expressions self text = text).
  { unfold _convert_math_expressions. cbv zeta.
    rewrite (str_replace_inert 61 (u ">=") _ text) by (exact Htr || reflexivity || (right; by left)).
    rewrite (str_replace_inert 61 (u "<=") _ text) by (exact Htr || reflexivity || (right; by left)).
    rewrite (str_replace_inert 61 (u "!=") _ text) by (exact Htr || reflexivity || (right; by left)).
    rewrite (str_replace_inert 61 (u "==") _ text) by (exact Htr || reflexivity || by left).
    rewrite (re_sub_inert equals_re _ text) by (exact Htr || (cbn [In]; tauto)).
    rewrite (re_sub_inert standalone_equals_re _ text) by (exact Htr || (cbn [In]; tauto)).
    rewrite (re_sub_inert plus_re _ text) by (exact Htr || (cbn [In]; tauto)).
    by rewrite (re_sub_inert percent_re _ text) by (exact Htr || (cbn [In]; tauto)). }
  rewrite Hm.
  assert (Hs : _convert_standalone_symbols self text = text).
  { unfold _convert_standalone_symbols. cbv zeta.
    unfold replace_rubles, replace_pounds, replace_euros, replace_dollars.
    rewrite (re_sub_currency_inert dollar_sign _ text) by (exact Htr || reflexivity).
    rewrite (re_sub_currency_inert euro_sign _ text) by (exact Htr || reflexivity).
    rewrite (re_sub_currency_inert pound_sign _ text) by (exact Htr || reflexivity).
    rewrite (re_sub_currency_inert ruble_sign _ text) by (exact Htr || reflexivity).
    rewrite (re_sub_inert bullet_re _ text) by (exact Htr || (cbn [In]; tauto)).
    rewrite (re_sub_inert ampersand_re _ text) by (exact Htr || (cbn [In]; tauto)).
    rewrite (re_sub_inert number_re _ text) by (exact Htr || (cbn [In]; tauto)).
    rewrite (str_replace_inert 8594 (u "→") _ text) by (exact Htr || reflexivity || by left).
    rewrite (str_replace_inert 8592 (u "←") _ text) by (exact Htr || reflexivity || by left).
    rewrite (str_replace_absent (u "->") _ text) by (exact Hra || by intros E; vm_compute in E).
    by rewrite (str_replace_absent (u "<-") _ text) by (exact Hla || by intros E; vm_compute in E). }
  rewrite Hs. rewrite spaces_sub_rule. by apply spaces_rule_id.
Qed.

(** A text that holds no trigger character, no ASCII arrow, no line that
    begins with a digit and no two spaces in a row is returned by
    [transform] as it is, whatever the hint: no rule applies to it. Hyphens,
    periods, parentheses, digits inside a line and the characters the
    tables name but no rule uses do not make a text change. *)
Theorem plain_text_unchanged (text : str) (hint : option string) :
  plain text = true -> transform text hint = text.
Proof. intros H. rewrite transform_passes. by apply passes_plain. Qed.


(** *** Keys a table lacks *)

Lemma default_union (m : gmap string str) key d :
  SYMBOL_MAP_EN !! key = Some d ->
  default d ((m ∪ SYMBOL_MAP_EN) !! key) = default d (m !! key).
Proof.
  intros Hd. rewrite lookup_union, Hd.
  by destruct (m !! key).
Qed.

Lemma passes_union (m : gmap string str) text :
  passes {| _current_map := m ∪ SYMBOL_MAP_EN |} text = passes {| _current_map := m |} text.
Proof.
  unfold passes, _convert_standalone_symbols, _convert_math_expressions,
    _convert_numbered_lists.
  cbv zeta. cbn [_current_map].
  repeat match goal with
  | |- context [default ?d ((m ∪ SYMBOL_MAP_EN) !! ?k)] =>
      rewrite (default_union m k d) by (vm_compute; reflexivity)
  end.
  reflexivity.
Qed.

(** The passes look every phrase up with a default, and each default is the
    phrase of the English table: a converter whose table lacks keys gives
    the result of the table completed from the English one, key by key, and
    with an empty table the result is the English one. *)
Theorem missing_phrases_are_english :
  (forall (m : gmap string str) (text : str),
     passes {| _current_map := m |} text
     = passes {| _current_map := m ∪ SYMBOL_MAP_EN |} text)
  /\ (forall text : str,
        passes {| _current_map := ∅ |} text = transform text (Some "en"%string))
  /\ passes {| _current_map := {[ "percent"%string := u " pour cent" ]} |}
       (u "5% = 1 + 1")
     = u "5 pour cent equals 1 plus 1".
Proof.
  split; [|split].
  - intros m text. by rewrite passes_union.
  - intros text. rewrite transform_en, <- (passes_union ∅). by rewrite (left_id ∅ (∪)).
  - vm_compute. reflexivity.
Qed.

(** *** No comparison operator is left *)

Lemma occurs_app_r a b (w s : str) :
  occurs [a; b] (w ++ s) = false -> occurs [a; b] s = false.
Proof.
  induction w as [|x w IH]; [done|]. cbn [app]. rewrite occurs_cons_pair.
  intros H. apply orb_false_iff in H as [_ H]. by apply IH.
Qed.

(** A substitution whose replacements hold neither [a] nor [b], are made
    for matches that are not empty, and are empty only at the start of the
    text, does not bring the pair of [a] and [b] into a text without it. *)
Lemma sub_scan_no_pair a b r repl :
  (forall bef w a' g', matches r bef w a' [] g' ->
     w <> [] /\
     Forall (fun x => x <> a) (repl (MState (rev w ++ bef) a' ((0%nat, w) :: g'))) /\
     Forall (fun x => x <> b) (repl (MState (rev w ++ bef) a' ((0%nat, w) :: g'))) /\
     (repl (MState (rev w ++ bef) a' ((0%nat, w) :: g')) = [] -> bef = [])) ->
  forall n s bef,
    (length s <= n)%nat -> occurs [a; b] s = false ->
    occurs [a; b] (sub_scan r repl bef s 0) = false /\
    (bef <> [] -> starts_in (Z.eqb b) (sub_scan r repl bef s 0) = true ->
     starts_in (Z.eqb b) s = true).
Proof.
  intros Hr n. induction n as [|n IH]; intros s bef Hlen Ho.
  - destruct s; [|simpl in Hlen; lia]. cbn [sub_scan].
    destruct (match_here r bef []) as [m|] eqn:Hm; [|by split].
    apply match_here_sound in Hm as (w & a' & g' & Hs & Hw & ->).
    destruct (Hr _ _ _ _ Hw) as (Hne & _). by destruct w.
  - destruct s as [|c s'].
    { cbn [sub_scan].
      destruct (match_here r bef []) as [m|] eqn:Hm; [|by split].
      apply match_here_sound in Hm as (w & a' & g' & Hs & Hw & ->).
      destruct (Hr _ _ _ _ Hw) as (Hne & _). by destruct w. }
    cbn [length] in Hlen. cbn [sub_scan].
    destruct (match_here r bef (c :: s')) as [m|] eqn:Hm.
    + apply match_here_sound in Hm as (w & a' & g' & Hs & Hw & ->).
      destruct (Hr _ _ _ _ Hw) as (Hne & Ha & Hb & He).
      destruct w as [|x w']; [done|]. cbn [app] in Hs. injection Hs as <- ->.
      unfold match_len; cbn [before]. rewrite length_app, length_rev. cbn [length].
      replace (S (length w') + length bef - length bef)%nat with (S (length w')) by lia.
      rewrite sub_scan_skip.
      destruct (IH a' (rev w' ++ c :: bef)%list) as [IH1 IH2].
      { rewrite length_app in Hlen. lia. }
      { apply (occurs_app_r a b (c :: w')). exact Ho. }
      split.
      * by rewrite occurs_skip_phrase.
      * intros Hbef Hst.
        destruct (repl _) as [|y R'] eqn:ER; [by specialize (He eq_refl)|].
        cbn [app starts_in] in Hst. apply Z.eqb_eq in Hst. subst y.
        by inversion Hb.
    + rewrite occurs_cons_pair in Ho. apply orb_false_iff in Ho as [Hh Ho].
      destruct (IH s' (c :: bef)) as [IH1 IH2]; [lia | done |].
      split.
      * rewrite occurs_cons_pair, IH1, orb_false_r.
        destruct (a =? c) eqn:Hac; [|done]. cbn [andb] in Hh |- *.
        destruct (starts_in (Z.eqb b) (sub_scan r repl (c :: bef) s' 0)) eqn:Hst; [|done].
        assert (Hs' : starts_in (Z.eqb b) s' = true) by (by apply IH2).
        congruence.
      * intros _ Hst. exact Hst.
Qed.

Lemma word_not_operator c : is_word c = true -> existsb (Z.eqb c) (u "><!=") = false.
Proof.
  intros Hc. change (u "><!=") with [62; 60; 33; 61]. cbn [existsb].
  destruct (Z.eqb_spec c 62) as [E|]; [by rewrite E in Hc|].
  destruct (Z.eqb_spec c 60) as [E|]; [by rewrite E in Hc|].
  destruct (Z.eqb_spec c 33) as [E|]; [by rewrite E in Hc|].
  destruct (Z.eqb_spec c 61) as [E|]; [by rewrite E in Hc|]. done.
Qed.

Lemma space_not_operator c : is_space c = true -> existsb (Z.eqb c) (u "><!=") = false.
Proof.
  intros Hc. change (u "><!=") with [62; 60; 33; 61]. cbn [existsb].
  destruct (Z.eqb_spec c 62) as [E|]; [by rewrite E in Hc|].
  destruct (Z.eqb_spec c 60) as [E|]; [by rewrite E in Hc|].
  destruct (Z.eqb_spec c 33) as [E|]; [by rewrite E in Hc|].
  destruct (Z.eqb_spec c 61) as [E|]; [by rewrite E in Hc|]. done.
Qed.

Lemma class_not_operator cl (w : str) :
  Forall (fun c => in_class cl c = true) w ->
  Forall (fun c => existsb (Z.eqb c) (u "><!=") = false) w.
Proof.
  intros H. eapply Forall_impl; [exact H|].
  intros c Hc. destruct cl; cbn [in_class] in Hc.
  - by apply word_not_operator, digit_is_word.
  - by apply word_not_operator.
  - by apply space_not_operator.
Qed.

Lemma phrase_not_operator (word : str) :
  operator_free word = true ->
  word <> [] /\ Forall (fun c => existsb (Z.eqb c) (u "><!=") = false) word.
Proof.
  unfold operator_free. destruct word as [|x word]; [done|]. intros H.
  split; [done|]. rewrite forallb_forall in H. apply List.Forall_forall.
  intros c Hc. apply H in Hc. by apply negb_true_iff in Hc.
Qed.

Ltac plain_pieces :=
  repeat (apply Forall_app; split);
  first [ assumption
        | by repeat constructor
        | by (eapply class_not_operator; eassumption) ].

Ltac not_empty :=
  let E := fresh in
  intros E; apply (f_equal (@length Z)) in E;
  rewrite ?length_app in E; cbn [length] in E; rewrite ?length_app in E;
  cbn [length] in E; lia.

(** What each rule of the math pass behind the first step, and each rule
    of the standalone pass, puts in the place of a match holds none of the
    four characters of the comparison operators, given a phrase without
    them. *)
Lemma replacement_plain word r repl :
  operator_free word = true ->
  In (r, repl)
    [ (equals_re, replace_equals word); (standalone_equals_re, fun _ => word);
      (plus_re, replace_plus word); (percent_re, replace_percent word);
      (bullet_re, template_group1); (ampersand_re, fun _ => word);
      (number_re, replace_number word) ] ->
  forall bef w a' g', matches r bef w a' [] g' ->
    w <> [] /\
    Forall (fun c => existsb (Z.eqb c) (u "><!=") = false)
      (repl (MState (rev w ++ bef) a' ((0%nat, w) :: g'))) /\
    (repl (MState (rev w ++ bef) a' ((0%nat, w) :: g')) = [] -> bef = []).
Proof.
  intros Hword Hin bef w a' g' Hw.
  apply phrase_not_operator in Hword as [Hne Hfree].
  assert (Hlen : (1 <= length word)%nat) by (destruct word; [done | cbn; lia]).
  cbn [In] in Hin.
  repeat (destruct Hin as [[= <- <-]|Hin]);
    [ unfold equals_re, Star, Plus in Hw
    | unfold standalone_equals_re in Hw | unfold plus_re, Star, Plus in Hw
    | unfold percent_re, Plus in Hw
    | unfold bullet_re, Star in Hw | unfold ampersand_re, Plus in Hw
    | unfold number_re, Plus in Hw | done ];
    inv_matches;
    unfold replace_equals, replace_plus, replace_percent, replace_number,
      template_group1, group;
    cbn [groups assoc Nat.eqb fmt default];
    (split; [not_empty | split; [plain_pieces | try not_empty]]).
  - done.
  - intros E. cbv [id] in E. discriminate.
Qed.

Lemma currency_replacement_plain word sym :
  operator_free word = true ->
  forall bef w a' g', matches (currency_re sym) bef w a' [] g' ->
    w <> [] /\
    Forall (fun c => existsb (Z.eqb c) (u "><!=") = false)
      (replace_currency word (MState (rev w ++ bef) a' ((0%nat, w) :: g'))) /\
    (replace_currency word (MState (rev w ++ bef) a' ((0%nat, w) :: g')) = [] -> bef = []).
Proof.
  intros Hword bef w a' g' Hw.
  apply phrase_not_operator in Hword as [Hne Hfree].
  assert (Hlen : (1 <= length word)%nat) by (destruct word; [done | cbn; lia]).
  unfold currency_re, Plus, Opt in Hw.
  inversion Hw; subst; clear Hw.
  repeat match goal with
  | H : matches (Lit _) _ _ _ _ _ |- _ => inversion H; subst; clear H
  | H : matches (Grp _ _) _ _ _ _ _ |- _ => inversion H; subst; clear H
  | H : matches (Seq _ _) _ _ _ _ _ |- _ => inversion H; subst; clear H
  | H : matches (Rep _ _ (Cls _)) _ _ _ _ _ |- _ => apply matches_rep_cls in H as [-> ?]
  end.
  match goal with
  | H : matches (Rep 0 (Some 1%nat) _) _ ?w2 _ _ _ |- _ =>
      assert (Hdec : Forall (fun c => existsb (Z.eqb c) (u "><!=") = false) w2 /\
                     True)
  end.
  { split; [|done].
    match goal with
    | H : matches (Rep 0 (Some 1%nat) _) _ _ _ _ _ |- _ =>
        apply (matches_rep_chars (fun c => existsb (Z.eqb c) (u "><!=") = false)) in H;
          [apply H|]
    end.
    intros bb ww aa gg gg' Hm0. inv_matches. split; [done|].
    constructor; [reflexivity|]. by eapply class_not_operator. }
  destruct Hdec as [Hdec _].
  unfold replace_currency, group; cbn [groups assoc Nat.eqb fmt].
  split; [done|]. split; [|not_empty].
  plain_pieces.
Qed.

Lemma operator_pair_absent a (R : str) :
  existsb (Z.eqb a) (u "><!=") = true ->
  Forall (fun c => existsb (Z.eqb c) (u "><!=") = false) R ->
  Forall (fun x => x <> a) R.
Proof.
  intros Ha H. eapply Forall_impl; [exact H|]. intros c Hc ->. congruence.
Qed.

Lemma re_sub_no_operator a b r repl s :
  existsb (Z.eqb a) (u "><!=") = true -> existsb (Z.eqb b) (u "><!=") = true ->
  (forall bef w a' g', matches r bef w a' [] g' ->
    w <> [] /\
    Forall (fun c => existsb (Z.eqb c) (u "><!=") = false)
      (repl (MState (rev w ++ bef) a' ((0%nat, w) :: g'))) /\
    (repl (MState (rev w ++ bef) a' ((0%nat, w) :: g')) = [] -> bef = [])) ->
  occurs [a; b] s = false -> occurs [a; b] (re_sub r repl s) = false.
Proof.
  intros Ha Hb Hr Ho. unfold re_sub.
  apply (sub_scan_no_pair a b r repl) with (n := length s); [|done|done].
  intros bef w a' g' Hw. destruct (Hr bef w a' g' Hw) as (Hne & HR & He).
  split; [done|]. split; [by apply (operator_pair_absent a)|].
  split; [by apply (operator_pair_absent b)|done].
Qed.

Ltac phrase_plain := apply builtin_operator_free; vm_compute; reflexivity.

Ltac pick_entry := cbn [In]; repeat first [left; reflexivity | right].

Ltac sub_plain :=
  lazymatch goal with
  | |- occurs [?a; ?b] (re_sub (currency_re ?sym) (replace_currency ?w) ?s) = false =>
      apply (re_sub_no_operator a b (currency_re sym) (replace_currency w) s);
      [ vm_compute; reflexivity | vm_compute; reflexivity
      | apply (currency_replacement_plain w sym); phrase_plain | ]
  | |- occurs [?a; ?b] (re_sub bullet_re template_group1 ?s) = false =>
      apply (re_sub_no_operator a b bullet_re template_group1 s);
      [ vm_compute; reflexivity | vm_compute; reflexivity
      | apply (replacement_plain (u " ") bullet_re template_group1);
        [reflexivity | pick_entry] | ]
  | |- occurs [?a; ?b] (re_sub ?r (?f ?w) ?s) = false =>
      apply (re_sub_no_operator a b r (f w) s);
      [ vm_compute; reflexivity | vm_compute; reflexivity
      | apply (replacement_plain w r (f w)); [phrase_plain | pick_entry] | ]
  | |- occurs [?a; ?b] (re_sub ?r (fun _ => ?w) ?s) = false =>
      apply (re_sub_no_operator a b r (fun _ => w) s);
      [ vm_compute; reflexivity | vm_compute; reflexivity
      | apply (replacement_plain w r (fun _ => w)); [phrase_plain | pick_entry] | ]
  end.

Ltac arrow_plain :=
  apply str_replace_no_pair;
  [ intros E; vm_compute in E; discriminate
  | phrase_plain
  | vm_compute; reflexivity
  | vm_compute; reflexivity
  | apply safe_absent ].

Lemma passes_no_operator a b lang text :
  In (a, b) [(62, 61); (60, 61); (33, 61); (61, 61)] ->
  occurs [a; b] (passes {| _current_map := _get_symbol_map lang |} text) = false.
Proof.
  intros Hin. unfold passes. rewrite spaces_sub_rule.
  apply spaces_rule_no_pair.
  { cbn [In] in Hin. destruct Hin as [[= <- _]|[[= <- _]|[[= <- _]|[[= <- _]|[]]]]]; done. }
  unfold _convert_standalone_symbols, _convert_math_expressions.
  cbv zeta. cbn [_current_map].
  unfold replace_rubles, replace_pounds, replace_euros, replace_dollars.
  set (t0 := _convert_numbered_lists _ text).
  change (u ">=") with [62; 61]. change (u "<=") with [60; 61].
  change (u "!=") with [33; 61]. change (u "==") with [61; 61].
  cbn [In] in Hin.
  destruct Hin as [[= <- <-]|[[= <- <-]|[[= <- <-]|[[= <- <-]|[]]]]];
    do 4 arrow_plain; do 11 sub_plain; no_pair.
Qed.

(** Whatever the text and the hint, the result of [transform] holds none
    of the four two-character comparison operators: the first step of the
    math pass removes them, the phrases put in hold none of their
    characters, and no later rule moves two of their characters
    together. *)
Theorem no_comparison_operator_in_result (text : str) (hint : option string) :
  occurs (u ">=") (transform text hint) = false
  /\ occurs (u "<=") (transform text hint) = false
  /\ occurs (u "!=") (transform text hint) = false
  /\ occurs (u "==") (transform text hint) = false.
Proof.
  rewrite transform_passes.
  change (u ">=") with [62; 61]. change (u "<=") with [60; 61].
  change (u "!=") with [33; 61]. change (u "==") with [61; 61].
  repeat split; apply passes_no_operator; cbn [In]; tauto.
Qed.

(** *** Which hints select the Russian table *)

Lemma get_symbol_map_other h :
  h <> "ru"%string -> _get_symbol_map (Some h) = SYMBOL_MAP_EN.
Proof.
  intros Hh. rewrite get_symbol_map_default.
  destruct (LANGUAGE_MAPS !! h) as [m|] eqn:Hm; [|done].
  by apply language_maps_lookup in Hm as [[-> _]|[_ ->]].
Qed.

(** Only the hint "ru" itself selects the Russian phrases: every other
    non-empty hint, such as "RU", "ru-RU" or "rus", gives the English
    result, and the oracle is not asked. An empty hint is no hint. *)
Theorem only_ru_selects_russian (text : str) (h : string) :
  h <> ""%string -> h <> "ru"%string ->
  transform text (Some h) = transform text (Some "en"%string)
  /\ transform text (Some ""%string) = transform text None.
Proof.
  intros Hne Hru. split; [|reflexivity].
  rewrite !transform_passes.
  replace (truthy (Some h)) with true by (by destruct h).
  cbn [truthy negb]. by rewrite !get_symbol_map_other.
Qed.


(** *** No number sign before a digit, no digit before a percent sign *)

Lemma adjacent_none pa pb (s : str) :
  Forall (fun x => pb x = false) s -> adjacent pa pb s = false.
Proof.
  induction 1 as [|x s Hx Hs IH]; [done|]. cbn [adjacent]. rewrite IH, orb_false_r.
  destruct Hs as [|y s Hy _]; cbn [starts_in]; [apply andb_false_r|].
  by rewrite Hy, andb_false_r.
Qed.

Lemma starts_in_app (p : Z -> bool) (l m : str) :
  l <> [] -> starts_in p (l ++ m) = starts_in p l.
Proof. by destruct l. Qed.

Lemma adjacent_app pa pb (R out : str) :
  adjacent pa pb (R ++ out)
  = adjacent pa pb R || starts_in pa (rev R) && starts_in pb out || adjacent pa pb out.
Proof.
  induction R as [|x R IH]; [done|].
  cbn [app adjacent]. rewrite IH. destruct R as [|y R'].
  - cbn [app rev starts_in adjacent]. by rewrite andb_false_r, !orb_false_r, orb_false_l.
  - assert (Hr : starts_in pa (rev (x :: y :: R')) = starts_in pa (rev (y :: R'))).
    { cbn [rev]. apply starts_in_app.
      intros E. apply (f_equal (@length Z)) in E. rewrite length_app in E.
      cbn [length] in E. lia. }
    rewrite Hr. cbn [app starts_in].
    by rewrite !orb_assoc.
Qed.

Lemma adjacent_app_r pa pb (w s : str) :
  adjacent pa pb (w ++ s) = false -> adjacent pa pb s = false.
Proof. rewrite adjacent_app. intros H. by apply orb_false_iff in H as [_ H]. Qed.

(** A substitution does not bring a [pa] character directly before a [pb]
    character when no match is empty and each replacement has no such pair
    inside, is empty only at the start of the text, starts with a [pb]
    character only when the match does, and ends with a [pa] character only
    when the match does. *)
Lemma sub_scan_no_adjacent pa pb r repl :
  (forall bef w a' g', matches r bef w a' [] g' ->
     let R := repl (MState (rev w ++ bef) a' ((0%nat, w) :: g')) in
     w <> [] /\ adjacent pa pb R = false /\ (R = [] -> bef = []) /\
     (starts_in pb R = true -> starts_in pb w = true) /\
     (starts_in pa (rev R) = true -> starts_in pa (rev w) = true)) ->
  forall n s bef,
    (length s <= n)%nat -> adjacent pa pb s = false ->
    adjacent pa pb (sub_scan r repl bef s 0) = false /\
    (bef <> [] -> starts_in pb (sub_scan r repl bef s 0) = true ->
     starts_in pb s = true).
Proof.
  intros Hr n. induction n as [|n IH]; intros s bef Hlen Ho.
  - destruct s; [|simpl in Hlen; lia]. cbn [sub_scan].
    destruct (match_here r bef []) as [m|] eqn:Hm; [|by split].
    apply match_here_sound in Hm as (w & a' & g' & Hs & Hw & ->).
    destruct (Hr _ _ _ _ Hw) as (Hne & _). by destruct w.
  - destruct s as [|c s'].
    { cbn [sub_scan].
      destruct (match_here r bef []) as [m|] eqn:Hm; [|by split].
      apply match_here_sound in Hm as (w & a' & g' & Hs & Hw & ->).
      destruct (Hr _ _ _ _ Hw) as (Hne & _). by destruct w. }
    cbn [length] in Hlen. cbn [sub_scan].
    destruct (match_here r bef (c :: s')) as [m|] eqn:Hm.
    + apply match_here_sound in Hm as (w & a' & g' & Hs & Hw & ->).
      destruct (Hr _ _ _ _ Hw) as (Hne & Hin & He & Hfirst & Hlast). cbv zeta in *.
      destruct w as [|x w']; [done|]. cbn [app] in Hs. injection Hs as <- ->.
      unfold match_len; cbn [before]. rewrite length_app, length_rev. cbn [length].
      replace (S (length w') + length bef - length bef)%nat with (S (length w')) by lia.
      rewrite sub_scan_skip.
      destruct (IH a' (rev w' ++ c :: bef)%list) as [IH1 IH2].
      { rewrite length_app in Hlen. lia. }
      { apply (adjacent_app_r pa pb (c :: w')). exact Ho. }
      change (c :: w' ++ a')%list with ((c :: w') ++ a')%list in Ho.
      rewrite adjacent_app in Ho.
      apply orb_false_iff in Ho as [Ho _]. apply orb_false_iff in Ho as [_ Hst].
      split.
      * rewrite adjacent_app, Hin, IH1, orb_false_r. cbn [orb].
        destruct (starts_in pa (rev (repl _))) eqn:HR; [|done]. cbn [andb].
        destruct (starts_in pb (sub_scan r repl (rev w' ++ c :: bef) a' 0)) eqn:Hb; [|done].
        assert (H1 : starts_in pb a' = true).
        { apply IH2; [|done]. by destruct (rev w'). }
        rewrite (Hlast eq_refl), H1 in Hst. done.
      * intros Hbef Hb.
        destruct (repl _) as [|y R'] eqn:ER; [by specialize (He eq_refl)|].
        cbn [app starts_in] in Hb. cbn [starts_in] in Hfirst. by apply Hfirst.
    + cbn [adjacent] in Ho. apply orb_false_iff in Ho as [Hh Ho].
      destruct (IH s' (c :: bef)) as [IH1 IH2]; [lia | done |].
      split.
      * cbn [adjacent]. rewrite IH1, orb_false_r.
        destruct (pa c); [|done]. cbn [andb] in Hh |- *.
        destruct (starts_in pb (sub_scan r repl (c :: bef) s' 0)) eqn:Hst; [|done].
        assert (Hs' : starts_in pb s' = true) by (by apply IH2).
        congruence.
      * intros _ Hst. exact Hst.
Qed.

Lemma replace_scan_no_adjacent pa pb old new :
  new <> [] ->
  Forall (fun x => pa x = false) new -> Forall (fun x => pb x = false) new ->
  forall s skip,
    adjacent pa pb s = false ->
    adjacent pa pb (replace_scan old new s skip) = false /\
    (skip = O -> starts_in pb (replace_scan old new s skip) = true ->
     starts_in pb s = true).
Proof.
  intros Hne Ha Hb s. induction s as [|c s' IH]; intros skip Ho.
  - by destruct skip.
  - cbn [adjacent] in Ho. apply orb_false_iff in Ho as [Hh Ho].
    destruct skip as [|n].
    + cbn [replace_scan]. destruct (starts_with old (c :: s')).
      * destruct (IH (length old - 1)%nat Ho) as [IH1 _]. split.
        -- rewrite adjacent_app, (adjacent_none pa pb new Hb), IH1, orb_false_r.
           cbn [orb].
           assert (Hl : starts_in pa (rev new) = false).
           { apply Forall_rev in Ha. destruct Ha as [|y l Hy _]; [done|]. exact Hy. }
           by rewrite Hl.
        -- intros _ Hst. destruct new as [|y new']; [done|].
           cbn [app starts_in] in Hst. inversion Hb; congruence.
      * destruct (IH O Ho) as [IH1 IH2]. split.
        -- cbn [adjacent]. rewrite IH1, orb_false_r.
           destruct (pa c); [|done]. cbn [andb] in Hh |- *.
           destruct (starts_in pb (replace_scan old new s' 0)) eqn:Hst; [|done].
           assert (Hs' : starts_in pb s' = true) by (by apply IH2).
           congruence.
        -- intros _ Hst. exact Hst.
    + cbn [replace_scan]. destruct (IH n Ho) as [IH1 _]. by split.
Qed.

Lemma str_replace_no_adjacent pa pb old new s :
  old <> [] -> new <> [] ->
  Forall (fun x => pa x = false) new -> Forall (fun x => pb x = false) new ->
  adjacent pa pb s = false -> adjacent pa pb (str_replace old new s) = false.
Proof.
  intros Ho Hn Ha Hb Hs. destruct old as [|o old']; [done|].
  by apply replace_scan_no_adjacent.
Qed.

Lemma spaces_rule_no_adjacent pa pb s :
  pa 32 = false ->
  adjacent pa pb s = false ->
  forall flag, adjacent pa pb (spaces_rule flag s) = false.
Proof.
  intros Ha. induction s as [|c s IH]; intros Ho flag; [done|].
  cbn [adjacent] in Ho. apply orb_false_iff in Ho as [Hh Ho].
  cbn [spaces_rule]. destruct ((c =? 32) && flag); [by apply IH|].
  cbn [adjacent]. rewrite IH by done. rewrite orb_false_r.
  destruct (pa c) eqn:Hc; [|done]. cbn [andb] in Hh |- *.
  replace (c =? 32) with false.
  - by rewrite spaces_rule_start.
  - symmetry. apply Z.eqb_neq. intros ->. congruence.
Qed.


Lemma wordy_facts (w : str) :
  wordy w = true ->
  w <> [] /\ Forall (fun x => is_digit x = false) w /\
  Forall (fun x => (37 =? x) = false) w /\ Forall (fun x => (35 =? x) = false) w.
Proof.
  destruct w as [|c w]; [done|]. unfold wordy. intros H.
  rewrite forallb_forall in H. split; [done|].
  repeat split; apply List.Forall_forall; intros x Hx; apply H in Hx;
    apply negb_true_iff in Hx; apply orb_false_iff in Hx as [Hx ?];
    apply orb_false_iff in Hx as [? ?]; done.
Qed.

Lemma builtin_wordy lang key d :
  wordy d = true -> wordy (default d (_get_symbol_map lang !! key)) = true.
Proof.
  intros Hd. destruct (_get_symbol_map lang !! key) as [v|] eqn:Hv; [|done].
  cbn [default].
  destruct (get_symbol_map_builtin lang) as [He|He]; rewrite He in Hv;
    apply elem_of_list_to_map_2 in Hv;
    rewrite !elem_of_cons, elem_of_nil in Hv;
    repeat (destruct Hv as [Hv|Hv]; [injection Hv as -> ->; vm_compute; reflexivity |]);
    done.
Qed.

Lemma first_not (p : Z -> bool) (w : str) :
  Forall (fun x => p x = false) w -> starts_in p w = false.
Proof. by destruct 1. Qed.

Lemma last_not (p : Z -> bool) (w : str) :
  Forall (fun x => p x = false) w -> starts_in p (rev w) = false.
Proof. intros H. apply first_not. by apply Forall_rev. Qed.

Lemma adjacent_none_l pa pb (s : str) :
  Forall (fun x => pa x = false) s -> adjacent pa pb s = false.
Proof.
  induction 1 as [|x s Hx Hs IH]; [done|]. cbn [adjacent]. by rewrite Hx, IH.
Qed.

(** After the percent step no digit stands directly before a percent
    sign. *)
Lemma percent_rule_exhausts word :
  wordy word = true ->
  forall s flag,
    adjacent is_digit (Z.eqb 37) (percent_rule word flag s) = false /\
    (flag = true -> starts_in (Z.eqb 37) (percent_rule word flag s) = false).
Proof.
  intros Hw. apply wordy_facts in Hw as (Hne & Hd & Hp & _).
  induction s as [|c s IH]; intros flag; [done|].
  cbn [percent_rule]. destruct (IH (is_digit c)) as [IH1 IH2].
  destruct ((c =? 37) && flag) eqn:E.
  - split.
    + by rewrite adjacent_app, (adjacent_none _ _ _ Hp), (last_not _ _ Hd), IH1.
    + intros _. rewrite starts_in_app by done. by apply first_not.
  - cbn [app]. split.
    + cbn [adjacent]. rewrite IH1, orb_false_r.
      destruct (is_digit c); [|done]. by rewrite IH2.
    + intros ->. cbn [starts_in]. rewrite andb_true_r in E. by rewrite Z.eqb_sym.
Qed.

(** After the number-sign step no number sign stands directly before a
    digit. *)
Lemma number_rule_exhausts word :
  wordy word = true ->
  forall n s, (length s <= n)%nat ->
    adjacent (Z.eqb 35) is_digit (number_rule word s 0) = false /\
    (starts_in is_digit (number_rule word s 0) = true -> starts_in is_digit s = true).
Proof.
  intros Hw. apply wordy_facts in Hw as (Hne & Hd & _ & Hh).
  induction n as [|n IH]; intros s Hlen.
  { destruct s; [done | cbn in Hlen; lia]. }
  destruct s as [|c s']; [done|]. cbn [length] in Hlen.
  cbn [number_rule]. set (m := munch is_digit s').
  destruct ((c =? 35) && (1 <=? m)%nat) eqn:E.
  - assert (Hskip : number_rule word s' m = number_rule word (drop m s') 0).
    { rewrite <- (number_rule_skip word (take m s') (drop m s')), take_drop.
      unfold m. by rewrite munch_length_take. }
    rewrite Hskip.
    destruct (IH (drop m s')) as [IH1 IH2]; [rewrite length_drop; lia|].
    assert (Hrest : starts_in is_digit (number_rule word (drop m s') 0) = false).
    { destruct (starts_in is_digit (number_rule word (drop m s') 0)) eqn:Hst; [|done].
      specialize (IH2 eq_refl). unfold m in IH2. by rewrite munch_drop in IH2. }
    assert (Hds : Forall (fun x => (35 =? x) = false) (take m s')).
    { eapply Forall_impl; [apply (munch_take is_digit s')|].
      intros x Hx. cbv beta in Hx. apply Z.eqb_neq. intros <-. vm_compute in Hx. discriminate. }
    split.
    + rewrite adjacent_app, (adjacent_none _ _ _ Hd), (last_not _ _ Hh).
      rewrite adjacent_app, (adjacent_none_l _ _ _ Hds), IH1, Hrest.
      by rewrite andb_false_r.
    + rewrite starts_in_app by done. by rewrite (first_not _ _ Hd).
  - destruct (IH s') as [IH1 IH2]; [lia|]. split; [|done].
    cbn [adjacent]. rewrite IH1, orb_false_r.
    destruct (Z.eqb_spec 35 c) as [<-|]; [|done]. cbn [andb Z.eqb Pos.eqb] in E |- *.
    destruct (starts_in is_digit (number_rule word s' 0)) eqn:Hst; [|done].
    specialize (IH2 eq_refl).
    assert (Hm : m = O) by (apply Nat.leb_gt in E; lia).
    unfold m in Hm. apply munch_zero in Hm. congruence.
Qed.

Ltac phrase_wordy := apply builtin_wordy; vm_compute; reflexivity.

Ltac arrow_apart :=
  apply str_replace_no_adjacent;
  [ intros E; vm_compute in E; discriminate
  | apply wordy_facts; phrase_wordy
  | apply wordy_facts; phrase_wordy
  | apply wordy_facts; phrase_wordy
  | ].

Lemma passes_number_signs lang text :
  adjacent (Z.eqb 35) is_digit (passes {| _current_map := _get_symbol_map lang |} text)
  = false.
Proof.
  unfold passes. rewrite spaces_sub_rule.
  apply spaces_rule_no_adjacent; [reflexivity|].
  unfold _convert_standalone_symbols. cbv zeta. cbn [_current_map].
  do 4 arrow_apart.
  unfold re_sub at 1. rewrite number_scan.
  eapply number_rule_exhausts; [phrase_wordy | reflexivity].
Qed.


Lemma re_sub_no_adjacent pa pb r repl s :
  (forall bef w a' g', matches r bef w a' [] g' ->
     w <> [] /\
     Forall (fun x => pb x = false) (repl (MState (rev w ++ bef) a' ((0%nat, w) :: g'))) /\
     (repl (MState (rev w ++ bef) a' ((0%nat, w) :: g')) = [] -> bef = []) /\
     (starts_in pa (rev (repl (MState (rev w ++ bef) a' ((0%nat, w) :: g')))) = true ->
      starts_in pa (rev w) = true)) ->
  adjacent pa pb s = false -> adjacent pa pb (re_sub r repl s) = false.
Proof.
  intros Hr Ho. unfold re_sub.
  apply (sub_scan_no_adjacent pa pb r repl) with (n := length s); [|done|done].
  intros bef w a' g' Hw. destruct (Hr bef w a' g' Hw) as (Hne & HR & He & Hl).
  cbv zeta. split; [done|]. split; [by apply adjacent_none|]. split; [done|].
  split; [|done]. intros Hst. by rewrite (first_not _ _ HR) in Hst.
Qed.

Lemma class_not_percent cl (w : str) :
  Forall (fun c => in_class cl c = true) w ->
  Forall (fun c => (37 =? c) = false) w.
Proof.
  intros H. eapply Forall_impl; [exact H|].
  intros c Hc. cbv beta in Hc. apply Z.eqb_neq. intros <-.
  destruct cl; vm_compute in Hc; discriminate.
Qed.

Ltac percent_pieces :=
  repeat (apply Forall_app; split);
  first [ assumption
        | by repeat constructor
        | by (eapply class_not_percent; eassumption) ].

Lemma replacement_keeps_percent_apart word r repl :
  wordy word = true ->
  In (r, repl)
    [ (bullet_re, template_group1); (ampersand_re, fun _ => word);
      (number_re, replace_number word) ] ->
  forall bef w a' g', matches r bef w a' [] g' ->
    w <> [] /\
    Forall (fun c => (37 =? c) = false)
      (repl (MState (rev w ++ bef) a' ((0%nat, w) :: g'))) /\
    (repl (MState (rev w ++ bef) a' ((0%nat, w) :: g')) = [] -> bef = []) /\
    (starts_in is_digit (rev (repl (MState (rev w ++ bef) a' ((0%nat, w) :: g')))) = true ->
     starts_in is_digit (rev w) = true).
Proof.
  intros Hword Hin bef w a' g' Hw.
  apply wordy_facts in Hword as (Hne & Hd & Hp & _).
  assert (Hlen : (1 <= length word)%nat) by (destruct word; [done | cbn; lia]).
  cbn [In] in Hin.
  repeat (destruct Hin as [[= <- <-]|Hin]);
    [ unfold bullet_re, Star in Hw | unfold ampersand_re, Plus in Hw
    | unfold number_re, Plus in Hw | done ];
    inv_matches;
    unfold replace_number, template_group1, group;
    cbn [groups assoc Nat.eqb fmt default];
    (split; [not_empty | split; [percent_pieces | split; [try not_empty|]]]).
  - done.
  - cbv [id]. cbn [rev starts_in]. discriminate.
  - intros E. cbv [id] in E. discriminate.
  - cbv [id]. intros E. vm_compute in E. discriminate.
  - by rewrite (last_not _ _ Hd).
  - rewrite !rev_app_distr. destruct (rev w2) as [|y l] eqn:Er.
    + cbn [app]. by rewrite (last_not _ _ Hd).
    + done.
Qed.

Lemma currency_keeps_percent_apart word sym :
  wordy word = true ->
  forall bef w a' g', matches (currency_re sym) bef w a' [] g' ->
    w <> [] /\
    Forall (fun c => (37 =? c) = false)
      (replace_currency word (MState (rev w ++ bef) a' ((0%nat, w) :: g'))) /\
    (replace_currency word (MState (rev w ++ bef) a' ((0%nat, w) :: g')) = [] -> bef = []) /\
    (starts_in is_digit
       (rev (replace_currency word (MState (rev w ++ bef) a' ((0%nat, w) :: g')))) = true ->
     starts_in is_digit (rev w) = true).
Proof.
  intros Hword bef w a' g' Hw.
  apply wordy_facts in Hword as (Hne & Hd & Hp & _).
  assert (Hlen : (1 <= length word)%nat) by (destruct word; [done | cbn; lia]).
  unfold currency_re, Plus, Opt in Hw.
  inversion Hw; subst; clear Hw.
  repeat match goal with
  | H : matches (Lit _) _ _ _ _ _ |- _ => inversion H; subst; clear H
  | H : matches (Grp _ _) _ _ _ _ _ |- _ => inversion H; subst; clear H
  | H : matches (Seq _ _) _ _ _ _ _ |- _ => inversion H; subst; clear H
  | H : matches (Rep _ _ (Cls _)) _ _ _ _ _ |- _ => apply matches_rep_cls in H as [-> ?]
  end.
  match goal with
  | H : matches (Rep 0 (Some 1%nat) _) _ ?w2 _ _ _ |- _ =>
      assert (Hdec : Forall (fun c => (37 =? c) = false) w2 /\ True)
  end.
  { split; [|done].
    match goal with
    | H : matches (Rep 0 (Some 1%nat) _) _ _ _ _ _ |- _ =>
        apply (matches_rep_chars (fun c => (37 =? c) = false)) in H; [apply H|]
    end.
    intros bb ww aa gg gg' Hm0. inv_matches. split; [done|].
    constructor; [reflexivity|]. by eapply class_not_percent. }
  destruct Hdec as [Hdec _].
  unfold replace_currency, group; cbn [groups assoc Nat.eqb fmt].
  split; [done|]. split; [percent_pieces|]. split; [not_empty|].
  rewrite rev_app_distr. destruct (rev word) as [|y l] eqn:Er.
  - apply (f_equal (@length Z)) in Er. rewrite length_rev in Er. cbn in Er. lia.
  - intros E. cbn [app starts_in] in E.
    pose proof (last_not _ _ Hd) as Hl. rewrite Er in Hl. cbn [starts_in] in Hl. congruence.
Qed.


Ltac sub_apart :=
  lazymatch goal with
  | |- adjacent _ _ (re_sub (currency_re ?sym) (replace_currency ?w) ?s) = false =>
      apply (re_sub_no_adjacent is_digit (Z.eqb 37) (currency_re sym) (replace_currency w) s);
      [ apply (currency_keeps_percent_apart w sym); phrase_wordy | ]
  | |- adjacent _ _ (re_sub bullet_re template_group1 ?s) = false =>
      apply (re_sub_no_adjacent is_digit (Z.eqb 37) bullet_re template_group1 s);
      [ apply (replacement_keeps_percent_apart (u " ") bullet_re template_group1);
        [reflexivity | pick_entry] | ]
  | |- adjacent _ _ (re_sub ?r (?f ?w) ?s) = false =>
      apply (re_sub_no_adjacent is_digit (Z.eqb 37) r (f w) s);
      [ apply (replacement_keeps_percent_apart w r (f w)); [phrase_wordy | pick_entry] | ]
  | |- adjacent _ _ (re_sub ?r (fun _ => ?w) ?s) = false =>
      apply (re_sub_no_adjacent is_digit (Z.eqb 37) r (fun _ => w) s);
      [ apply (replacement_keeps_percent_apart w r (fun _ => w));
        [phrase_wordy | pick_entry] | ]
  end.

Lemma passes_percent_signs lang text :
  adjacent is_digit (Z.eqb 37) (passes {| _current_map := _get_symbol_map lang |} text)
  = false.
Proof.
  unfold passes. rewrite spaces_sub_rule.
  apply spaces_rule_no_adjacent; [reflexivity|].
  unfold _convert_standalone_symbols, _convert_math_expressions.
  cbv zeta. cbn [_current_map].
  unfold replace_rubles, replace_pounds, replace_euros, replace_dollars.
  do 4 arrow_apart. do 7 sub_apart.
  unfold re_sub at 1. rewrite (percent_scan _ _ _ _ (Nat.le_refl _)).
  apply percent_rule_exhausts. phrase_wordy.
Qed.

(** Whatever the text and the hint, no number sign stands directly before
    a digit in the result of [transform]: the number-sign step rewrites
    every such place, the phrase it puts in neither ends with a number sign
    nor starts with a digit, and the arrow steps and the clean-up of spaces
    behind it bring no number sign and digit together. *)
Theorem no_number_sign_before_digit (text : str) (hint : option string) :
  adjacent (Z.eqb 35) is_digit (transform text hint) = false.
Proof. rewrite transform_passes. apply passes_number_signs. Qed.

(** Whatever the text and the hint, no digit stands directly before a
    percent sign in the result of [transform]: the percent step rewrites
    every such place, and no rule of the standalone pass nor the clean-up of
    spaces brings a digit and a percent sign together. *)
Theorem no_digit_before_percent (text : str) (hint : option string) :
  adjacent is_digit (Z.eqb 37) (transform text hint) = false.
Proof. rewrite transform_passes. apply passes_percent_signs. Qed.


(** ** The DOC reader *)

(** *** Runs of whitespace *)

Lemma whitespace_match_none bef s :
  munch is_space s = O -> match_here whitespace_re bef s = None.
Proof.
  intros Hs. unfold match_here, whitespace_re, Plus. cbn [rmatch].
  rewrite (rep_loop_cls is_space (rmatch (Cls Space)) (fun _ _ => eq_refl)) by (cbn; lia).
  apply rep_cls_short. lia.
Qed.

Lemma whitespace_match_some bef s :
  (1 <= munch is_space s)%nat ->
  exists m, match_here whitespace_re bef s = Some m /\
            match_len bef m = munch is_space s.
Proof.
  intros Hn. unfold match_here, whitespace_re, Plus. cbn [rmatch].
  rewrite (rep_loop_cls is_space (rmatch (Cls Space)) (fun _ _ => eq_refl)) by (cbn; lia).
  rewrite rep_cls_total; [|done|done].
  eexists. split; [reflexivity|].
  unfold match_len, set_group; cbn [before].
  rewrite length_app, length_rev, munch_length_take. lia.
Qed.

Lemma blank_rule_flag s :
  starts_in is_space s = false -> blank_rule true s = blank_rule false s.
Proof. destruct s as [|c s]; [done|]. cbn [starts_in blank_rule]. by intros ->. Qed.

Lemma blank_rule_run w rest :
  Forall (fun c => is_space c = true) w ->
  blank_rule true (w ++ rest) = blank_rule true rest.
Proof.
  induction 1 as [|c w Hc _ IH]; [done|].
  cbn [app blank_rule]. by rewrite Hc.
Qed.

(** The substitution for runs of whitespace is the direct rule. *)
Lemma blank_scan n :
  forall s bef,
    (length s <= n)%nat ->
    sub_scan whitespace_re (fun _ => u " ") bef s 0 = blank_rule false s.
Proof.
  induction n as [|n IH]; intros s bef Hlen.
  - destruct s; [|simpl in Hlen; lia]. cbn [sub_scan].
    by rewrite whitespace_match_none.
  - destruct s as [|c s']; [cbn [sub_scan]; by rewrite whitespace_match_none|].
    cbn [length] in Hlen. cbn [sub_scan blank_rule].
    destruct (is_space c) eqn:Hc.
    + destruct (whitespace_match_some bef (c :: s')) as (m & -> & ->);
        [cbn [munch]; rewrite Hc; lia|].
      cbn [munch]. rewrite Hc. change (u " ") with [32]. cbn [app]. f_equal.
      set (k := munch is_space s').
      transitivity (sub_scan whitespace_re (fun _ => [32])
                      (rev (take k s') ++ c :: bef) (drop k s') 0).
      { rewrite <- sub_scan_skip, take_drop. unfold k. by rewrite munch_length_take. }
      change [32] with (u " ").
      rewrite IH by (rewrite length_drop; lia).
      rewrite <- (take_drop k s') at 2.
      rewrite blank_rule_run by apply munch_take.
      symmetry. apply blank_rule_flag, munch_drop.
    + rewrite whitespace_match_none by (cbn [munch]; by rewrite Hc).
      by rewrite IH by lia.
Qed.

Lemma whitespace_sub_rule s :
  re_sub whitespace_re (fun _ => u " ") s = blank_rule false s.
Proof. unfold re_sub. by apply (blank_scan (length s)). Qed.

(** *** Normal texts *)

Lemma readable_space c :
  readable c = true -> is_space c = false -> (33 <=? c) && (c <=? 126) = true.
Proof.
  intros Hr Hs.
  assert (Hn : c <> 10 /\ c <> 13 /\ c <> 9 /\ c <> 32).
  { repeat split; intros E; rewrite E in Hs; discriminate. }
  unfold readable in Hr. cbn [existsb] in Hr. bool_to_prop Hr.
  apply andb_true_iff. split; apply Z.leb_le; lia.
Qed.

Lemma printable_space c :
  (32 <=? c) && (c <=? 126) = true -> is_space c = (c =? 32).
Proof.
  intros H. bool_to_prop H.
  destruct (Z.eqb_spec c 32) as [E|Hc]; [by rewrite E|].
  apply not_true_is_false. intros Hs. unfold is_space in Hs.
  bool_to_prop Hs. lia.
Qed.

Lemma blank_rule_printable s :
  Forall (fun c => readable c = true) s ->
  forall flag,
    Forall (fun c => (32 <=? c) && (c <=? 126) = true) (blank_rule flag s).
Proof.
  induction 1 as [|c s Hc _ IH]; intros flag; [constructor|].
  cbn [blank_rule]. destruct (is_space c) eqn:Hs.
  - destruct flag; [apply IH | constructor; [done | apply IH]].
  - constructor; [|apply IH].
    apply readable_space in Hc; [|done].
    apply andb_true_iff in Hc as [H1 H2]. apply Z.leb_le in H1, H2.
    apply andb_true_iff. split; apply Z.leb_le; lia.
Qed.

Lemma blank_rule_single s :
  forall flag,
    double_space (blank_rule flag s) = false /\
    (flag = true -> munch (Z.eqb 32) (blank_rule flag s) = O).
Proof.
  induction s as [|c s IH]; intros flag; [done|].
  cbn [blank_rule]. destruct (is_space c) eqn:Hs.
  - destruct flag.
    + apply IH.
    + destruct (IH true) as [Hd Hm]. split; [|done].
      apply double_space_cons; [done|]. right. by apply Hm.
  - destruct (IH false) as [Hd _].
    assert (Hc : c <> 32) by (by intros ->).
    split.
    + apply double_space_cons; [done | by left].
    + intros _. cbn [munch]. by destruct (Z.eqb_spec 32 c).
Qed.

Lemma double_space_drop n s : double_space s = false -> double_space (drop n s) = false.
Proof.
  revert s. induction n as [|n IH]; intros s Hd; [done|].
  destruct s as [|a s]; [done|]. cbn [drop]. apply IH.
  cbn [double_space] in Hd. destruct s as [|b s]; [done|].
  by apply orb_false_iff in Hd as [_ Hd].
Qed.

Lemma double_space_take n s : double_space s = false -> double_space (take n s) = false.
Proof.
  revert s. induction n as [|n IH]; intros s Hd; [done|].
  destruct s as [|a s]; [done|]. cbn [take].
  cbn [double_space] in Hd. destruct s as [|b s]; [by destruct n|].
  apply orb_false_iff in Hd as [Hab Hd].
  specialize (IH (b :: s) Hd).
  destruct n as [|n]; [done|]. cbn [take] in IH |- *. cbn [double_space].
  destruct (take n s) eqn:Ht; cbn [double_space] in IH |- *;
    rewrite Hab; [done | exact IH].
Qed.

Lemma in_take (c : Z) n s : In c (take n s) -> In c s.
Proof. intros H. rewrite <- (take_drop n s). apply in_or_app. by left. Qed.

Lemma in_drop (c : Z) n s : In c (drop n s) -> In c s.
Proof. intros H. rewrite <- (take_drop n s). apply in_or_app. by right. Qed.

Lemma rstrip_take s : rstrip s = take (length s - munch is_space (rev s)) s.
Proof. unfold rstrip, lstrip. by rewrite skipn_rev, rev_involutive. Qed.

Lemma starts_in_take (p : Z -> bool) n s :
  starts_in p s = false -> starts_in p (take n s) = false.
Proof. destruct n, s; done. Qed.

Lemma starts_space_32 s : starts_in is_space s = false -> starts_in (Z.eqb 32) s = false.
Proof.
  destruct s as [|c s]; [done|]. cbn [starts_in].
  destruct (Z.eqb_spec 32 c) as [<-|]; done.
Qed.

Lemma strip_normal s :
  Forall (fun c => (32 <=? c) && (c <=? 126) = true) s ->
  double_space s = false ->
  normal (strip s) = true.
Proof.
  intros Hp Hd. unfold normal, strip.
  repeat (apply andb_true_iff; split).
  - apply forallb_forall. intros c Hc.
    rewrite rstrip_take in Hc. apply in_take in Hc. apply in_drop in Hc.
    rewrite List.Forall_forall in Hp. by apply Hp.
  - apply negb_true_iff. rewrite rstrip_take.
    apply starts_in_take, starts_space_32, munch_drop.
  - apply negb_true_iff. unfold rstrip. rewrite rev_involutive.
    apply starts_space_32, munch_drop.
  - apply negb_true_iff. rewrite rstrip_take.
    by apply double_space_take, double_space_drop.
Qed.

Lemma join_readable parts :
  Forall (Forall (fun c => readable c = true)) parts ->
  Forall (fun c => readable c = true) (join (u " ") parts).
Proof.
  induction 1 as [|p ps Hp Hps IH]; [constructor|].
  cbn [join]. destruct ps as [|q ps]; [done|].
  apply Forall_app. split; [done|]. apply Forall_app. split; [|done].
  by repeat constructor.
Qed.

(** The end of both scans gives a normal text. *)
Lemma finish_normal parts :
  Forall (Forall (fun c => readable c = true)) parts ->
  normal (strip (re_sub whitespace_re (fun _ => u " ") (join (u " ") parts))) = true.
Proof.
  intros Hp. rewrite whitespace_sub_rule. apply strip_normal.
  - by apply blank_rule_printable, join_readable.
  - apply blank_rule_single.
Qed.

(** *** The two scans *)

Lemma pairs_ind (P : bytes -> Prop) :
  P [] -> (forall b, P [b]) ->
  (forall b0 b1 rest, P rest -> P (b0 :: b1 :: rest)) ->
  forall data, P data.
Proof.
  intros H0 H1 H2 data.
  enough (H : P data /\ forall b, P (b :: data)) by apply H.
  induction data as [|b data [IH1 IH2]]; [by split|].
  split; [apply IH2|]. intros b0. by apply H2.
Qed.

Lemma decode_loop_readable data :
  forall parts cur,
    Forall (Forall (fun c => readable c = true)) parts ->
    Forall (fun c => readable c = true) cur ->
    Forall (Forall (fun c => readable c = true)) (fst (decode_loop data parts cur)) /\
    Forall (fun c => readable c = true) (snd (decode_loop data parts cur)).
Proof.
  induction data as [|b|b0 b1 rest IH] using pairs_ind; intros parts cur Hp Hc;
    [by split | by split |].
  cbn [decode_loop]. cbv zeta.
  destruct (readable (b0 + Z.shiftl b1 8)) eqn:Hr.
  - apply IH; [done|]. apply Forall_app. split; [done | by repeat constructor].
  - destruct (negb (is_nil cur)); [|by apply IH].
    apply IH; [|constructor].
    destruct (3 <=? length cur)%nat; [|done].
    apply Forall_app. split; [done | by repeat constructor].
Qed.

Lemma ascii_loop_readable data :
  forall parts cur,
    Forall (Forall (fun c => readable c = true)) parts ->
    Forall (fun c => readable c = true) cur ->
    Forall (Forall (fun c => readable c = true)) (fst (ascii_loop data parts cur)) /\
    Forall (fun c => readable c = true) (snd (ascii_loop data parts cur)).
Proof.
  induction data as [|b rest IH]; intros parts cur Hp Hc; [by split|].
  cbn [ascii_loop]. cbv zeta.
  destruct (readable b) eqn:Hr.
  - apply IH; [done|]. apply Forall_app. split; [done | by repeat constructor].
  - destruct (negb (is_nil cur)); [|by apply IH].
    apply IH; [|constructor].
    destruct (5 <=? length cur)%nat; [|done].
    apply Forall_app. split; [done | by repeat constructor].
Qed.

Lemma last_segment_readable (least : nat) parts cur :
  Forall (Forall (fun c => readable c = true)) parts ->
  Forall (fun c => readable c = true) cur ->
  Forall (Forall (fun c => readable c = true))
    (if negb (is_nil cur)
     then if (least <=? length cur)%nat then (parts ++ [cur])%list else parts
     else parts).
Proof.
  intros Hp Hc. destruct (negb (is_nil cur)); [|done].
  destruct (least <=? length cur)%nat; [|done].
  apply Forall_app. split; [done | by repeat constructor].
Qed.

Lemma decode_text_normal data : normal (_decode_text data) = true.
Proof.
  unfold _decode_text.
  destruct (decode_loop_readable data [] []) as [Hp Hc]; [constructor | constructor |].
  destruct (decode_loop data [] []) as [parts cur]. cbn [fst snd] in Hp, Hc. cbv zeta.
  by apply finish_normal, last_segment_readable.
Qed.

Lemma extract_ascii_text_normal data : normal (_extract_ascii_text data) = true.
Proof.
  unfold _extract_ascii_text.
  destruct (ascii_loop_readable data [] []) as [Hp Hc]; [constructor | constructor |].
  destruct (ascii_loop data [] []) as [parts cur]. cbn [fst snd] in Hp, Hc. cbv zeta.
  by apply finish_normal, last_segment_readable.
Qed.

Lemma extracted_text_normal_readable data : normal (_extract_readable_text data) = true.
Proof.
  unfold _extract_readable_text. cbv zeta.
  destruct (_ && _); [apply decode_text_normal|].
  destruct (negb _); [apply extract_ascii_text_normal | reflexivity].
Qed.

(** Whatever the bytes, the text each of the two scans extracts, and so the
    text [_extract_readable_text] returns, is normal: it holds only
    printable ASCII characters, so no tab and no line break of the document
    is left in it, it neither starts nor ends with a space, and it holds no
    two spaces in a row. *)
Theorem extracted_text_normal (data : bytes) :
  normal (_decode_text data) = true
  /\ normal (_extract_ascii_text data) = true
  /\ normal (_extract_readable_text data) = true.
Proof.
  split; [apply decode_text_normal|]. split; [apply extract_ascii_text_normal|].
  apply extracted_text_normal_readable.
Qed.

(** *** Normal texts come back *)

Lemma normal_parts s :
  normal s = true ->
  Forall (fun c => (32 <=? c) && (c <=? 126) = true) s /\
  starts_in (Z.eqb 32) s = false /\ starts_in (Z.eqb 32) (rev s) = false /\
  double_space s = false.
Proof.
  unfold normal. intros H.
  apply andb_true_iff in H as [H H4]. apply andb_true_iff in H as [H H3].
  apply andb_true_iff in H as [H1 H2].
  apply negb_true_iff in H2, H3, H4.
  rewrite forallb_forall in H1. by rewrite List.Forall_forall.
Qed.

Lemma printable_readable c : (32 <=? c) && (c <=? 126) = true -> readable c = true.
Proof. intros H. unfold readable. by rewrite H. Qed.

Lemma ascii_loop_run w :
  Forall (fun c => (32 <=? c) && (c <=? 126) = true) w ->
  forall rest parts cur,
    ascii_loop (w ++ rest) parts cur = ascii_loop rest parts (cur ++ w).
Proof.
  induction 1 as [|c w Hc _ IH]; intros rest parts cur.
  - by rewrite app_nil_r.
  - cbn [app ascii_loop]. rewrite (printable_readable c Hc), IH.
    by rewrite <- app_assoc.
Qed.

Lemma code_unit c : c mod 256 + Z.shiftl (c / 256) 8 = c.
Proof.
  rewrite Z.shiftl_mul_pow2 by lia. change (2 ^ 8) with 256.
  pose proof (Z.div_mod c 256). lia.
Qed.

Lemma decode_loop_run w :
  Forall (fun c => (32 <=? c) && (c <=? 126) = true) w ->
  forall rest parts cur,
    decode_loop (utf16le w ++ rest) parts cur = decode_loop rest parts (cur ++ w).
Proof.
  induction 1 as [|c w Hc _ IH]; intros rest parts cur.
  - by rewrite app_nil_r.
  - cbn [utf16le flat_map app decode_loop]. cbv zeta.
    rewrite code_unit, (printable_readable c Hc).
    fold (utf16le w). rewrite IH. by rewrite <- app_assoc.
Qed.

Lemma blank_rule_id s :
  Forall (fun c => (32 <=? c) && (c <=? 126) = true) s ->
  double_space s = false ->
  forall flag,
    flag && starts_in (Z.eqb 32) s = false -> blank_rule flag s = s.
Proof.
  induction 1 as [|c s Hc _ IH]; intros Hd flag Hf; [done|].
  cbn [blank_rule starts_in] in *. rewrite (printable_space c Hc).
  assert (Hd' : double_space s = false).
  { cbn [double_space] in Hd. destruct s as [|b s]; [done|].
    by apply orb_false_iff in Hd as [_ Hd]. }
  destruct (Z.eqb_spec c 32) as [->|Hn].
  - cbn [Z.eqb Pos.eqb] in Hf. rewrite andb_true_r in Hf. subst flag.
    f_equal. apply IH; [done|]. cbn [andb].
    cbn [double_space] in Hd. destruct s as [|b s]; [done|].
    apply orb_false_iff in Hd as [Hb _]. cbn [Z.eqb Pos.eqb andb] in Hb.
    cbn [starts_in]. by rewrite Z.eqb_sym.
  - f_equal. by apply IH.
Qed.

Lemma lstrip_id s :
  Forall (fun c => (32 <=? c) && (c <=? 126) = true) s ->
  starts_in (Z.eqb 32) s = false -> lstrip s = s.
Proof.
  intros Hp Hs. unfold lstrip. rewrite munch_stop; [done|].
  destruct Hp as [|c s Hc _]; [done|]. cbn [starts_in] in *.
  by rewrite (printable_space c Hc), Z.eqb_sym.
Qed.

Lemma strip_id s :
  Forall (fun c => (32 <=? c) && (c <=? 126) = true) s ->
  starts_in (Z.eqb 32) s = false -> starts_in (Z.eqb 32) (rev s) = false ->
  strip s = s.
Proof.
  intros Hp H1 H2. unfold strip, rstrip.
  rewrite (lstrip_id s Hp H1), (lstrip_id (rev s)); [apply rev_involutive | | done].
  by apply Forall_rev.
Qed.

Lemma finish_id s :
  normal s = true ->
  strip (re_sub whitespace_re (fun _ => u " ") s) = s.
Proof.
  intros H. apply normal_parts in H as (Hp & H1 & H2 & Hd).
  rewrite whitespace_sub_rule, blank_rule_id by done.
  by apply strip_id.
Qed.

Lemma ascii_loop_utf16 w :
  Forall (fun c => (32 <=? c) && (c <=? 126) = true) w ->
  forall rest parts,
    ascii_loop (utf16le w ++ rest) parts [] = ascii_loop rest parts [].
Proof.
  induction 1 as [|c w Hc _ IH]; intros rest parts; [done|].
  assert (H0 : c / 256 = 0 /\ c mod 256 = c).
  { bool_to_prop Hc. split; [apply Z.div_small | apply Z.mod_small]; lia. }
  destruct H0 as [H0 Hm].
  cbn [utf16le flat_map app]. rewrite H0, Hm. cbn [ascii_loop]. cbv zeta.
  rewrite (printable_readable c Hc). cbn [app]. change (readable 0) with false.
  cbn [is_nil negb length Nat.leb]. fold (utf16le w). apply IH.
Qed.

Lemma finish_nil :
  strip (re_sub whitespace_re (fun _ => u " ") (join (u " ") [])) = [].
Proof. by rewrite whitespace_sub_rule. Qed.

(** Two printable ASCII bytes read as one UTF-16LE code unit are not
    readable, so the UTF-16LE scan finds nothing in ASCII text. *)
Lemma decode_loop_ascii s :
  Forall (fun c => (32 <=? c) && (c <=? 126) = true) s ->
  forall parts, decode_loop s parts [] = (parts, []).
Proof.
  induction s as [|b|b0 b1 rest IH] using pairs_ind; intros Hp parts; [done | done |].
  inversion Hp as [|? ? H0 Hp1]; subst. inversion Hp1 as [|? ? H1 Hp2]; subst.
  cbn [decode_loop]. cbv zeta.
  assert (Hr : readable (b0 + Z.shiftl b1 8) = false).
  { apply not_true_is_false. intros H. unfold readable in H. cbn [existsb] in H.
    rewrite Z.shiftl_mul_pow2 in H by lia. change (2 ^ 8) with 256 in H.
    bool_to_prop H0. bool_to_prop H1. bool_to_prop H. lia. }
  rewrite Hr. cbn [is_nil negb]. by apply IH.
Qed.

(** A normal text comes back from the scan that fits its encoding when it
    is long enough for that scan: five characters as ASCII bytes, three as
    UTF-16LE code units. [_extract_readable_text] gives an ASCII text of
    five characters or more back, and a UTF-16LE text when it has more than
    ten characters; a UTF-16LE text of ten or fewer characters is lost, since
    the UTF-16LE scan's result is then refused and the ASCII scan finds no
    run of five readable bytes among the zero high bytes. *)
Theorem normal_text_round_trip (s : str) :
  normal s = true ->
  ((5 <= length s)%nat -> _extract_ascii_text s = s)
  /\ ((3 <= length s)%nat -> _decode_text (utf16le s) = s)
  /\ ((5 <= length s)%nat -> _extract_readable_text s = s)
  /\ ((11 <= length s)%nat -> _extract_readable_text (utf16le s) = s)
  /\ ((length s <= 10)%nat -> _extract_readable_text (utf16le s) = []).
Proof.
  intros Hn. pose proof (normal_parts s Hn) as (Hp & _).
  assert (Ha : (5 <= length s)%nat -> _extract_ascii_text s = s).
  { intros Hl. unfold _extract_ascii_text.
    rewrite <- (app_nil_r s) at 1. rewrite (ascii_loop_run s Hp). cbn [ascii_loop app].
    cbv zeta. destruct s as [|c s']; [simpl in Hl; lia|]. cbn [is_nil negb].
    replace (5 <=? length (c :: s'))%nat with true by (symmetry; by apply Nat.leb_le).
    cbn [app join]. by apply finish_id. }
  assert (Hdec : forall parts cur, decode_loop (utf16le s) parts cur = (parts, (cur ++ s)%list)).
  { intros parts cur. rewrite <- (app_nil_r (utf16le s)).
    by rewrite (decode_loop_run s Hp). }
  assert (Hd : (3 <= length s)%nat -> _decode_text (utf16le s) = s).
  { intros Hl. unfold _decode_text. rewrite Hdec. cbn [app]. cbv zeta.
    destruct s as [|c s']; [simpl in Hl; lia|]. cbn [is_nil negb].
    replace (3 <=? length (c :: s'))%nat with true by (symmetry; by apply Nat.leb_le).
    cbn [app join]. by apply finish_id. }
  split; [exact Ha|]. split; [exact Hd|]. split; [|split].
  - intros Hl. unfold _extract_readable_text. cbv zeta.
    assert (Hnone : _decode_text s = []).
    { unfold _decode_text. rewrite (decode_loop_ascii s Hp). cbv zeta.
      cbn [is_nil negb]. apply finish_nil. }
    rewrite Hnone. cbn [is_nil negb andb]. rewrite Ha by done.
    destruct s; [simpl in Hl; lia | done].
  - intros Hl. unfold _extract_readable_text. cbv zeta.
    rewrite Hd by lia.
    replace (10 <? length s)%nat with true by (symmetry; apply Nat.ltb_lt; lia).
    by destruct s.
  - intros Hl. unfold _extract_readable_text. cbv zeta.
    assert (Hshort : negb (is_nil (_decode_text (utf16le s)))
                     && (10 <? length (_decode_text (utf16le s)))%nat = false).
    { destruct (Nat.le_gt_cases 3 (length s)) as [H3|H3].
      - rewrite Hd by done.
        replace (10 <? length s)%nat with false by (symmetry; apply Nat.ltb_ge; lia).
        apply andb_false_r.
      - unfold _decode_text. rewrite Hdec. cbn [app]. cbv zeta.
        replace (3 <=? length s)%nat with false by (symmetry; apply Nat.leb_gt; lia).
        by destruct (negb (is_nil s)). }
    rewrite Hshort.
    unfold _extract_ascii_text.
    rewrite <- (app_nil_r (utf16le s)), (ascii_loop_utf16 s Hp). reflexivity.
Qed.

(** *** Text outside ASCII *)

Lemma cyrillic_unit c :
  cyrillic c = true ->
  c / 256 = 4 /\ readable c = false /\ readable 4 = false.
Proof.
  intros Hc. unfold cyrillic in Hc. bool_to_prop Hc.
  split; [|split; [|reflexivity]].
  - symmetry. apply (Z.div_unique c 256 4 (c - 1024)); lia.
  - apply not_true_is_false. intros H. unfold readable in H. cbn [existsb] in H.
    bool_to_prop H. lia.
Qed.

Lemma decode_loop_cyrillic s :
  Forall (fun c => cyrillic c = true) s ->
  forall rest parts, decode_loop (utf16le s ++ rest) parts [] = decode_loop rest parts [].
Proof.
  induction 1 as [|c s Hc _ IH]; intros rest parts; [done|].
  destruct (cyrillic_unit c Hc) as (_ & Hr & _).
  cbn [utf16le flat_map app decode_loop]. cbv zeta.
  rewrite code_unit, Hr. cbn [is_nil negb]. fold (utf16le s). apply IH.
Qed.

Lemma ascii_loop_cyrillic s :
  Forall (fun c => cyrillic c = true) s ->
  forall rest parts, ascii_loop (utf16le s ++ rest) parts [] = ascii_loop rest parts [].
Proof.
  induction 1 as [|c s Hc _ IH]; intros rest parts; [done|].
  destruct (cyrillic_unit c Hc) as (Hh & _ & H4).
  cbn [utf16le flat_map app]. rewrite Hh. cbn [ascii_loop]. cbv zeta.
  fold (utf16le s). destruct (readable (c mod 256)).
  - cbn [app]. rewrite H4. cbn [is_nil negb length Nat.leb]. apply IH.
  - cbn [is_nil negb]. rewrite H4. cbn [is_nil negb]. apply IH.
Qed.

(** A text made of Cyrillic letters only, stored as UTF-16LE, gives the
    empty text: no code unit of it is readable for the UTF-16LE scan, and
    for the ASCII scan every low byte stands alone before the high byte 4,
    so no run reaches five bytes. Both scans keep printable ASCII only. *)
Theorem cyrillic_text_is_lost (s : str) :
  Forall (fun c => cyrillic c = true) s ->
  _decode_text (utf16le s) = []
  /\ _extract_ascii_text (utf16le s) = []
  /\ _extract_readable_text (utf16le s) = [].
Proof.
  intros Hs.
  assert (Hd : _decode_text (utf16le s) = []).
  { unfold _decode_text.
    rewrite <- (app_nil_r (utf16le s)), (decode_loop_cyrillic s Hs).
    cbn [decode_loop]. cbv zeta. cbn [is_nil negb]. apply finish_nil. }
  assert (Ha : _extract_ascii_text (utf16le s) = []).
  { unfold _extract_ascii_text.
    rewrite <- (app_nil_r (utf16le s)), (ascii_loop_cyrillic s Hs).
    cbn [ascii_loop]. cbv zeta. cbn [is_nil negb]. apply finish_nil. }
  split; [exact Hd|]. split; [exact Ha|].
  unfold _extract_readable_text. cbv zeta. by rewrite Hd, Ha.
Qed.

(** *** Short data, the table stream and the fallback *)

Lemma ascii_loop_short data :
  forall cur,
    (length cur + length data < 5)%nat ->
    exists cur', ascii_loop data [] cur = ([], cur') /\ (length cur' < 5)%nat.
Proof.
  induction data as [|b rest IH]; intros cur Hl.
  - exists cur. split; [done|]. cbn [length] in Hl. lia.
  - cbn [ascii_loop]. cbv zeta. cbn [length] in Hl.
    destruct (readable b).
    + apply IH. rewrite length_app. cbn [length]. lia.
    + replace (5 <=? length cur)%nat with false by (symmetry; apply Nat.leb_gt; lia).
      destruct (negb (is_nil cur)); apply IH; cbn [length]; lia.
Qed.

Lemma decode_loop_short data :
  forall cur,
    (2 * length cur + length data < 6)%nat ->
    exists cur', decode_loop data [] cur = ([], cur') /\ (length cur' < 3)%nat.
Proof.
  induction data as [|b|b0 b1 rest IH] using pairs_ind; intros cur Hl.
  - exists cur. split; [done|]. cbn [length] in Hl. lia.
  - exists cur. split; [done|]. cbn [length] in Hl. lia.
  - cbn [decode_loop]. cbv zeta. cbn [length] in Hl.
    destruct (readable _).
    + apply IH. rewrite length_app. cbn [length]. lia.
    + replace (3 <=? length cur)%nat with false by (symmetry; apply Nat.leb_gt; lia).
      destruct (negb (is_nil cur)); apply IH; cbn [length]; lia.
Qed.

Lemma extract_ascii_text_short data :
  (length data < 5)%nat -> _extract_ascii_text data = [].
Proof.
  intros Hl. unfold _extract_ascii_text.
  destruct (ascii_loop_short data []) as (cur & -> & Hc); [cbn [length]; lia|].
  cbv zeta.
  replace (5 <=? length cur)%nat with false by (symmetry; apply Nat.leb_gt; lia).
  destruct (negb (is_nil cur)); apply finish_nil.
Qed.

Lemma decode_text_short data :
  (length data < 6)%nat -> _decode_text data = [].
Proof.
  intros Hl. unfold _decode_text.
  destruct (decode_loop_short data []) as (cur & -> & Hc); [cbn [length]; lia|].
  cbv zeta.
  replace (3 <=? length cur)%nat with false by (symmetry; apply Nat.leb_gt; lia).
  destruct (negb (is_nil cur)); apply finish_nil.
Qed.

Lemma decode_loop_odd data :
  Nat.even (length data) = true ->
  forall b parts cur,
    decode_loop (data ++ [b]) parts cur = decode_loop data parts cur.
Proof.
  induction data as [|b'|b0 b1 rest IH] using pairs_ind; intros He b parts cur;
    [done | done |].
  cbn [app decode_loop]. cbv zeta. cbn [length Nat.even] in He.
  by rewrite !IH.
Qed.

(** The edge cases of the two scans. Fewer than five bytes give no ASCII
    text and fewer than six bytes give no UTF-16LE text, so data of fewer
    than five bytes, the empty data included, gives the empty text; and the
    UTF-16LE scan never reads the last byte of data of odd length. *)
Theorem short_data_gives_no_text :
  (forall data : bytes, (length data < 5)%nat -> _extract_ascii_text data = [])
  /\ (forall data : bytes, (length data < 6)%nat -> _decode_text data = [])
  /\ (forall data : bytes, (length data < 5)%nat -> _extract_readable_text data = [])
  /\ (forall (data : bytes) (b : Z),
        Nat.even (length data) = true -> _decode_text (data ++ [b]) = _decode_text data).
Proof.
  split; [exact extract_ascii_text_short|]. split; [exact decode_text_short|].
  split.
  - intros data Hl. unfold _extract_readable_text. cbv zeta.
    rewrite decode_text_short by lia. cbn [is_nil negb andb].
    by rewrite extract_ascii_text_short.
  - intros data b He. unfold _decode_text. by rewrite decode_loop_odd.
Qed.

(** Whatever the compound file holds, the text taken from the WordDocument
    stream is the readable text of that stream alone: the table stream is
    looked for and opened, but whether it exists, opens or fails, and what
    it holds, makes no difference to the result. *)
Theorem word_document_text_ignores_table (ole : OleFileIO) (word_data : bytes) :
  _extract_text_from_word_document ole word_data = _extract_readable_text word_data.
Proof.
  unfold _extract_text_from_word_document. cbv zeta.
  destruct (exists_ ole "1Table" || exists_ ole "0Table");
    [destruct (openstream ole _)|];
    destruct (_extract_readable_text word_data); reflexivity.
Qed.

Lemma fallback_loop_lines ole paths :
  forall all_text,
    Forall (fun t => normal t = true /\ (20 < length t)%nat) all_text ->
    Forall (fun t => normal t = true /\ (20 < length t)%nat)
      (fallback_loop ole paths all_text).
Proof.
  induction paths as [|p rest IH]; intros all_text Ha; [done|].
  cbn [fallback_loop]. destruct (openstream ole p) as [data|]; [|by apply IH].
  destruct (length data <? 100)%nat; [by apply IH|]. cbv zeta.
  destruct (negb _ && (20 <? _)%nat) eqn:Ht; [|by apply IH].
  apply IH, Forall_app. split; [done|]. repeat constructor.
  - apply extracted_text_normal_readable.
  - apply andb_true_iff in Ht as [_ Ht]. by apply Nat.ltb_lt.
Qed.

(** The fallback text is made of lines, one for each stream that can be
    opened, holds at least 100 bytes and gives a readable text of more than
    twenty characters; each line is that text, so it is normal. Streams
    that fail to open are passed over. *)
Theorem fallback_text_lines (ole : OleFileIO) :
  exists texts : list str,
    _extract_fallback_text ole = join [10] texts
    /\ Forall (fun t => normal t = true /\ (20 < length t)%nat) texts
    /\ (length texts <= length (listdir ole))%nat.
Proof.
  exists (fallback_loop ole (listdir ole) []).
  split; [done|]. split; [by apply fallback_loop_lines|].
  enough (H : forall paths all_text,
             (length (fallback_loop ole paths all_text)
              <= length all_text + length paths)%nat) by apply (H (listdir ole) []).
  induction paths as [|p rest IH]; intros all_text; cbn [fallback_loop length]; [lia|].
  destruct (openstream ole p) as [data|]; [|specialize (IH all_text); lia].
  destruct (length data <? 100)%nat; [specialize (IH all_text); lia|]. cbv zeta.
  destruct (negb _ && (20 <? _)%nat); [|specialize (IH all_text); lia].
  specialize (IH (all_text ++ [_extract_readable_text data])%list).
  rewrite length_app in IH. cbn [length] in IH. lia.
Qed.

(** *** Runs of readable bytes *)

Lemma ascii_loop_gap gap :
  gap <> [] -> Forall (fun b => readable b = false) gap ->
  forall rest parts cur,
    ascii_loop (gap ++ rest) parts cur =
    ascii_loop rest
      (if negb (is_nil cur)
       then if (5 <=? length cur)%nat then (parts ++ [cur])%list else parts
       else parts) [].
Proof.
  intros Hne Hg. induction Hg as [|b gap Hb Hg IH]; [done|]. clear Hne.
  intros rest parts cur. cbn [app ascii_loop]. cbv zeta. rewrite Hb.
  destruct gap as [|b' gap'].
  - destruct cur; reflexivity.
  - destruct cur as [|x cur']; cbn [is_nil negb]; rewrite IH by done; reflexivity.
Qed.

Lemma double_space_app a c :
  double_space a = false -> starts_in (Z.eqb 32) (rev a) = false ->
  double_space c = false -> starts_in (Z.eqb 32) c = false ->
  double_space (a ++ 32 :: c) = false.
Proof.
  intros Ha Hra Hc Hsc. induction a as [|x a IH].
  - cbn [app]. apply double_space_cons; [done|]. right.
    destruct c as [|y c]; [done|]. cbn [starts_in] in Hsc. cbn [munch]. by rewrite Hsc.
  - cbn [app]. destruct a as [|y a'].
    + cbn [app]. cbn [rev app starts_in] in Hra.
      apply double_space_cons; [by apply IH|]. left. intros ->. done.
    + cbn [double_space] in Ha. apply orb_false_iff in Ha as [Hxy Ha].
      assert (Hra' : starts_in (Z.eqb 32) (rev (y :: a')) = false).
      { cbn [rev] in Hra |- *. destruct (rev a' ++ [y])%list eqn:E;
          [by destruct (rev a') | exact Hra]. }
      specialize (IH Ha Hra'). cbn [app] in IH |- *.
      cbn [double_space]. rewrite Hxy. exact IH.
Qed.

Lemma normal_app a c :
  a <> [] -> c <> [] -> normal a = true -> normal c = true ->
  normal (a ++ 32 :: c) = true.
Proof.
  intros Hane Hcne Ha Hc.
  apply normal_parts in Ha as (Hpa & Hsa & Hra & Hda).
  apply normal_parts in Hc as (Hpc & Hsc & Hrc & Hdc).
  unfold normal. repeat (apply andb_true_iff; split).
  - apply forallb_forall. apply List.Forall_forall.
    apply Forall_app. split; [done|]. by constructor.
  - apply negb_true_iff. by destruct a.
  - apply negb_true_iff. rewrite rev_app_distr. cbn [rev].
    destruct (rev c) as [|y rc] eqn:E; [|exact Hrc].
    apply (f_equal (@length Z)) in E. rewrite length_rev in E. by destruct c.
  - apply negb_true_iff. by apply double_space_app.
Qed.

(** The ASCII scan on two normal texts with bytes between them that are
    not readable: when both texts have five characters or more, the result
    is the two texts with one space between them, however many bytes
    separate them; a first text of fewer than five characters is dropped. *)
Theorem readable_runs_joined_by_space (a gap c : bytes) :
  normal a = true -> normal c = true ->
  gap <> [] -> Forall (fun b => readable b = false) gap ->
  (5 <= length c)%nat ->
  ((5 <= length a)%nat -> _extract_ascii_text (a ++ gap ++ c) = (a ++ 32 :: c)%list)
  /\ ((length a < 5)%nat -> _extract_ascii_text (a ++ gap ++ c) = c).
Proof.
  intros Ha Hc Hne Hg Hlc.
  pose proof (normal_parts a Ha) as (Hpa & _).
  pose proof (normal_parts c Hc) as (Hpc & _).
  assert (Hloop : ascii_loop (a ++ gap ++ c) [] [] =
            (if negb (is_nil a)
             then if (5 <=? length a)%nat then [a] else []
             else [], c)).
  { rewrite (ascii_loop_run a Hpa). cbn [app].
    rewrite (ascii_loop_gap gap Hne Hg).
    rewrite <- (app_nil_r c) at 1. by rewrite (ascii_loop_run c Hpc). }
  assert (Hc5 : (5 <=? length c)%nat = true) by (by apply Nat.leb_le).
  assert (Hcne : negb (is_nil c) = true) by (destruct c; [simpl in Hlc; lia | done]).
  unfold _extract_ascii_text. rewrite Hloop. cbv zeta. rewrite Hcne, Hc5.
  split; intros Hla.
  - replace (5 <=? length a)%nat with true by (symmetry; by apply Nat.leb_le).
    replace (negb (is_nil a)) with true by (destruct a; [simpl in Hla; lia | done]).
    cbn [app join]. change (u " ") with [32]. cbn [app].
    apply finish_id, normal_app; try done.
    + destruct a; [simpl in Hla; lia | done].
    + destruct c; [simpl in Hlc; lia | done].
  - replace (5 <=? length a)%nat with false by (symmetry; apply Nat.leb_gt; lia).
    replace (if negb (is_nil a) then [] else []) with (@nil str) by (by destruct a).
    cbn [app join]. by apply finish_id.
Qed.

(** ** Running the converter on its own output *)

Lemma numbered_rule_marker pw ds sep ws rest :
  ds <> [] -> (length ds <= 3)%nat -> Forall (fun c => is_digit c = true) ds ->
  existsb (Z.eqb sep) (u ".)") = true ->
  Forall (fun c => is_space c = true) ws -> starts_in is_space rest = false ->
  numbered_rule pw true (ds ++ sep :: ws ++ rest) 0
  = ((if sep =? 46 then pw else []) ++ ds ++ u "." ++ ws
       ++ numbered_rule pw false rest 0)%list.
Proof.
  intros Hne Hlen Hds Hsep Hws Hrest.
  pose proof (marker_shape ds sep ws rest Hne Hlen Hds Hsep Hws Hrest) as Hm.
  destruct ds as [|d ds'] eqn:Eds; [done|]. rewrite <- Eds in *.
  assert (Hcons : (ds ++ sep :: ws ++ rest)%list = d :: (ds' ++ sep :: ws ++ rest)%list)
    by (by rewrite Eds).
  rewrite Hcons. cbn [numbered_rule]. rewrite <- Hcons.
  unfold marker_here. rewrite Hm. cbn [app length].
  do 4 f_equal.
  replace (ds' ++ sep :: ws ++ rest)%list with ((ds' ++ sep :: ws) ++ rest)%list
    by (by rewrite <- app_assoc).
  match goal with
  | |- numbered_rule _ _ _ ?n = _ =>
      replace n with (length (ds' ++ sep :: ws))
        by (rewrite Eds, length_app; cbn [length]; lia)
  end.
  apply numbered_rule_skip. by destruct ds'.
Qed.

Lemma line_digit_suffix (p : str) :
  forall b s, line_digit b (p ++ s) = false -> line_digit false s = false.
Proof.
  induction p as [|c p IH]; intros b s H.
  - destruct s as [|x s]; [done|]. cbn [app line_digit] in *.
    apply orb_false_iff in H as [H H2]. apply orb_false_iff in H as [_ H1].
    by rewrite H1, H2.
  - cbn [app line_digit] in H. apply orb_false_iff in H as [_ H]. by apply (IH false).
Qed.

Lemma double_space_suffix (p s : str) :
  double_space (p ++ s) = false -> double_space s = false.
Proof.
  intros H. rewrite <- (drop_app_length p s). by apply double_space_drop.
Qed.

(** A marker at the start of the text whose remainder has no digit at the
    start of a line: the list rule words the marker and copies the rest. *)
Lemma numbered_rule_start pw ds sep rest :
  ds <> [] -> (length ds <= 3)%nat -> Forall (fun c => is_digit c = true) ds ->
  existsb (Z.eqb sep) (u ".)") = true ->
  line_digit false rest = false ->
  numbered_rule pw true (ds ++ sep :: rest) 0
  = ((if sep =? 46 then pw else []) ++ ds ++ u "." ++ rest)%list.
Proof.
  intros Hne Hlen Hds Hsep Hrest.
  rewrite <- (take_drop (munch is_space rest) rest) in Hrest |- *.
  rewrite numbered_rule_marker; try done.
  - rewrite numbered_rule_inert; [done|]. eapply line_digit_suffix. exact Hrest.
  - apply munch_take.
  - apply munch_drop.
Qed.

(** The passes behind the list pass leave a text without trigger
    characters, ASCII arrows and runs of spaces as it is. *)
Lemma later_passes_plain self text :
  forallb (fun c => negb (trigger c)) text = true ->
  occurs (u "->") text = false -> occurs (u "<-") text = false ->
  double_space text = false ->
  re_sub spaces_re (fun _ => u " ")
    (_convert_standalone_symbols self (_convert_math_expressions self text)) = text.
Proof.
  intros Htr Hra Hla Hsp.
  assert (Hm : _convert_math_expressions self text = text).
  { unfold _convert_math_expressions. cbv zeta.
    rewrite (str_replace_inert 61 (u ">=") _ text) by (exact Htr || reflexivity || (right; by left)).
    rewrite (str_replace_inert 61 (u "<=") _ text) by (exact Htr || reflexivity || (right; by left)).
    rewrite (str_replace_inert 61 (u "!=") _ text) by (exact Htr || reflexivity || (right; by left)).
    rewrite (str_replace_inert 61 (u "==") _ text) by (exact Htr || reflexivity || by left).
    rewrite (re_sub_inert equals_re _ text) by (exact Htr || (cbn [In]; tauto)).
    rewrite (re_sub_inert standalone_equals_re _ text) by (exact Htr || (cbn [In]; tauto)).
    rewrite (re_sub_inert plus_re _ text) by (exact Htr || (cbn [In]; tauto)).
    by rewrite (re_sub_inert percent_re _ text) by (exact Htr || (cbn [In]; tauto)). }
  rewrite Hm.
  assert (Hs : _convert_standalone_symbols self text = text).
  { unfold _convert_standalone_symbols. cbv zeta.
    unfold replace_rubles, replace_pounds, replace_euros, replace_dollars.
    rewrite (re_sub_currency_inert dollar_sign _ text) by (exact Htr || reflexivity).
    rewrite (re_sub_currency_inert euro_sign _ text) by (exact Htr || reflexivity).
    rewrite (re_sub_currency_inert pound_sign _ text) by (exact Htr || reflexivity).
    rewrite (re_sub_currency_inert ruble_sign _ text) by (exact Htr || reflexivity).
    rewrite (re_sub_inert bullet_re _ text) by (exact Htr || (cbn [In]; tauto)).
    rewrite (re_sub_inert ampersand_re _ text) by (exact Htr || (cbn [In]; tauto)).
    rewrite (re_sub_inert number_re _ text) by (exact Htr || (cbn [In]; tauto)).
    rewrite (str_replace_inert 8594 (u "→") _ text) by (exact Htr || reflexivity || by left).
    rewrite (str_replace_inert 8592 (u "←") _ text) by (exact Htr || reflexivity || by left).
    rewrite (str_replace_absent (u "->") _ text) by (exact Hra || by intros E; vm_compute in E).
    by rewrite (str_replace_absent (u "<-") _ text) by (exact Hla || by intros E; vm_compute in E). }
  rewrite Hs. rewrite spaces_sub_rule. by apply spaces_rule_id.
Qed.

(** What the three passes and the clean-up make of a text that starts with
    a list marker, when the worded text is one no rule applies to. *)
Lemma passes_marker self pw ds sep rest :
  default (u "Point ") (_current_map self !! "point"%string) = pw ->
  ds <> [] -> (length ds <= 3)%nat -> Forall (fun c => is_digit c = true) ds ->
  existsb (Z.eqb sep) (u ".)") = true ->
  plain (pw ++ ds ++ u "." ++ rest) = true ->
  passes self (ds ++ sep :: rest)
  = ((if sep =? 46 then pw else []) ++ ds ++ u "." ++ rest)%list.
Proof.
  intros Hpw Hne Hlen Hds Hsep Hplain.
  unfold plain in Hplain.
  apply andb_true_iff in Hplain as [H Hsp]. apply andb_true_iff in H as [H Hld].
  apply andb_true_iff in H as [H Hla]. apply andb_true_iff in H as [Htr Hra].
  apply negb_true_iff in Hsp, Hld, Hla, Hra.
  unfold passes, _convert_numbered_lists, re_sub at 2. cbv zeta.
  rewrite numbered_scan, Hpw, numbered_rule_start; try done.
  - destruct (sep =? 46).
    + by apply later_passes_plain.
    + cbn [app]. apply later_passes_plain.
      * rewrite forallb_app in Htr. by apply andb_true_iff in Htr as [_ Htr].
      * by apply (occurs_app_r _ _ pw).
      * by apply (occurs_app_r _ _ pw).
      * by apply (double_space_suffix pw).
  - apply (line_digit_suffix (pw ++ ds ++ u ".") true).
    by rewrite <- !app_assoc.
Qed.

(** C1 (as amended). Running [transform] on its own output is always
    defined, but it can rewrite again. Take a text that starts with one to
    three digits and a closing parenthesis, with a remainder such that the
    worded text, the point phrase, the digits, a period and the remainder,
    is one no rule applies to. The first run turns the parenthesis into a
    period; the second run reads that as a period marker and puts the point
    phrase before it, so the two results differ. When the text starts with
    the digits and a period instead, the first run words the marker and the
    second run changes nothing. The claim's own example is an instance:
    "3) Buy milk" gives "3. Buy milk" and then "Point 3. Buy milk". *)
Theorem C1_rerun_rewrites_parenthesis_marker :
  (forall (h : string) (pw ds rest : str),
     In (h, pw) [("en"%string, u "Point "); ("ru"%string, u "Пункт ")] ->
     ds <> [] -> (length ds <= 3)%nat -> Forall (fun c => is_digit c = true) ds ->
     plain (pw ++ ds ++ u "." ++ rest) = true ->
     transform (ds ++ u ")" ++ rest) (Some h) = (ds ++ u "." ++ rest)%list
     /\ transform (transform (ds ++ u ")" ++ rest) (Some h)) (Some h)
        = (pw ++ ds ++ u "." ++ rest)%list
     /\ transform (transform (ds ++ u ")" ++ rest) (Some h)) (Some h)
        <> transform (ds ++ u ")" ++ rest) (Some h)
     /\ transform (ds ++ u "." ++ rest) (Some h) = (pw ++ ds ++ u "." ++ rest)%list
     /\ transform (transform (ds ++ u "." ++ rest) (Some h)) (Some h)
        = transform (ds ++ u "." ++ rest) (Some h))
  /\ transform (transform (u "3) Buy milk") (Some "en"%string)) (Some "en"%string)
     = u "Point 3. Buy milk"
  /\ transform (u "3) Buy milk") (Some "en"%string) = u "3. Buy milk"
  /\ transform (transform (u "3. Buy milk") (Some "en"%string)) (Some "en"%string)
     = transform (u "3. Buy milk") (Some "en"%string).
Proof.
  split; [|repeat apply conj; vm_compute; reflexivity].
  intros h pw ds rest Hin Hne Hlen Hds Hplain.
  assert (Ht : exists self,
             (forall text, transform text (Some h) = passes self text)
             /\ default (u "Point ") (_current_map self !! "point"%string) = pw).
  { cbn [In] in Hin. destruct Hin as [[= <- <-]|[[= <- <-]|[]]].
    - exists {| _current_map := SYMBOL_MAP_EN |}. split; [apply transform_en|].
      vm_compute. reflexivity.
    - exists {| _current_map := SYMBOL_MAP_RU |}. split; [apply transform_ru|].
      vm_compute. reflexivity. }
  destruct Ht as (self & Ht & Hpw).
  assert (Hw : pw <> []).
  { cbn [In] in Hin. by destruct Hin as [[= <- <-]|[[= <- <-]|[]]]. }
  change (u ")") with [41]. cbn [app].
  assert (H1 : transform (ds ++ 41 :: rest) (Some h) = (ds ++ u "." ++ rest)%list).
  { rewrite Ht. by rewrite (passes_marker self pw ds 41 rest). }
  assert (H2 : transform (ds ++ u "." ++ rest) (Some h) = (pw ++ ds ++ u "." ++ rest)%list).
  { rewrite Ht. change (u ".") with [46]. cbn [app].
    by rewrite (passes_marker self pw ds 46 rest). }
  assert (H3 : transform (pw ++ ds ++ u "." ++ rest) (Some h)
               = (pw ++ ds ++ u "." ++ rest)%list).
  { rewrite Ht. by apply passes_plain. }
  rewrite H1, H2, H3. repeat split; try done.
  intros E. apply (f_equal (@length Z)) in E. rewrite length_app in E.
  destruct pw; [done | cbn [length] in E; lia].
Qed.

End Converter.

(** ** Closed instances *)

(** C1: the second run of the claim's own example does change the text. *)
Lemma C1_counterexample :
  ~ (exists (uni_digit uni_word : Z -> bool) (oracle : str -> string),
       transform uni_digit uni_word oracle
         (transform uni_digit uni_word oracle (u "3) Buy milk") (Some "en"%string))
         (Some "en"%string)
       = transform uni_digit uni_word oracle (u "3) Buy milk") (Some "en"%string)).
Proof. intros (ud & uw & det & H). vm_compute in H. discriminate. Qed.

Lemma C1_witness :
  transform no_more no_more (fun _ => ""%string)
    (transform no_more no_more (fun _ => ""%string)
       (u "12" ++ u ")" ++ u " Call home") (Some "ru"%string))
    (Some "ru"%string)
  = (u "Пункт " ++ u "12" ++ u "." ++ u " Call home")%list.
Proof.
  refine (proj1 (proj2 (proj1 (C1_rerun_rewrites_parenthesis_marker
                                  no_more no_more (fun _ => ""%string))
                          "ru"%string (u "Пункт ") (u "12") (u " Call home") _ _ _ _ _))).
  - right. left. reflexivity.
  - discriminate.
  - vm_compute. lia.
  - repeat constructor.
  - vm_compute. reflexivity.
Defined.

(** C2: with the hint "fr", which the registry does not know, and an oracle
    that answers "ru", the English table is used and not the Russian one. *)
Lemma C2_counterexample :
  ~ (forall (oracle : str -> string) (hint : option string) (text : str),
       transform no_more no_more oracle text hint
       = passes no_more no_more {| _current_map := claimed_table oracle hint text |} text).
Proof.
  intros H.
  specialize (H (fun _ => "ru"%string) (Some "fr"%string) (u "50 >= 40")).
  vm_compute in H. discriminate.
Qed.

Lemma C2_witness :
  process no_more no_more (fun _ => "ru"%string) __init__ (u "50 >= 40")
    {| language := Some "fr"%string |}
  = (passes no_more no_more
       {| _current_map := default SYMBOL_MAP_EN (LANGUAGE_MAPS !! "fr"%string) |}
       (u "50 >= 40"),
     {| _current_map := default SYMBOL_MAP_EN (LANGUAGE_MAPS !! "fr"%string) |}).
Proof.
  apply (proj1 (C2_language_resolution no_more no_more (fun _ => "ru"%string)
                  __init__ (u "50 >= 40") (Some "fr"%string)) "fr"%string eq_refl).
  discriminate.
Defined.

Lemma C4_witness :
  number_rule no_more (u " number ") (35 :: u "42" ++ u " issue") 0
  = (u " number " ++ u "42" ++ number_rule no_more (u " number ") (u " issue") 0)%list.
Proof.
  apply (proj1 (proj2 (C4_number_sign_keeps_leading_space no_more no_more
                         (fun _ => ""%string))));
    try discriminate; try reflexivity; repeat constructor.
Defined.

(** C4: the result for the claim's example starts with a space. *)
Lemma C4_counterexample :
  ~ (exists (uni_digit uni_word : Z -> bool) (oracle : str -> string),
       transform uni_digit uni_word oracle (u "#42 issue") (Some "en"%string)
       = u "number 42 issue").
Proof. intros (ud & uw & det & H). vm_compute in H. discriminate. Qed.

(** C6: in the result for "a=b=c" the equation "b=c" is still there. *)
Lemma C6_counterexample :
  ~ (exists (uni_digit uni_word : Z -> bool) (oracle : str -> string),
       re_search uni_digit uni_word equals_re
         (transform uni_digit uni_word oracle (u "a=b=c") (Some "en"%string))
       = false).
Proof. intros (ud & uw & det & H). vm_compute in H. discriminate. Qed.

Lemma C6_witness :
  equals_rule no_more no_more (u " equals ") (u "x" ++ u " " ++ 61 :: u " " ++ u "5" ++ []) 0
  = (u "x" ++ u " equals " ++ u "5" ++ equals_rule no_more no_more (u " equals ") [] 0)%list.
Proof.
  apply (proj1 (proj2 (C6_equation_rewriting no_more no_more (fun _ => ""%string))));
    try discriminate; repeat constructor.
Defined.



Lemma module_patterns_consume_witness :
  Nat.le 1 (match_len [] (MState (rev [32; 32]) [] [(0%nat, [32; 32])])).
Proof.
  apply (module_patterns_consume no_more no_more spaces_re [] [32; 32]).
  - unfold module_patterns. cbn [In]. do 12 right. by left.
  - vm_compute. reflexivity.
Defined.

(** A text of ordinary prose, with a hyphen, a time, parentheses and a
    number inside a line, is plain and comes back unchanged. *)
Lemma plain_text_unchanged_witness :
  transform no_more no_more (fun _ => "en"%string)
    (u "Dr. Smith came at 10:30 - on time (see p. 5).") None
  = u "Dr. Smith came at 10:30 - on time (see p. 5).".
Proof. apply plain_text_unchanged. vm_compute. reflexivity. Defined.

Lemma spaces_cleanup_rule_witness :
  re_sub no_more no_more spaces_re (fun _ => u " ") (u "one space each") = u "one space each".
Proof.
  apply (proj1 (proj2 (spaces_cleanup_rule no_more no_more))).
  vm_compute. reflexivity.
Defined.

Lemma standalone_equals_step_rule_witness :
  re_sub no_more no_more standalone_equals_re (fun _ => u " equals ") (u "a = b")
  = standalone_rule (u " equals ") false (u "a = b").
Proof.
  refine (proj1 (standalone_equals_step_rule no_more no_more (fun _ => ""%string))
            (u " equals ") (u "a = b") _).
  reflexivity.
Defined.

Lemma ampersand_step_rule_witness :
  re_sub no_more no_more ampersand_re (fun _ => u " and ") (u "a & b")
  = ampersand_rule (u " and ") (u "a & b") 0
  /\ ampersand_rule (u " and ") (u " " ++ 38 :: [10; 32] ++ u "b") 0
     = (u " and " ++ ampersand_rule (u " and ") (u "b") 0)%list.
Proof.
  split.
  - refine (proj1 (ampersand_step_rule no_more no_more (fun _ => ""%string))
              (u " and ") (u "a & b") _).
    reflexivity.
  - apply (proj1 (proj2 (proj2 (ampersand_step_rule no_more no_more (fun _ => ""%string)))));
      try discriminate; try reflexivity; repeat constructor.
Defined.

Lemma plus_step_rule_witness :
  plus_rule no_more (u " plus ") (u "12" ++ u " " ++ 43 :: [] ++ u "30" ++ u "+1") 0
  = (u "12" ++ u " plus " ++ u "30" ++ plus_rule no_more (u " plus ") (u "+1") 0)%list.
Proof.
  apply (proj1 (proj2 (plus_step_rule no_more no_more (fun _ => ""%string))));
    try discriminate; try reflexivity; repeat constructor.
Defined.


(** A normal text of eleven characters comes back from its UTF-16LE
    bytes. *)
Lemma normal_text_round_trip_witness :
  _extract_readable_text no_more no_more (utf16le (u "Chapter one")) = u "Chapter one".
Proof.
  refine (proj1 (proj2 (proj2 (proj2 (normal_text_round_trip no_more no_more
                                        (u "Chapter one") _)))) _).
  - vm_compute. reflexivity.
  - vm_compute. repeat constructor.
Defined.

Lemma short_data_gives_no_text_witness :
  _extract_readable_text no_more no_more [72; 105; 33; 0] = [].
Proof.
  apply (proj1 (proj2 (proj2 (short_data_gives_no_text no_more no_more)))).
  vm_compute. repeat constructor.
Defined.

(** Two words of five letters with three bytes between them that are not
    readable come out with one space between them. *)
Lemma readable_runs_joined_by_space_witness :
  _extract_ascii_text no_more no_more (u "Hello" ++ [0; 200; 7] ++ u "world")
  = (u "Hello" ++ 32 :: u "world")%list.
Proof.
  refine (proj1 (readable_runs_joined_by_space no_more no_more
                   (u "Hello") [0; 200; 7] (u "world") _ _ _ _ _) _).
  - vm_compute. reflexivity.
  - vm_compute. reflexivity.
  - discriminate.
  - repeat constructor.
  - vm_compute. repeat constructor.
  - vm_compute. repeat constructor.
Defined.

(** The word "Привет" in UTF-16LE gives no text. *)
Lemma cyrillic_text_is_lost_witness :
  _extract_readable_text no_more no_more (utf16le (u "Привет")) = [].
Proof.
  apply (proj2 (proj2 (cyrillic_text_is_lost no_more no_more (u "Привет")
                         ltac:(repeat constructor)))).
Defined.

(** The hint "RU" in capitals gives the English phrase. *)
Lemma only_ru_selects_russian_witness :
  transform no_more no_more (fun _ => "ru"%string) (u "50%") (Some "RU"%string)
  = transform no_more no_more (fun _ => "ru"%string) (u "50%") (Some "en"%string).
Proof.
  refine (proj1 (only_ru_selects_russian no_more no_more (fun _ => "ru"%string)
                   (u "50%") "RU" _ _)); discriminate.
Defined.
